(** * pInk compressor: batch conversion of images to WebP through ffmpeg

    Verification development for [compressor.go].  The repository holds two
    programs of that name.  One sends a [ConversionResult] per job over a
    results channel and lets [main] sum them (module [ChanResults]); the other
    has a [Config] with an in-place mode and lets the workers add to a shared
    [Stats] with atomic operations (module [AtomicStats]).

    Conventions of the embedding:
    - Go strings are byte strings ([string]).  [strings.ToLower] and
      [strings.TrimSpace] have a fast path for ASCII bytes, written out here;
      on other bytes they consult the Unicode tables of the Go release, which
      are a parameter of the development (class [Unicode]);
    - [int64] is [Z] with its wrap-around written out ([wrap64]);
    - paths are those of a system whose separator is the slash;
      [filepath.Join] cleans its result as [filepath.Clean] does;
    - the file system is a finite map from paths to file sizes; the external
      encoder and [os.Remove], which can both fail, are oracles over that
      map;
    - goroutines are threads of an interleaving semantics: a schedule is a
      list of thread identifiers, each entry lets that thread perform its next
      atomic action (or nothing when it is blocked or has returned). *)

From Stdlib Require Import ZArith Lia Ascii.
From stdpp Require Import base numbers option list gmap strings.

Local Open Scope Z_scope.

(** ** 64-bit integers *)

Definition min_int64 : Z := - 2 ^ 63.
Definition max_int64 : Z := 2 ^ 63 - 1.

(** Two's complement wrap-around of [int64] arithmetic. *)
Definition wrap64 (z : Z) : Z := (z + 2 ^ 63) mod 2 ^ 64 - 2 ^ 63.

(** [atomic.AddInt64(&x, d)]: the new value of [x]. *)
Definition add64 (x d : Z) : Z := wrap64 (x + d).

(** ** Go's [strings] and [path/filepath], as far as the programs use them *)

Module GoStrings.

(** What the Unicode tables of the Go release do where the byte-wise fast
    paths of [strings] give up.  The program fixes no release, so the three
    functions are parameters. *)
Class Unicode : Type := mkUnicode {
  mapToLower : string → string;    (* strings.Map(unicode.ToLower, s) *)
  trimFunc : string → string;      (* strings.TrimFunc(s, unicode.IsSpace) *)
  trimRightFunc : string → string  (* strings.TrimRightFunc(s, unicode.IsSpace) *)
}.

(** [c >= utf8.RuneSelf] *)
Definition non_ascii (c : ascii) : bool := Nat.leb 128 (nat_of_ascii c).

Fixpoint isASCII (s : string) : bool :=
  match s with
  | EmptyString => true
  | String c r => negb (non_ascii c) && isASCII r
  end.

Definition is_upper (c : ascii) : bool :=
  (Nat.leb 65 (nat_of_ascii c) && Nat.leb (nat_of_ascii c) 90)%bool.

Definition lower_ascii (c : ascii) : ascii :=
  if is_upper c then ascii_of_nat (nat_of_ascii c + 32) else c.

(** The byte loop of [strings.ToLower] for a string of ASCII bytes:
    [c += 'a' - 'A'] for every ['A' <= c && c <= 'Z']. *)
Fixpoint lower_bytes (s : string) : string :=
  match s with
  | EmptyString => EmptyString
  | String c r => String (lower_ascii c) (lower_bytes r)
  end.

(** [strings.ToLower] *)
Definition ToLower {U : Unicode} (s : string) : string :=
  if isASCII s then lower_bytes s else mapToLower s.

(** [strings.HasPrefix] *)
Fixpoint HasPrefix (s p : string) : bool :=
  match p, s with
  | EmptyString, _ => true
  | String _ _, EmptyString => false
  | String a p', String b s' => if decide (a = b) then HasPrefix s' p' else false
  end.

(** [strings.HasSuffix] *)
Fixpoint HasSuffix (s suf : string) : bool :=
  if decide (s = suf) then true
  else match s with
       | EmptyString => false
       | String _ r => HasSuffix r suf
       end.

(** [strings.TrimSuffix]: [s[:len(s)-len(suffix)]] when [s] ends in
    [suffix], [s] otherwise. *)
Definition TrimSuffix (s suffix : string) : string :=
  if HasSuffix s suffix
  then String.substring 0 (String.length s - String.length suffix) s
  else s.

Definition is_space (c : ascii) : bool :=
  match nat_of_ascii c with
  | 9%nat | 10%nat | 11%nat | 12%nat | 13%nat | 32%nat => true
  | _ => false
  end.

Fixpoint TrimLeft (s : string) : string :=
  match s with
  | EmptyString => EmptyString
  | String c r => if is_space c then TrimLeft r else s
  end.

Fixpoint TrimRight (s : string) : string :=
  match s with
  | EmptyString => EmptyString
  | String c r =>
      match TrimRight r with
      | EmptyString => if is_space c then EmptyString else String c EmptyString
      | r' => String c r'
      end
  end.

Definition starts_non_ascii (s : string) : bool :=
  match s with
  | EmptyString => false
  | String c _ => non_ascii c
  end.

Fixpoint ends_non_ascii (s : string) : bool :=
  match s with
  | EmptyString => false
  | String c EmptyString => non_ascii c
  | String _ r => ends_non_ascii r
  end.

(** [strings.TrimSpace]: the ASCII blanks are skipped from the start, then
    from the end; a byte [>= utf8.RuneSelf] met on the way hands what is
    left to the Unicode-aware functions. *)
Definition TrimSpace {U : Unicode} (s : string) : string :=
  let t := TrimLeft s in
  if starts_non_ascii t then trimFunc t
  else
    let u := TrimRight t in
    if ends_non_ascii u then trimRightFunc u else u.

End GoStrings.

Module FilePath.

Definition is_sep (c : ascii) : bool := if decide (c = "/"%char) then true else false.

(** Outcome of the backward scan of [filepath.Ext]: the scan goes from the
    last byte towards the first, stops at the first dot with that suffix
    and gives up at a path separator. *)
Inductive scan : Type :=
| Found (e : string)
| Blocked
| Clear.

Fixpoint ext_scan (s : string) : scan :=
  match s with
  | EmptyString => Clear
  | String c r =>
      match ext_scan r with
      | Found e => Found e
      | Blocked => Blocked
      | Clear =>
          if decide (c = "."%char) then Found s
          else if is_sep c then Blocked else Clear
      end
  end.

(** [filepath.Ext] *)
Definition Ext (path : string) : string :=
  match ext_scan path with
  | Found e => e
  | _ => EmptyString
  end.

Fixpoint has_sep (s : string) : bool :=
  match s with
  | EmptyString => false
  | String c r => (is_sep c || has_sep r)%bool
  end.

(** The path elements between the separators, [strings.Split(path, "/")]. *)
Fixpoint elements (path : string) : list string :=
  match path with
  | EmptyString => [EmptyString]
  | String c r =>
      if is_sep c then EmptyString :: elements r
      else match elements r with
           | e :: es => String c e :: es
           | [] => [String c EmptyString]
           end
  end.

(** One element in the scan of [filepath.Clean], [st] being the elements
    written so far: an empty element and ["."] are dropped; [".."] removes
    the element before it, is dropped at the root, and is kept where a
    path that is not rooted has nothing left to remove. *)
Definition push (rooted : bool) (st : list string) (e : string) : list string :=
  if bool_decide (e = "") || bool_decide (e = ".") then st
  else if bool_decide (e = "..") then
    match last st with
    | Some x => if bool_decide (x = "..") then st ++ [e] else removelast st
    | None => if rooted then st else [e]
    end
  else st ++ [e].

(** [strings.Join(elem, "/")] *)
Fixpoint join_sep (elem : list string) : string :=
  match elem with
  | [] => EmptyString
  | e :: rest =>
      match rest with
      | [] => e
      | _ :: _ => e +:+ "/" +:+ join_sep rest
      end
  end.

(** [filepath.Clean] *)
Definition Clean (path : string) : string :=
  match path with
  | EmptyString => "."
  | String c _ =>
      let rooted := is_sep c in
      let st := foldl (push rooted) [] (elements path) in
      if rooted then "/" +:+ join_sep st
      else match st with
           | [] => "."
           | _ :: _ => join_sep st
           end
  end.

(** [filepath.Join]: the elements from the first one that is not empty on,
    joined by separators and cleaned; the empty string when there is
    none. *)
Fixpoint Join (elem : list string) : string :=
  match elem with
  | [] => EmptyString
  | e :: rest =>
      if bool_decide (e = "") then Join rest else Clean (join_sep elem)
  end.

(** The part of a path after its last separator. *)
Fixpoint last_elem (s : string) : string :=
  match s with
  | EmptyString => EmptyString
  | String c r =>
      if has_sep r then last_elem r
      else if is_sep c then r else s
  end.

Fixpoint strip_seps (s : string) : string :=
  match s with
  | EmptyString => EmptyString
  | String c r =>
      match strip_seps r with
      | EmptyString => if is_sep c then EmptyString else String c EmptyString
      | r' => String c r'
      end
  end.

(** [filepath.Base]: the last element of the path, trailing separators
    removed first; ["."] for the empty path and ["/"] for a path of
    separators only. *)
Definition Base (path : string) : string :=
  match path with
  | EmptyString => "."
  | _ => match strip_seps path with
         | EmptyString => "/"
         | p => last_elem p
         end
  end.

End FilePath.

(** ** Go's [strconv], as far as the programs use it *)

Module Strconv.

Definition is_digit (c : ascii) : bool :=
  (Nat.leb 48 (nat_of_ascii c) && Nat.leb (nat_of_ascii c) 57)%bool.

(** The loop [n = n*10 + int(ch - '0')] over the bytes of [s]; [None] for
    a byte that is no decimal digit. *)
Fixpoint digits (n : Z) (s : string) : option Z :=
  match s with
  | EmptyString => Some n
  | String ch r =>
      if is_digit ch then digits (n * 10 + Z.of_nat (nat_of_ascii ch - 48)) r
      else None
  end.

(** [strconv.Atoi] where [int] has 64 bits: an optional sign, then one
    decimal digit or more; [None] for a syntax error and for a value out
    of range. *)
Definition Atoi (s : string) : option Z :=
  let '(neg, body) :=
    match s with
    | String "-" r => (true, r)
    | String "+" r => (false, r)
    | _ => (false, s)
    end in
  match body with
  | EmptyString => None
  | _ =>
      n ← digits 0 body;
      let v := if neg then - n else n in
      if (min_int64 <=? v) && (v <=? max_int64) then Some v else None
  end.

Definition digit (d : Z) : ascii := ascii_of_nat (48 + Z.to_nat d).

(** The loop of [formatBits] for base 10: the digits of [u] are written
    from the last one backwards, in front of [acc].  A [uint64] has at most
    20 of them. *)
Fixpoint formatBits (fuel : nat) (u : Z) (acc : string) : string :=
  match fuel with
  | O => acc
  | S f =>
      if u <? 10 then String (digit u) acc
      else formatBits f (u / 10) (String (digit (u mod 10)) acc)
  end.

(** [strconv.Itoa] *)
Definition Itoa (i : Z) : string :=
  if i <? 0 then String "-" (formatBits 20 (- i) EmptyString)
  else formatBits 20 i EmptyString.

End Strconv.

(** An [os.DirEntry] as far as the programs look at it. *)
Record DirEntry : Type := mkEntry {
  Name : string;
  IsDir : bool
}.

(** ** The external encoder *)

(** What one run of ffmpeg on [src], [dst] and a quality does: it exits
    with status zero and leaves [size] bytes at [dst], or it fails (or
    cannot be started) with a diagnostic and possibly a partial output at
    [dst]. *)
Inductive EncResult : Type :=
| EncOk (size : Z)
| EncErr (stderr : string) (partial : option Z).

(** The encoder is an oracle: its result may depend on its arguments, on
    the files it finds and on the moment it returns, given as the number of
    actions the workers have performed so far (a process is not bound to
    answer the same way twice). *)
Definition Encoder : Type := nat → gmap string Z → string → string → Z → EncResult.

(** [os.Remove] is an oracle of the same kind: whether the call at that
    moment, on those files, succeeds. *)
Definition Remover : Type := nat → gmap string Z → string → bool.

#[global] Instance EncResult_eq_dec : EqDecision EncResult.
Proof. solve_decision. Defined.

Definition enc_ok (r : EncResult) : bool :=
  match r with EncOk _ => true | EncErr _ _ => false end.

Definition written (r : EncResult) : option Z :=
  match r with EncOk n => Some n | EncErr _ p => p end.

Definition apply_enc (fs : gmap string Z) (dst : string) (r : EncResult) : gmap string Z :=
  match written r with
  | Some n => <[dst := n]> fs
  | None => fs
  end.

(** ** The program with a shared [Stats] and an in-place mode *)

Module AtomicStats.
Import GoStrings FilePath.

Definition outputDir : string := "compressed".

Record Config : Type := mkConfig {
  WorkDir : string;
  Quality : Z;
  Skip : bool;
  Replace : bool
}.

Record Job : Type := mkJob {
  Source : string;
  Dest : string
}.

Record Stats : Type := mkStats {
  Total : Z;
  Converted : Z;
  Failed : Z;
  SizeBefore : Z;
  SizeAfter : Z
}.

#[global] Instance Job_eq_dec : EqDecision Job.
Proof. solve_decision. Defined.

#[global] Instance Stats_eq_dec : EqDecision Stats.
Proof. solve_decision. Defined.

(** *** Discovery *)

Definition imageExts : list string := [".png"; ".jpg"; ".jpeg"; ".gif"; ".avif"].

Definition isImage {U : Unicode} (name : string) : bool :=
  bool_decide (ToLower (Ext name) ∈ imageExts).

Definition webpName (name : string) : string :=
  TrimSuffix name (Ext name) +:+ ".webp".

(** The destination [run] computes for the entry [name]. *)
Definition destPath (cfg : Config) (name : string) : string :=
  if Replace cfg
  then Join [WorkDir cfg; webpName name]
  else Join [WorkDir cfg; outputDir; webpName name].

Definition jobOf (cfg : Config) (name : string) : Job :=
  {| Source := Join [WorkDir cfg; name]; Dest := destPath cfg name |}.

(** The three [continue] guards of the discovery loop. *)
Definition eligible {U : Unicode} (e : DirEntry) : bool :=
  negb (IsDir e) && negb (HasPrefix (Name e) ".") && isImage (Name e).

(** The loop [for _, e := range entries] of [run]. *)
Fixpoint buildJobs {U : Unicode} (cfg : Config) (entries : list DirEntry) : list Job :=
  match entries with
  | [] => []
  | e :: rest =>
      if IsDir e then buildJobs cfg rest
      else if HasPrefix (Name e) "." then buildJobs cfg rest
      else if negb (isImage (Name e)) then buildJobs cfg rest
      else jobOf cfg (Name e) :: buildJobs cfg rest
  end.

(** *** Confirmation prompt *)

Definition newline : ascii := ascii_of_nat 10.

(** [bufio.Reader.ReadString('\n')] on the bytes waiting on standard input:
    the first line with its delimiter, or an error ([None]) when the input
    ends before a delimiter. *)
Fixpoint ReadString (input : string) : option string :=
  match input with
  | EmptyString => None
  | String c r =>
      if decide (c = newline) then Some (String c EmptyString)
      else String c <$> ReadString r
  end.

Definition confirmExecution {U : Unicode} (input : string) : bool :=
  match ReadString input with
  | None => false
  | Some resp =>
      let resp := TrimSpace (ToLower resp) in
      bool_decide (resp = "s") || bool_decide (resp = "sim")
  end.

(** *** Observable actions of a worker *)

Inductive Event : Type :=
| EvStat (path : string) (res : option Z)   (* os.Stat: the size, or an error *)
| EvLock                                    (* ffmpegMutex.Lock() returned *)
| EvStart (src dst : string) (q : Z)        (* cmd.Run() launches ffmpeg *)
| EvExit (src dst : string) (r : EncResult)  (* cmd.Run() returns *)
| EvUnlock                                  (* the deferred ffmpegMutex.Unlock() *)
| EvRemove (path : string) (ok : bool)       (* os.Remove, and whether it succeeded *)
| EvLogError (name : string)                (* logError("Erro ao converter %s", name) *)
| EvPrint (src dst : string).               (* fmt.Printf("%s → %s\n", src, dst) *)

#[global] Instance Event_eq_dec : EqDecision Event.
Proof. solve_decision. Defined.

(** The outcome of one job: what the worker learnt about it.  The program
    keeps no such record, only its increments of [Stats] and its console
    lines; the embedding carries it as a history of each worker. *)
Record Outcome : Type := mkOutcome {
  oJob : Job;
  OrigSize : option Z;       (* os.Stat(job.Source), [None] for an error *)
  Result : EncResult;        (* what convert's cmd.Run() did *)
  NewSize : option Z;        (* os.Stat(job.Dest), [None] when not recorded *)
  Removed : bool             (* os.Remove(job.Source) was called and succeeded *)
}.

Definition Success (o : Outcome) : bool := enc_ok (Result o).

(** *** The worker, one atomic action at a time *)

(** Program points of [worker]: each names the action the goroutine
    performs next and carries what the iteration has learnt so far
    ([j] the job, [b] the result of the first [os.Stat], [n] the size the
    encoder left, [a] the result of the second [os.Stat], [d] whether
    [os.Remove] was called and succeeded). *)
Inductive PC : Type :=
| Recv                                              (* for job := range jobs *)
| AddTotal (j : Job)                                (* atomic.AddInt64(&stats.Total, 1) *)
| StatSource (j : Job)                              (* os.Stat(job.Source) *)
| AddBefore (j : Job) (sz : Z)                      (* atomic.AddInt64(&stats.SizeBefore, info.Size()) *)
| Lock (j : Job) (b : option Z)                     (* convert: ffmpegMutex.Lock() *)
| Start (j : Job) (b : option Z)                    (* convert: exec.Command(...), cmd.Run() begins *)
| Run (j : Job) (b : option Z)                      (* convert: cmd.Run() waits for ffmpeg *)
| Unlock (j : Job) (b : option Z) (r : EncResult)   (* convert: the deferred ffmpegMutex.Unlock() *)
| LogError (j : Job) (b : option Z) (msg : string) (p : option Z)
                                                    (* logError("Erro ao converter %s", ...) *)
| AddFailed (j : Job) (b : option Z) (msg : string) (p : option Z)
                                                    (* atomic.AddInt64(&stats.Failed, 1); continue *)
| StatDest (j : Job) (b : option Z) (n : Z)         (* os.Stat(job.Dest) *)
| AddAfter (j : Job) (b : option Z) (n sz : Z)      (* atomic.AddInt64(&stats.SizeAfter, info.Size()) *)
| RemoveSource (j : Job) (b : option Z) (n : Z) (a : option Z)
                                                    (* if cfg.Replace { _ = os.Remove(job.Source) } *)
| Printf (j : Job) (b : option Z) (n : Z) (a : option Z) (d : bool)
                                                    (* fmt.Printf("%s → %s\n", ...) *)
| AddConverted (j : Job) (b : option Z) (n : Z) (a : option Z) (d : bool)
                                                    (* atomic.AddInt64(&stats.Converted, 1) *)
| Done.                                             (* channel closed and empty: wg.Done() *)

(** What the workers call outside the program. *)
Record Env : Type := mkEnv {
  encoder : Encoder;    (* the ffmpeg that cmd.Run() starts *)
  remover : Remover     (* os.Remove *)
}.

Record Worker : Type := mkWorker {
  pc : PC;
  outcomes : list Outcome
}.

(** Identifiers of the goroutines: [run] itself, which fills and closes the
    channel, and the workers. *)
Inductive Tid : Type :=
| Main
| W (i : nat).

(** The state the goroutines share while the pool runs. *)
Record Pool : Type := mkPool {
  pending : list Job;            (* jobs [run] has still to send *)
  closed : bool;                 (* close(jobCh) happened *)
  queue : list Job;              (* contents of jobCh, oldest first *)
  mutex : bool;                  (* ffmpegMutex is held *)
  stats : Stats;
  files : gmap string Z;
  trace : list (nat * Event);    (* actions so far, with the worker's index *)
  workers : list Worker
}.

Definition zeroStats : Stats :=
  {| Total := 0; Converted := 0; Failed := 0; SizeBefore := 0; SizeAfter := 0 |}.

Definition idle : Worker := {| pc := Recv; outcomes := [] |}.

(** The pool when the [go worker(...)] statements have run and nothing
    else has. *)
Definition init (n : nat) (jobs : list Job) (fs : gmap string Z) : Pool :=
  {| pending := jobs; closed := false; queue := []; mutex := false;
     stats := zeroStats; files := fs; trace := []; workers := replicate n idle |}.

Definition addTotal (s : Stats) : Stats :=
  {| Total := add64 (Total s) 1; Converted := Converted s; Failed := Failed s;
     SizeBefore := SizeBefore s; SizeAfter := SizeAfter s |}.
Definition addConverted (s : Stats) : Stats :=
  {| Total := Total s; Converted := add64 (Converted s) 1; Failed := Failed s;
     SizeBefore := SizeBefore s; SizeAfter := SizeAfter s |}.
Definition addFailed (s : Stats) : Stats :=
  {| Total := Total s; Converted := Converted s; Failed := add64 (Failed s) 1;
     SizeBefore := SizeBefore s; SizeAfter := SizeAfter s |}.
Definition addBefore (n : Z) (s : Stats) : Stats :=
  {| Total := Total s; Converted := Converted s; Failed := Failed s;
     SizeBefore := add64 (SizeBefore s) n; SizeAfter := SizeAfter s |}.
Definition addAfter (n : Z) (s : Stats) : Stats :=
  {| Total := Total s; Converted := Converted s; Failed := Failed s;
     SizeBefore := SizeBefore s; SizeAfter := add64 (SizeAfter s) n |}.

(** What one action changes outside the worker itself. *)
Record Effect : Type := mkEffect {
  e_queue : list Job;
  e_mutex : bool;
  e_stats : Stats;
  e_files : gmap string Z;
  e_events : list Event
}.

Definition same (s : Pool) : Effect :=
  {| e_queue := queue s; e_mutex := mutex s; e_stats := stats s;
     e_files := files s; e_events := [] |}.

Definition emit (ev : Event) (s : Pool) : Effect :=
  {| e_queue := queue s; e_mutex := mutex s; e_stats := stats s;
     e_files := files s; e_events := [ev] |}.

Definition count (f : Stats → Stats) (s : Pool) : Effect :=
  {| e_queue := queue s; e_mutex := mutex s; e_stats := f (stats s);
     e_files := files s; e_events := [] |}.

Definition finish (w : Worker) (o : Outcome) : Worker :=
  {| pc := Recv; outcomes := outcomes w ++ [o] |}.

Definition goto (w : Worker) (p : PC) : Worker :=
  {| pc := p; outcomes := outcomes w |}.

(** Where [convert] returns to: [err != nil] or not. *)
Definition afterConvert (j : Job) (b : option Z) (r : EncResult) : PC :=
  match r with
  | EncOk n => StatDest j b n
  | EncErr msg p => LogError j b msg p
  end.

(** The next action of a worker: its new local state and the effect on
    the shared state, or [None] when the worker cannot move (it waits for a
    job or for the lock, or it has returned). *)
Definition action (cfg : Config) (env : Env) (s : Pool) (w : Worker)
  : option (Worker * Effect) :=
  match pc w with
  | Recv =>
      match queue s with
      | j :: q =>
          Some (goto w (AddTotal j),
                {| e_queue := q; e_mutex := mutex s; e_stats := stats s;
                   e_files := files s; e_events := [] |})
      | [] => if closed s then Some (goto w Done, same s) else None
      end
  | AddTotal j => Some (goto w (StatSource j), count addTotal s)
  | StatSource j =>
      let r := files s !! Source j in
      Some (goto w (match r with Some sz => AddBefore j sz | None => Lock j None end),
            emit (EvStat (Source j) r) s)
  | AddBefore j sz => Some (goto w (Lock j (Some sz)), count (addBefore sz) s)
  | Lock j b =>
      if mutex s then None
      else Some (goto w (Start j b),
                 {| e_queue := queue s; e_mutex := true; e_stats := stats s;
                    e_files := files s; e_events := [EvLock] |})
  | Start j b =>
      Some (goto w (Run j b), emit (EvStart (Source j) (Dest j) (Quality cfg)) s)
  | Run j b =>
      let r := encoder env (length (trace s)) (files s) (Source j) (Dest j)
                 (Quality cfg) in
      Some (goto w (Unlock j b r),
            {| e_queue := queue s; e_mutex := mutex s; e_stats := stats s;
               e_files := apply_enc (files s) (Dest j) r;
               e_events := [EvExit (Source j) (Dest j) r] |})
  | Unlock j b r =>
      Some (goto w (afterConvert j b r),
            {| e_queue := queue s; e_mutex := false; e_stats := stats s;
               e_files := files s; e_events := [EvUnlock] |})
  | LogError j b msg p =>
      Some (goto w (AddFailed j b msg p), emit (EvLogError (Base (Source j))) s)
  | AddFailed j b msg p =>
      Some (finish w {| oJob := j; OrigSize := b; Result := EncErr msg p;
                        NewSize := None; Removed := false |},
            count addFailed s)
  | StatDest j b n =>
      let r := files s !! Dest j in
      Some (goto w (match r with
                    | Some sz => AddAfter j b n sz
                    | None => RemoveSource j b n None
                    end),
            emit (EvStat (Dest j) r) s)
  | AddAfter j b n sz =>
      Some (goto w (RemoveSource j b n (Some sz)), count (addAfter sz) s)
  | RemoveSource j b n a =>
      if Replace cfg
      then
        (* the error of os.Remove is discarded *)
        let ok := remover env (length (trace s)) (files s) (Source j) in
        Some (goto w (Printf j b n a ok),
              {| e_queue := queue s; e_mutex := mutex s; e_stats := stats s;
                 e_files := if ok then delete (Source j) (files s) else files s;
                 e_events := [EvRemove (Source j) ok] |})
      else Some (goto w (Printf j b n a false), same s)
  | Printf j b n a d =>
      Some (goto w (AddConverted j b n a d),
            emit (EvPrint (Base (Source j)) (Base (Dest j))) s)
  | AddConverted j b n a d =>
      Some (finish w {| oJob := j; OrigSize := b; Result := EncOk n; NewSize := a;
                        Removed := d |},
            count addConverted s)
  | Done => None
  end.

Definition commit (s : Pool) (i : nat) (w : Worker) (e : Effect) : Pool :=
  {| pending := pending s; closed := closed s; queue := e_queue e;
     mutex := e_mutex e; stats := e_stats e; files := e_files e;
     trace := trace s ++ ((λ ev, (i, ev)) <$> e_events e);
     workers := <[i := w]> (workers s) |}.

(** [run] after the workers are started: [jobCh <- j] for each job, then
    [close(jobCh)]; afterwards it waits in [wg.Wait()].  The channel has
    room for every job, so a send never blocks. *)
Definition produce (s : Pool) : option Pool :=
  match pending s with
  | j :: rest =>
      Some {| pending := rest; closed := closed s; queue := queue s ++ [j];
              mutex := mutex s; stats := stats s; files := files s;
              trace := trace s; workers := workers s |}
  | [] =>
      if closed s then None
      else Some {| pending := []; closed := true; queue := queue s;
                   mutex := mutex s; stats := stats s; files := files s;
                   trace := trace s; workers := workers s |}
  end.

Definition step (cfg : Config) (env : Env) (t : Tid) (s : Pool) : option Pool :=
  match t with
  | Main => produce s
  | W i =>
      w ← workers s !! i;
      '(w', e) ← action cfg env s w;
      Some (commit s i w' e)
  end.

(** A scheduled thread that cannot move leaves the state as it is. *)
Definition tick (cfg : Config) (env : Env) (s : Pool) (t : Tid) : Pool :=
  default s (step cfg env t s).

Definition exec (cfg : Config) (env : Env) (sched : list Tid) (s : Pool) : Pool :=
  foldl (tick cfg env) s sched.

Definition is_done (w : Worker) : bool :=
  match pc w with Done => true | _ => false end.

(** [wg.Wait()] returns: [run] has closed the channel and every worker has
    called [wg.Done()]. *)
Definition joined (s : Pool) : bool :=
  closed s && forallb is_done (workers s).

(** *** The orchestrator *)

(** What [run] finds on the host. *)
Record Host : Type := mkHost {
  has_ffmpeg : bool;                       (* hasCommand("ffmpeg") *)
  dir_entries : option (list DirEntry);    (* os.ReadDir(cfg.WorkDir) *)
  mkdir_ok : bool;                         (* os.MkdirAll succeeds *)
  stdin : string;                          (* bytes waiting on standard input *)
  NumCPU : nat;                            (* runtime.NumCPU() *)
  disk : gmap string Z;                    (* regular files and their sizes *)
  ffmpeg : Encoder;
  os_remove : Remover;
  schedule : list Tid                      (* the interleaving of the goroutines *)
}.

Inductive RunError : Type :=
| ErrNoFfmpeg         (* "ffmpeg não encontrado no sistema" *)
| ErrReadDir          (* "Falha ao ler diretório" *)
| ErrNoJobs           (* "Nenhum arquivo elegível para conversão encontrado" *)
| ErrMkdir.           (* "Falha ao criar pasta de saída" *)

(** What a finished call of [run] leaves behind. *)
Record Finished : Type := mkFinished {
  err : option RunError;         (* the returned error, [None] for nil *)
  mkdirs : list string;          (* directories passed to a successful os.MkdirAll *)
  cancelled : bool;              (* "Operação cancelada pelo usuário" was logged *)
  pool : option Pool             (* the pool after wg.Wait(), when it ran *)
}.

(** What the workers of this host call. *)
Definition host_env (h : Host) : Env :=
  {| encoder := ffmpeg h; remover := os_remove h |}.

Definition fail (e : RunError) : Finished :=
  {| err := Some e; mkdirs := []; cancelled := false; pool := None |}.

(** [run]; [None] when the schedule ends while [run] still waits in
    [wg.Wait()]. *)
Definition run {U : Unicode} (cfg : Config) (h : Host) : option Finished :=
  if negb (has_ffmpeg h) then Some (fail ErrNoFfmpeg)
  else match dir_entries h with
  | None => Some (fail ErrReadDir)
  | Some entries =>
      let jobs := buildJobs cfg entries in
      match jobs with
      | [] => Some (fail ErrNoJobs)
      | _ :: _ =>
          if negb (Replace cfg) && negb (mkdir_ok h) then Some (fail ErrMkdir)
          else
            let made :=
              if Replace cfg then [] else [Join [WorkDir cfg; outputDir]] in
            if negb (Skip cfg) && negb (confirmExecution (stdin h))
            then Some {| err := None; mkdirs := made; cancelled := true; pool := None |}
            else
              let s := exec cfg (host_env h) (schedule h)
                            (init (NumCPU h) jobs (disk h)) in
              if joined s
              then Some {| err := None; mkdirs := made; cancelled := false; pool := Some s |}
              else None
      end
  end.

(** The exit status [main] gives the process once [parseArgs] succeeded:
    [os.Exit(1)] on an error of [run], a normal return otherwise. *)
Definition exit_code (f : Finished) : Z :=
  match err f with
  | Some _ => 1
  | None => 0
  end.

Definition main {U : Unicode} (cfg : Config) (h : Host) : option Z :=
  exit_code <$> run cfg h.

(** *** The command line *)

Inductive ArgsError : Type :=
| ErrNoQuality               (* "Qualidade inválida" *)
| ErrQualityRange            (* "Qualidade deve estar entre 1 e 100" *)
| ErrAbs                     (* "Diretório inválido" *)
| ErrNotDir (abs : string)   (* "Diretório não encontrado: %s" *)
| ErrGetwd.                  (* "Falha ao obter diretório atual" *)

(** What [parseArgs] asks the system. *)
Record Dirs : Type := mkDirs {
  Abs : string → option string;    (* filepath.Abs *)
  isDir : string → bool;           (* os.Stat succeeds and info.IsDir() *)
  Getwd : option string            (* os.Getwd *)
}.

Definition setQuality (cfg : Config) (v : Z) : Config :=
  {| WorkDir := WorkDir cfg; Quality := v; Skip := Skip cfg; Replace := Replace cfg |}.
Definition setSkip (cfg : Config) : Config :=
  {| WorkDir := WorkDir cfg; Quality := Quality cfg; Skip := true; Replace := Replace cfg |}.
Definition setReplace (cfg : Config) : Config :=
  {| WorkDir := WorkDir cfg; Quality := Quality cfg; Skip := Skip cfg; Replace := true |}.
Definition setWorkDir (cfg : Config) (dir : string) : Config :=
  {| WorkDir := dir; Quality := Quality cfg; Skip := Skip cfg; Replace := Replace cfg |}.

Definition is_quality (a : string) : bool :=
  bool_decide (a = "-q") || bool_decide (a = "-quality").
Definition is_skip (a : string) : bool :=
  bool_decide (a = "-s") || bool_decide (a = "-skip").
Definition is_replace (a : string) : bool :=
  bool_decide (a = "-replace") || bool_decide (a = "-r").

(** The loop of [parseArgs] over [os.Args[1:]]; [rest] collects the
    arguments that are no flag.  After [-q] the next argument is the value
    and is skipped ([i++]). *)
Fixpoint scanArgs (args : list string) (cfg : Config) (rest : list string)
  : ArgsError + Config * list string :=
  match args with
  | [] => inr (cfg, rest)
  | a :: tl =>
      if is_quality a then
        match tl with
        | [] => inl ErrNoQuality
        | v :: tl' =>
            match Strconv.Atoi v with
            | Some n =>
                if (n <? 1) || (100 <? n) then inl ErrQualityRange
                else scanArgs tl' (setQuality cfg n) rest
            | None => inl ErrQualityRange
            end
        end
      else if is_skip a then scanArgs tl (setSkip cfg) rest
      else if is_replace a then scanArgs tl (setReplace cfg) rest
      else scanArgs tl cfg (rest ++ [a])
  end.

(** [var cfg Config; cfg.Quality = 80] *)
Definition defaults : Config :=
  {| WorkDir := EmptyString; Quality := 80; Skip := false; Replace := false |}.

Definition parseArgs (d : Dirs) (args : list string) : ArgsError + Config :=
  match scanArgs args defaults [] with
  | inl e => inl e
  | inr (cfg, rest) =>
      match rest with
      | first :: _ =>
          match Abs d first with
          | None => inl ErrAbs
          | Some abs =>
              if isDir d abs then inr (setWorkDir cfg abs) else inl (ErrNotDir abs)
          end
      | [] =>
          match Getwd d with
          | None => inl ErrGetwd
          | Some dir => inr (setWorkDir cfg dir)
          end
      end
  end.

(** The arguments [convert] gives to ffmpeg. *)
Definition ffmpegArgs (src dst : string) (quality : Z) : list string :=
  ["-y"; "-i"; src; "-qscale"; Strconv.Itoa quality; dst].

End AtomicStats.

(** ** The program with a results channel *)

Module ChanResults.
Import GoStrings FilePath.

Definition outputDir : string := "compressed".

Record ImageJob : Type := mkImageJob {
  SourcePath : string;
  DestPath : string;
  OrigSize : Z
}.

Record ConversionResult : Type := mkResult {
  rSourcePath : string;
  rDestPath : string;
  rOrigSize : Z;
  NewSize : Z;
  Success : bool
}.

Record Stats : Type := mkStats {
  TotalFiles : Z;
  ProcessedFiles : Z;
  OriginalSize : Z;
  ConvertedSize : Z;
  FailedFiles : Z
}.

Definition validExts : list string := [".png"; ".jpg"; ".jpeg"; ".gif"].

(** The loop of [scanImages] over the entries [os.ReadDir] returned. *)
Fixpoint scanImages {U : Unicode} (dir : string) (entries : list DirEntry)
  : list string :=
  match entries with
  | [] => []
  | entry :: rest =>
      if IsDir entry then scanImages dir rest
      else if bool_decide (ToLower (Ext (Name entry)) ∈ validExts)
           then Join [dir; Name entry] :: scanImages dir rest
           else scanImages dir rest
  end.

Definition newline : ascii := ascii_of_nat 10.

Fixpoint ReadString (input : string) : option string :=
  match input with
  | EmptyString => None
  | String c r =>
      if decide (c = newline) then Some (String c EmptyString)
      else String c <$> ReadString r
  end.

Definition confirmExecution {U : Unicode} (input : string) : bool :=
  match ReadString input with
  | None => false
  | Some response =>
      let response := TrimSpace (ToLower response) in
      bool_decide (response = "") || bool_decide (response = "s")
      || bool_decide (response = "sim")
  end.

(** The destination [main] computes for an image path. *)
Definition destPath (outputPath imgPath : string) : string :=
  let filename := Base imgPath in
  Join [outputPath; TrimSuffix filename (Ext filename) +:+ ".webp"].

(** The loop [for _, imgPath := range images] of [main]: an image whose
    [os.Stat] fails is skipped, the others are sent to the workers. *)
Fixpoint dispatch (fs : gmap string Z) (outputPath : string) (images : list string)
  : list ImageJob :=
  match images with
  | [] => []
  | imgPath :: rest =>
      match fs !! imgPath with
      | None => dispatch fs outputPath rest
      | Some size =>
          {| SourcePath := imgPath; DestPath := destPath outputPath imgPath;
             OrigSize := size |} :: dispatch fs outputPath rest
      end
  end.

(** The body of [for result := range results]. *)
Definition collect (stats : Stats) (result : ConversionResult) : Stats :=
  if Success result
  then {| TotalFiles := TotalFiles stats;
          ProcessedFiles := add64 (ProcessedFiles stats) 1;
          OriginalSize := add64 (OriginalSize stats) (rOrigSize result);
          ConvertedSize := add64 (ConvertedSize stats) (NewSize result);
          FailedFiles := FailedFiles stats |}
  else {| TotalFiles := TotalFiles stats;
          ProcessedFiles := ProcessedFiles stats;
          OriginalSize := OriginalSize stats;
          ConvertedSize := ConvertedSize stats;
          FailedFiles := add64 (FailedFiles stats) 1 |}.

(** [stats := Stats{TotalFiles: len(images)}] followed by the loop over the
    results the workers sent. *)
Definition summary (images : list string) (results : list ConversionResult) : Stats :=
  foldl collect
        {| TotalFiles := Z.of_nat (length images); ProcessedFiles := 0;
           OriginalSize := 0; ConvertedSize := 0; FailedFiles := 0 |}
        results.

(** *** The workers and the collector, one atomic action at a time *)

(** Program points of [worker] with [convertToWebP] inlined. *)
Inductive PC : Type :=
| Recv                                   (* for job := range jobs *)
| Lock (job : ImageJob)                  (* ffmpegMutex.Lock() *)
| Start (job : ImageJob)                 (* exec.Command(...), cmd.Run() begins *)
| Run (job : ImageJob)                   (* cmd.Run() waits for ffmpeg *)
| StatDest (job : ImageJob)              (* os.Stat(destPath), the lock still held *)
| Unlock (job : ImageJob) (ret : option Z)
                                         (* the deferred Unlock; [ret] is the size
                                            returned, [None] for an error *)
| Send (result : ConversionResult)       (* results <- result *)
| Done.                                  (* wg.Done() *)

(** Where [main] stands once the workers are started. *)
Inductive MainPC : Type :=
| Producing      (* for _, imgPath := range images *)
| Collecting     (* for result := range results *)
| Summarized.    (* printSummary(stats) *)

Inductive Tid : Type :=
| Main
| Closer         (* go func() { wg.Wait(); close(results) }() *)
| W (i : nat).

Record Pool : Type := mkPool {
  pending : list string;               (* images [main] has still to look at *)
  closed : bool;                       (* close(jobs) happened *)
  queue : list ImageJob;               (* contents of the channel jobs *)
  mutex : bool;                        (* ffmpegMutex is held *)
  files : gmap string Z;
  results : list ConversionResult;     (* contents of the channel results *)
  rclosed : bool;                      (* close(results) happened *)
  stats : Stats;                       (* the local variable of [main] *)
  mainpc : MainPC;
  sent : list ImageJob;                (* history: every job sent so far *)
  collected : list ConversionResult;   (* history: every result received *)
  workers : list PC
}.

Definition resultOf (job : ImageJob) (ret : option Z) : ConversionResult :=
  {| rSourcePath := SourcePath job; rDestPath := DestPath job;
     rOrigSize := OrigSize job; NewSize := default 0 ret;
     Success := bool_decide (is_Some ret) |}.

Definition init (n : nat) (images : list string) (fs : gmap string Z) : Pool :=
  {| pending := images; closed := false; queue := []; mutex := false; files := fs;
     results := []; rclosed := false;
     stats := {| TotalFiles := Z.of_nat (length images); ProcessedFiles := 0;
                 OriginalSize := 0; ConvertedSize := 0; FailedFiles := 0 |};
     mainpc := Producing; sent := []; collected := [];
     workers := replicate n Recv |}.

Definition is_done (p : PC) : bool :=
  match p with Done => true | _ => false end.

(** One action of [main]. *)
Definition main_step (outputPath : string) (s : Pool) : option Pool :=
  match mainpc s with
  | Producing =>
      match pending s with
      | imgPath :: rest =>
          match files s !! imgPath with
          | None =>
              Some {| pending := rest; closed := closed s; queue := queue s;
                      mutex := mutex s; files := files s; results := results s;
                      rclosed := rclosed s; stats := stats s; mainpc := Producing;
                      sent := sent s; collected := collected s; workers := workers s |}
          | Some size =>
              let job := {| SourcePath := imgPath;
                            DestPath := destPath outputPath imgPath;
                            OrigSize := size |} in
              Some {| pending := rest; closed := closed s; queue := queue s ++ [job];
                      mutex := mutex s; files := files s; results := results s;
                      rclosed := rclosed s; stats := stats s; mainpc := Producing;
                      sent := sent s ++ [job]; collected := collected s;
                      workers := workers s |}
          end
      | [] =>
          Some {| pending := []; closed := true; queue := queue s;
                  mutex := mutex s; files := files s; results := results s;
                  rclosed := rclosed s; stats := stats s; mainpc := Collecting;
                  sent := sent s; collected := collected s; workers := workers s |}
      end
  | Collecting =>
      match results s with
      | result :: rest =>
          Some {| pending := pending s; closed := closed s; queue := queue s;
                  mutex := mutex s; files := files s; results := rest;
                  rclosed := rclosed s; stats := collect (stats s) result;
                  mainpc := Collecting; sent := sent s;
                  collected := collected s ++ [result]; workers := workers s |}
      | [] =>
          if rclosed s
          then Some {| pending := pending s; closed := closed s; queue := queue s;
                       mutex := mutex s; files := files s; results := [];
                       rclosed := true; stats := stats s; mainpc := Summarized;
                       sent := sent s; collected := collected s; workers := workers s |}
          else None
      end
  | Summarized => None
  end.

(** The goroutine that closes [results] when every worker has returned;
    [main] starts it after [close(jobs)]. *)
Definition closer_step (s : Pool) : option Pool :=
  match mainpc s with
  | Producing => None
  | _ =>
      if forallb is_done (workers s) && negb (rclosed s)
      then Some {| pending := pending s; closed := closed s; queue := queue s;
                   mutex := mutex s; files := files s; results := results s;
                   rclosed := true; stats := stats s; mainpc := mainpc s;
                   sent := sent s; collected := collected s; workers := workers s |}
      else None
  end.

(** What an action of a worker changes in the shared state. *)
Record Effect : Type := mkEffect {
  e_queue : list ImageJob;
  e_mutex : bool;
  e_files : gmap string Z;
  e_results : list ConversionResult
}.

Definition same (s : Pool) : Effect :=
  {| e_queue := queue s; e_mutex := mutex s; e_files := files s;
     e_results := results s |}.

Definition action (q : Z) (enc : Encoder) (now : nat) (s : Pool) (p : PC)
  : option (PC * Effect) :=
  match p with
  | Recv =>
      match queue s with
      | job :: rest =>
          Some (Lock job, {| e_queue := rest; e_mutex := mutex s;
                             e_files := files s; e_results := results s |})
      | [] => if closed s then Some (Done, same s) else None
      end
  | Lock job =>
      if mutex s then None
      else Some (Start job, {| e_queue := queue s; e_mutex := true;
                               e_files := files s; e_results := results s |})
  | Start job => Some (Run job, same s)
  | Run job =>
      let r := enc now (files s) (SourcePath job) (DestPath job) q in
      Some (if enc_ok r then StatDest job else Unlock job None,
            {| e_queue := queue s; e_mutex := mutex s;
               e_files := apply_enc (files s) (DestPath job) r;
               e_results := results s |})
  | StatDest job => Some (Unlock job (files s !! DestPath job), same s)
  | Unlock job ret =>
      Some (Send (resultOf job ret),
            {| e_queue := queue s; e_mutex := false; e_files := files s;
               e_results := results s |})
  | Send result =>
      Some (Recv, {| e_queue := queue s; e_mutex := mutex s; e_files := files s;
                     e_results := results s ++ [result] |})
  | Done => None
  end.

Definition commit (s : Pool) (i : nat) (p : PC) (e : Effect) : Pool :=
  {| pending := pending s; closed := closed s; queue := e_queue e;
     mutex := e_mutex e; files := e_files e; results := e_results e;
     rclosed := rclosed s; stats := stats s; mainpc := mainpc s;
     sent := sent s; collected := collected s;
     workers := <[i := p]> (workers s) |}.

(** [now] counts the actions performed so far. *)
Definition step (q : Z) (enc : Encoder) (outputPath : string) (now : nat)
  (t : Tid) (s : Pool) : option Pool :=
  match t with
  | Main => main_step outputPath s
  | Closer => closer_step s
  | W i =>
      p ← workers s !! i;
      '(p', e) ← action q enc now s p;
      Some (commit s i p' e)
  end.

Fixpoint exec (q : Z) (enc : Encoder) (outputPath : string) (now : nat)
  (sched : list Tid) (s : Pool) : Pool :=
  match sched with
  | [] => s
  | t :: rest =>
      exec q enc outputPath (S now) rest (default s (step q enc outputPath now t s))
  end.

(** What [main] finds on the host. *)
Record Host : Type := mkHost {
  quality : Z;                             (* -quality / -q *)
  skip : bool;                             (* -skip / -s *)
  args : list string;                      (* flag.Args() *)
  getwd : option string;                   (* os.Getwd() *)
  dir_missing : bool;                      (* os.IsNotExist of os.Stat(inputDir) *)
  dir_entries : option (list DirEntry);    (* os.ReadDir(inputDir) *)
  stdin : string;
  mkdir_ok : bool
}.

(** How far [main] gets before it starts the workers: it leaves with an
    exit status, or it has created the output directory and goes on with
    the images found. *)
Inductive Prelude : Type :=
| Exit (code : Z)
| Convert (images : list string) (outputPath : string).

Definition prelude {U : Unicode} (h : Host) : Prelude :=
  if (quality h <? 1) || (100 <? quality h) then Exit 1
  else match args h with
  | [] => Exit 1
  | arg :: _ =>
      match (if bool_decide (arg = ".") then getwd h else Some arg) with
      | None => Exit 1
      | Some inputDir =>
          if dir_missing h then Exit 1
          else match dir_entries h with
          | None => Exit 1
          | Some entries =>
              let images := scanImages inputDir entries in
              match images with
              | [] => Exit 0
              | _ :: _ =>
                  if negb (skip h) && negb (confirmExecution (stdin h)) then Exit 0
                  else if negb (mkdir_ok h) then Exit 1
                  else Convert images (Join [inputDir; outputDir])
              end
          end
      end
  end.

(** *** Sizes in the messages *)

(** The loop of [formatSize], [for n := bytes / unit; n >= unit; n /= unit],
    with [div *= unit] and [exp++] in its body: the final [div] and [exp],
    or [None] when [fuel] rounds do not end it. *)
Fixpoint scale (fuel : nat) (n div : Z) (exp : nat) : option (Z * nat) :=
  match fuel with
  | O => None
  | S f =>
      if 1024 <=? n then scale f (Z.quot n 1024) (wrap64 (div * 1024)) (S exp)
      else Some (div, exp)
  end.

(** What [formatSize] shows: the bytes with "B", or the quotient
    [float64(bytes) / float64(div)] with one decimal and the letter
    ["KMGTPE"[exp]]; no letter stands for an index out of range. *)
Inductive Shown : Type :=
| InBytes (n : Z)
| Scaled (bytes div : Z) (letter : option ascii).

Definition formatSize (bytes : Z) : option Shown :=
  if bytes <? 1024 then Some (InBytes bytes)
  else
    '(div, exp) ← scale 64 (Z.quot bytes 1024) 1024 0;
    Some (Scaled bytes div (String.get exp "KMGTPE")).

End ChanResults.

Module CR := ChanResults.

(** * Vocabulary of the statements *)

Section Measures.
Import GoStrings FilePath AtomicStats.
Context {U : Unicode}.

(** Sum of a quantity over the workers. *)
Definition sumW {A : Type} (f : A → Z) (ws : list A) : Z :=
  foldr (λ w acc, f w + acc) 0 ws.

(** The worker is inside [convert] and holds [ffmpegMutex]. *)
Definition holds (p : PC) : bool :=
  match p with
  | Start _ _ | Run _ _ | Unlock _ _ _ => true
  | _ => false
  end.

(** The worker's ffmpeg process is running: [cmd.Run()] has not returned. *)
Definition in_flight (p : PC) : bool :=
  match p with
  | Run _ _ => true
  | _ => false
  end.

(** The job a worker has claimed and not finished. *)
Definition cur_job (p : PC) : list Job :=
  match p with
  | Recv | Done => []
  | AddTotal j | StatSource j | AddBefore j _ | Lock j _ | Start j _ | Run j _
  | Unlock j _ _ | LogError j _ _ _ | AddFailed j _ _ _ | StatDest j _ _
  | AddAfter j _ _ _ | RemoveSource j _ _ _ | Printf j _ _ _ _
  | AddConverted j _ _ _ _ => [j]
  end.

(** Jobs a worker has taken from the channel, finished or not. *)
Definition claimed (w : Worker) : list Job :=
  cur_job (pc w) ++ (oJob <$> outcomes w).

(** All outcomes the workers have produced. *)
Definition all_outcomes (s : Pool) : list Outcome :=
  mbind outcomes (workers s).

Definition size0 (o : option Z) : Z := default 0 o.

(** Whether the current job is already counted in [Total]. *)
Definition counted (p : PC) : Z :=
  match p with
  | Recv | Done | AddTotal _ => 0
  | _ => 1
  end.

(** What the current job has added to [SizeBefore] and to [SizeAfter]. *)
Definition bef (p : PC) : Z :=
  match p with
  | Recv | Done | AddTotal _ | StatSource _ | AddBefore _ _ => 0
  | Lock _ b | Start _ b | Run _ b | Unlock _ b _ | LogError _ b _ _
  | AddFailed _ b _ _ | StatDest _ b _ | AddAfter _ b _ _ | RemoveSource _ b _ _
  | Printf _ b _ _ _ | AddConverted _ b _ _ _ => size0 b
  end.

Definition aft (p : PC) : Z :=
  match p with
  | RemoveSource _ _ _ a | Printf _ _ _ a _ | AddConverted _ _ _ a _ => size0 a
  | _ => 0
  end.

Definition sum_orig (os : list Outcome) : Z :=
  foldr (λ o acc, size0 (OrigSize o) + acc) 0 os.

Definition sum_new (os : list Outcome) : Z :=
  foldr (λ o acc, size0 (NewSize o) + acc) 0 os.

Definition n_ok (os : list Outcome) : Z :=
  Z.of_nat (length (filter (λ o, Success o = true) os)).

Definition n_err (os : list Outcome) : Z :=
  Z.of_nat (length (filter (λ o, Success o = false) os)).

(** The states a pool of [n] workers over [jobs] can be in. *)
Definition reachable (cfg : Config) (env : Env) (n : nat) (jobs : list Job)
    (fs : gmap string Z) (s : Pool) : Prop :=
  ∃ sched, s = exec cfg env sched (init n jobs fs).

(** The actions of worker [i] in a trace. *)
Definition proj (i : nat) (tr : list (nat * Event)) : list Event :=
  snd <$> filter (λ x, fst x = i) tr.

(** The actions of [convert], from [Lock] to the deferred [Unlock]. *)
Definition convert_events (cfg : Config) (j : Job) (r : EncResult) : list Event :=
  [EvLock; EvStart (Source j) (Dest j) (Quality cfg);
   EvExit (Source j) (Dest j) r; EvUnlock].

(** The actions of one complete iteration of the worker's loop. *)
Definition block (cfg : Config) (o : Outcome) : list Event :=
  EvStat (Source (oJob o)) (OrigSize o) :: convert_events cfg (oJob o) (Result o) ++
  match Result o with
  | EncOk _ =>
      EvStat (Dest (oJob o)) (NewSize o) ::
      (if Replace cfg then [EvRemove (Source (oJob o)) (Removed o)] else []) ++
      [EvPrint (Base (Source (oJob o))) (Base (Dest (oJob o)))]
  | EncErr _ _ => [EvLogError (Base (Source (oJob o)))]
  end.

(** The actions of the iteration in progress. *)
Definition prefix (cfg : Config) (p : PC) : list Event :=
  match p with
  | Recv | Done | AddTotal _ | StatSource _ => []
  | AddBefore j sz => [EvStat (Source j) (Some sz)]
  | Lock j b => [EvStat (Source j) b]
  | Start j b => [EvStat (Source j) b; EvLock]
  | Run j b => [EvStat (Source j) b; EvLock; EvStart (Source j) (Dest j) (Quality cfg)]
  | Unlock j b r =>
      [EvStat (Source j) b; EvLock; EvStart (Source j) (Dest j) (Quality cfg);
       EvExit (Source j) (Dest j) r]
  | LogError j b msg p =>
      EvStat (Source j) b :: convert_events cfg j (EncErr msg p)
  | AddFailed j b msg p =>
      EvStat (Source j) b :: convert_events cfg j (EncErr msg p) ++
      [EvLogError (Base (Source j))]
  | StatDest j b n =>
      EvStat (Source j) b :: convert_events cfg j (EncOk n)
  | AddAfter j b n sz =>
      EvStat (Source j) b :: convert_events cfg j (EncOk n) ++ [EvStat (Dest j) (Some sz)]
  | RemoveSource j b n a =>
      EvStat (Source j) b :: convert_events cfg j (EncOk n) ++ [EvStat (Dest j) a]
  | Printf j b n a d =>
      EvStat (Source j) b :: convert_events cfg j (EncOk n) ++
      EvStat (Dest j) a :: (if Replace cfg then [EvRemove (Source j) d] else [])
  | AddConverted j b n a d =>
      block cfg {| oJob := j; OrigSize := b; Result := EncOk n; NewSize := a;
                   Removed := d |}
  end.

(** Actions a worker has still to perform before it is back at [Recv]. *)
Definition rem (p : PC) : nat :=
  match p with
  | Done => 0
  | Recv => 1
  | AddTotal _ => 15
  | StatSource _ => 14
  | AddBefore _ _ => 13
  | Lock _ _ => 12
  | Start _ _ => 11
  | Run _ _ => 10
  | Unlock _ _ _ => 9
  | LogError _ _ _ _ => 8
  | AddFailed _ _ _ _ => 7
  | StatDest _ _ _ => 8
  | AddAfter _ _ _ _ => 7
  | RemoveSource _ _ _ _ => 6
  | Printf _ _ _ _ _ => 5
  | AddConverted _ _ _ _ _ => 4
  end%nat.

(** An upper bound on the actions the pool can still perform. *)
Definition fuel (s : Pool) : Z :=
  18 * Z.of_nat (length (pending s)) + (if closed s then 0 else 1)
  + 16 * Z.of_nat (length (queue s)) + sumW (λ w, Z.of_nat (rem (pc w))) (workers s).

(** The worker waits for the lock or has returned. *)
Definition blocked (p : PC) : bool :=
  match p with Done | Lock _ _ => true | _ => false end.

(** The threads of a pool of [n] workers. *)
Definition threads (n : nat) : list Tid := Main :: (W <$> seq 0 n).

(** The first thread that can move. *)
Definition pick (cfg : Config) (env : Env) (s : Pool) : option Tid :=
  list_find (λ t, is_Some (step cfg env t s)) (threads (length (workers s)))
  ≫= λ x, Some (snd x).

(** A schedule that always runs the first thread that can move. *)
Fixpoint greedy (cfg : Config) (env : Env) (k : nat) (s : Pool) : list Tid :=
  match k with
  | O => []
  | S k' =>
      match pick cfg env s with
      | Some t => t :: greedy cfg env k' (tick cfg env s t)
      | None => []
      end
  end.

(** The [Stats] a set of outcomes amounts to. *)
Definition stats_of (os : list Outcome) : Stats :=
  {| Total := wrap64 (Z.of_nat (length os));
     Converted := wrap64 (n_ok os);
     Failed := wrap64 (n_err os);
     SizeBefore := wrap64 (sum_orig os);
     SizeAfter := wrap64 (sum_new os) |}.

(** *** Invariants of the pool *)

(** The lock is held exactly while one worker is inside [convert]. *)
Definition mutex_inv (s : Pool) : Prop :=
  Z.b2z (mutex s) = sumW (λ w, Z.b2z (holds (pc w))) (workers s).

(** Every counter is the sum of what the workers have added to it. *)
Definition stats_inv (s : Pool) : Prop :=
  Total (stats s)
    = wrap64 (sumW (λ w, counted (pc w) + Z.of_nat (length (outcomes w))) (workers s))
  ∧ Converted (stats s) = wrap64 (sumW (λ w, n_ok (outcomes w)) (workers s))
  ∧ Failed (stats s) = wrap64 (sumW (λ w, n_err (outcomes w)) (workers s))
  ∧ SizeBefore (stats s)
    = wrap64 (sumW (λ w, bef (pc w) + sum_orig (outcomes w)) (workers s))
  ∧ SizeAfter (stats s)
    = wrap64 (sumW (λ w, aft (pc w) + sum_new (outcomes w)) (workers s)).

(** No job is lost or duplicated on its way through the channel. *)
Definition cons_inv (jobs : list Job) (s : Pool) : Prop :=
  pending s ++ queue s ++ (workers s ≫= claimed) ≡ₚ jobs.

(** The channel is closed after the last send, and a worker returns only
    from a closed, empty channel. *)
Definition chan_inv (n : nat) (s : Pool) : Prop :=
  length (workers s) = n
  ∧ (closed s = true → pending s = [])
  ∧ (∀ w, w ∈ workers s → pc w = Done → closed s = true ∧ queue s = []).

(** The actions of each worker are its finished iterations followed by
    the iteration in progress. *)
Definition trace_inv (cfg : Config) (s : Pool) : Prop :=
  ∀ k w, workers s !! k = Some w →
         proj k (trace s) = (outcomes w ≫= block cfg) ++ prefix cfg (pc w).

(** Every action in the trace belongs to a worker of the pool. *)
Definition tags_inv (s : Pool) : Prop :=
  ∀ i ev, (i, ev) ∈ trace s → is_Some (workers s !! i).

(** All actions so far, in the order they happened. *)
Definition events (s : Pool) : list Event := snd <$> trace s.

Definition is_remove_of (p : string) (ev : Event) : bool :=
  match ev with
  | EvRemove q ok => ok && bool_decide (q = p)
  | _ => false
  end.

(** [os.Remove(p)] has been called and has succeeded. *)
Definition removed (s : Pool) (p : string) : bool :=
  existsb (is_remove_of p) (events s).

(** A path no job writes to holds what it held at the start, unless it was
    removed. *)
Definition fs_inv (jobs : list Job) (fs0 : gmap string Z) (s : Pool) : Prop :=
  ∀ p, p ∉ (Dest <$> jobs) →
       files s !! p = if removed s p then None else fs0 !! p.

(** What one action does to the files. *)
Definition apply_event (fs : gmap string Z) (ev : Event) : gmap string Z :=
  match ev with
  | EvExit _ dst r => apply_enc fs dst r
  | EvRemove p ok => if ok then delete p fs else fs
  | _ => fs
  end.

(** The files after a sequence of actions. *)
Definition replay (fs : gmap string Z) (evs : list Event) : gmap string Z :=
  foldl apply_event fs evs.

(** *** What the trace says about the calls to the outside *)

(** The runs of ffmpeg in a trace: the job and what [cmd.Run()] returned. *)
Definition exits (evs : list Event) : list (Job * EncResult) :=
  evs ≫= λ ev,
    match ev with
    | EvExit src dst r => [({| Source := src; Dest := dst |}, r)]
    | _ => []
    end.

(** The runs that returned an error. *)
Definition failures (evs : list Event) : list (Job * EncResult) :=
  filter (λ x, enc_ok (snd x) = false) (exits evs).

(** The file names of the lines "Erro ao converter ...". *)
Definition logged (evs : list Event) : list string :=
  evs ≫= λ ev,
    match ev with
    | EvLogError name => [name]
    | _ => []
    end.

(** The event [ev], coming after the events [pre], records what the
    outside answered at that moment: the file system for [os.Stat], the
    encoder for [cmd.Run()], [os.Remove] for itself. *)
Definition answered (cfg : Config) (env : Env) (fs0 : gmap string Z)
    (pre : list Event) (ev : Event) : Prop :=
  match ev with
  | EvStat p res => res = replay fs0 pre !! p
  | EvExit src dst r =>
      r = encoder env (length pre) (replay fs0 pre) src dst (Quality cfg)
  | EvRemove p ok => ok = remover env (length pre) (replay fs0 pre) p
  | _ => True
  end.

Definition honest (cfg : Config) (env : Env) (fs0 : gmap string Z)
    (evs : list Event) : Prop :=
  ∀ pre ev post, evs = pre ++ ev :: post → answered cfg env fs0 pre ev.

(** Everything that holds in every state of the pool. *)
Definition pool_inv (cfg : Config) (n : nat) (jobs : list Job) (fs0 : gmap string Z)
    (s : Pool) : Prop :=
  mutex_inv s ∧ stats_inv s ∧ cons_inv jobs s ∧ chan_inv n s ∧ trace_inv cfg s
  ∧ tags_inv s ∧ fs_inv jobs fs0 s ∧ files s = replay fs0 (events s).

(** *** The order of a job's steps *)

(** Where a worker stands in the sequence
    stat source, encode, stat destination, optional delete, report. *)
Inductive Phase : Type :=
| Idle                                   (* between two jobs *)
| SourceRead (src : string)              (* the source was stat'ed *)
| Locked (src : string)                  (* the lock is held *)
| Running (src dst : string)             (* ffmpeg runs *)
| Exited (src dst : string) (ok : bool)  (* ffmpeg returned *)
| Errored (src : string)                 (* convert returned an error *)
| Encoded (src dst : string)             (* convert returned nil *)
| DestRead (src dst : string)            (* the destination was stat'ed *)
| Deleted (src dst : string).            (* the source was removed *)

(** The actions allowed in each phase; [None] for an action out of order. *)
Definition next (cfg : Config) (ph : Phase) (ev : Event) : option Phase :=
  match ph, ev with
  | Idle, EvStat p _ => Some (SourceRead p)
  | SourceRead src, EvLock => Some (Locked src)
  | Locked src, EvStart s d q =>
      if bool_decide (s = src) && bool_decide (q = Quality cfg)
      then Some (Running src d) else None
  | Running src dst, EvExit s d r =>
      if bool_decide (s = src) && bool_decide (d = dst)
      then Some (Exited src dst (enc_ok r)) else None
  | Exited src dst ok, EvUnlock => Some (if ok then Encoded src dst else Errored src)
  | Errored src, EvLogError name =>
      if bool_decide (name = Base src) then Some Idle else None
  | Encoded src dst, EvStat p _ =>
      if bool_decide (p = dst) then Some (DestRead src dst) else None
  | DestRead src dst, EvRemove p _ =>
      if Replace cfg && bool_decide (p = src) then Some (Deleted src dst) else None
  | DestRead src dst, EvPrint a b =>
      if negb (Replace cfg) && bool_decide (a = Base src) && bool_decide (b = Base dst)
      then Some Idle else None
  | Deleted src dst, EvPrint a b =>
      if bool_decide (a = Base src) && bool_decide (b = Base dst) then Some Idle else None
  | _, _ => None
  end.

Fixpoint follow (cfg : Config) (ph : Phase) (evs : list Event) : option Phase :=
  match evs with
  | [] => Some ph
  | ev :: rest => next cfg ph ev ≫= λ ph', follow cfg ph' rest
  end.

(** *** Lines of standard input *)

Fixpoint has_newline (s : string) : bool :=
  match s with
  | EmptyString => false
  | String c r => bool_decide (c = newline) || has_newline r
  end.

(** *** Names of directory entries *)

(** A name as [os.ReadDir] gives it: one path element. *)
Definition plain (n : string) : Prop :=
  has_sep n = false ∧ n ≠ "" ∧ n ≠ "." ∧ n ≠ "..".

(** No name of the listing holds a separator. *)
Definition base_names (entries : list DirEntry) : Prop :=
  Forall (λ e, has_sep (Name e) = false) entries.

(** *** Discovery, in the words of the specification *)


Fixpoint has_dot (s : string) : bool :=
  match s with
  | EmptyString => false
  | String c r => bool_decide (c = "."%char) || has_dot r
  end.

(** [x] is the extension of [name]: what follows the last dot of the name,
    no separator coming after that dot. *)
Definition extension_of (name x : string) : Prop :=
  ∃ stem, name = stem +:+ "." +:+ x ∧ has_dot x = false ∧ has_sep x = false.






(** *** Sample inputs *)

(** Tables for the samples, whose strings are ASCII and never reach them. *)
Definition no_tables : Unicode :=
  {| mapToLower := λ s, s; trimFunc := λ s, s; trimRightFunc := λ s, s |}.

(** An encoder that fails on a missing or empty source and otherwise leaves
    half the size of the source. *)
Definition halving : Encoder :=
  λ now fs src dst q,
    match fs !! src with
    | Some sz => if decide (sz = 0) then EncErr "empty input" None else EncOk (sz / 2)
    | None => EncErr "no such file" None
    end.

(** The same encoder with an [os.Remove] that succeeds, and with one that
    is refused. *)
Definition calm : Env := {| encoder := halving; remover := λ _ _ _, true |}.

Definition sticky : Env := {| encoder := halving; remover := λ _ _ _, false |}.

Definition pics : list DirEntry :=
  [mkEntry "a.png" false; mkEntry "b.JPG" false; mkEntry "notes.txt" false;
   mkEntry ".hidden.png" false; mkEntry "old.gif" true].

Definition pics_disk : gmap string Z :=
  list_to_map [("/pics/a.png", 2000000); ("/pics/b.JPG", 0); ("/pics/notes.txt", 12)].

Definition in_place : Config :=
  {| WorkDir := "/pics"; Quality := 80; Skip := true; Replace := true |}.

Definition beside : Config :=
  {| WorkDir := "/pics"; Quality := 80; Skip := false; Replace := false |}.

(** [run] sends and closes first, then the workers take turns. *)
Definition turns (k : nat) : list Tid :=
  [Main; Main; Main] ++ mjoin (replicate k [W 0; W 1]).

Definition pool_pics : Pool :=
  exec in_place calm (turns 30) (init 2 (buildJobs in_place pics) pics_disk).

Definition answer_no : string := String "n" (String newline EmptyString).

Definition host_pics : Host :=
  {| has_ffmpeg := true; dir_entries := Some pics; mkdir_ok := true;
     stdin := answer_no; NumCPU := 2; disk := pics_disk; ffmpeg := halving;
     os_remove := remover calm; schedule := turns 30 |}.

Definition host_notes : Host :=
  {| has_ffmpeg := true;
     dir_entries := Some [mkEntry "notes.txt" false; mkEntry "old.gif" true];
     mkdir_ok := true; stdin := answer_no; NumCPU := 2; disk := pics_disk;
     ffmpeg := halving;
     os_remove := remover calm; schedule := turns 30 |}.

(** Two images that differ in their extension only. *)
Definition twins : list DirEntry := [mkEntry "a.png" false; mkEntry "a.jpg" false].

Definition twins_disk : gmap string Z :=
  list_to_map [("/pics/a.png", 2000000); ("/pics/a.jpg", 1000000)].

Definition pool_twins (n : nat) : Pool :=
  exec in_place calm (turns 40) (init n (buildJobs in_place twins) twins_disk).

(** The run over [pics] that writes beside the sources. *)
Definition pool_beside : Pool :=
  exec beside calm (turns 30) (init 2 (buildJobs beside pics) pics_disk).

(** The in-place run over [pics] on a host that refuses [os.Remove]. *)
Definition pool_sticky : Pool :=
  exec in_place sticky (turns 30) (init 2 (buildJobs in_place pics) pics_disk).



(** *** The program with a results channel *)

Definition chan_holds (p : CR.PC) : bool :=
  match p with
  | CR.Start _ | CR.Run _ | CR.StatDest _ | CR.Unlock _ _ => true
  | _ => false
  end.

Definition chan_in_flight (p : CR.PC) : bool :=
  match p with CR.Run _ => true | _ => false end.

Definition chan_mutex_inv (s : CR.Pool) : Prop :=
  Z.b2z (CR.mutex s) = sumW (λ p, Z.b2z (chan_holds p)) (CR.workers s).

Definition jobOfResult (r : CR.ConversionResult) : CR.ImageJob :=
  {| CR.SourcePath := CR.rSourcePath r; CR.DestPath := CR.rDestPath r;
     CR.OrigSize := CR.rOrigSize r |}.

Definition chan_cur (p : CR.PC) : list CR.ImageJob :=
  match p with
  | CR.Recv | CR.Done => []
  | CR.Lock j | CR.Start j | CR.Run j | CR.StatDest j | CR.Unlock j _ => [j]
  | CR.Send r => [jobOfResult r]
  end.

(** No job is lost between the dispatch loop and the collector. *)
Definition chan_flow_inv (s : CR.Pool) : Prop :=
  CR.sent s ≡ₚ CR.queue s ++ (CR.workers s ≫= chan_cur)
                ++ (jobOfResult <$> CR.results s) ++ (jobOfResult <$> CR.collected s).

(** The counters are the fold of the results received, and at most one
    job was sent per image. *)
Definition chan_stats_inv (images : list string) (s : CR.Pool) : Prop :=
  CR.stats s = CR.summary images (CR.collected s)
  ∧ (length (CR.sent s) + length (CR.pending s) ≤ length images)%nat.

(** The channels are closed in order: [jobs] when the dispatch loop is
    over, [results] when every worker has returned. *)
Definition chan_ctrl_inv (n : nat) (s : CR.Pool) : Prop :=
  length (CR.workers s) = n
  ∧ (CR.closed s = true ↔ CR.mainpc s ≠ CR.Producing)
  ∧ (∀ p, p ∈ CR.workers s → p = CR.Done → CR.closed s = true ∧ CR.queue s = [])
  ∧ (CR.rclosed s = true → Forall (λ p, p = CR.Done) (CR.workers s))
  ∧ (CR.mainpc s = CR.Summarized → CR.rclosed s = true ∧ CR.results s = []).

(** A run of that program in which one image disappears between the scan and
    the dispatch. *)
Definition chan_turns (k : nat) : list CR.Tid :=
  [CR.Main; CR.Main; CR.Main] ++ mjoin (replicate k [CR.W 0; CR.W 1])
  ++ [CR.Closer; CR.Main; CR.Main; CR.Main].

Definition chan_pool : CR.Pool :=
  CR.exec 80 halving "/pics/compressed" 0 (chan_turns 12)
    (CR.init 2 ["/pics/a.png"; "/pics/gone.png"] twins_disk).

(** The host with another interleaving. *)
Definition with_schedule (h : Host) (sched : list Tid) : Host :=
  {| has_ffmpeg := has_ffmpeg h; dir_entries := dir_entries h; mkdir_ok := mkdir_ok h;
     stdin := stdin h; NumCPU := NumCPU h; disk := disk h; ffmpeg := ffmpeg h;
     os_remove := os_remove h; schedule := sched |}.

(** Both workers finish [convert] before either reads the destination. *)
Definition late_stat : list Tid :=
  [Main; Main; Main] ++ replicate 8 (W 0) ++ replicate 8 (W 1)
  ++ replicate 10 (W 0) ++ replicate 10 (W 1).

(** A system on which every path is absolute already and [/pics] is the
    only directory. *)
Definition dirs_pics : Dirs :=
  {| Abs := λ p, Some (FilePath.Clean p);
     isDir := λ p, bool_decide (p = "/pics");
     Getwd := Some "/home/u" |}.

End Measures.

(** * Properties *)

(** ** Machine integers *)

Lemma wrap64_small z : min_int64 ≤ z ≤ max_int64 → wrap64 z = z.
Proof.
  unfold wrap64, min_int64, max_int64. intros H.
  rewrite Z.mod_small; lia.
Qed.

Lemma add64_wrap a b : add64 (wrap64 a) b = wrap64 (a + b).
Proof.
  unfold add64, wrap64.
  replace ((a + 2 ^ 63) mod 2 ^ 64 - 2 ^ 63 + b + 2 ^ 63) with ((a + 2 ^ 63) mod 2 ^ 64 + b) by lia.
  rewrite Zplus_mod_idemp_l. do 2 f_equal. lia.
Qed.

Lemma wrap64_0 : wrap64 0 = 0.
Proof. reflexivity. Qed.

(** ** Strings and paths *)

Section Paths.
Import GoStrings FilePath AtomicStats.
Context {U : Unicode}.

Lemma append_cons (x : ascii) (a b : string) : String x a +:+ b = String x (a +:+ b).
Proof. reflexivity. Qed.

Lemma append_assoc_s (a b c : string) : (a +:+ b) +:+ c = a +:+ (b +:+ c).
Proof. induction a as [|x a IH]; [done|]. by rewrite !append_cons, IH. Qed.

Lemma append_inv_head (a b c : string) : a +:+ b = a +:+ c → b = c.
Proof.
  induction a as [|x a IH]; [done|]. rewrite !append_cons.
  intros H. injection H. exact IH.
Qed.

Lemma ext_scan_app x y e : ext_scan y = Found e → ext_scan (x +:+ y) = Found e.
Proof.
  intros H. induction x as [|c x IH]; [done|].
  rewrite append_cons. simpl. by rewrite IH.
Qed.

Lemma Ext_app x y e : ext_scan y = Found e → Ext (x +:+ y) = e.
Proof. intros H. unfold Ext. by rewrite (ext_scan_app _ _ _ H). Qed.

Lemma ext_scan_Found_dot s e : ext_scan s = Found e → ∃ r, e = String "." r.
Proof.
  induction s as [|c s IH]; simpl; [done|].
  destruct (ext_scan s) eqn:E.
  - intros [= <-]. by apply IH.
  - done.
  - case_decide as Hc; [subst; intros [= <-]; eauto|]. by destruct (is_sep c).
Qed.

Lemma Ext_nonempty_scan s : Ext s ≠ "" → ext_scan s = Found (Ext s).
Proof. unfold Ext. by destruct (ext_scan s). Qed.

(** [filepath.Ext] returns a suffix of its argument. *)
Lemma ext_scan_suffix s e : ext_scan s = Found e → ∃ p, s = p +:+ e.
Proof.
  revert e. induction s as [|c s IH]; simpl; intros e; [done|].
  destruct (ext_scan s) eqn:E.
  - intros [= <-]. destruct (IH _ eq_refl) as [p ->]. by exists (String c p).
  - done.
  - case_decide; [intros [= <-]; by exists ""|]. by destruct (is_sep c).
Qed.

(** On ASCII bytes [strings.ToLower] is the byte loop. *)
Lemma ToLower_ascii s : isASCII s = true → ToLower s = lower_bytes s.
Proof. unfold ToLower. by intros ->. Qed.

Lemma isImage_Ext name : isImage name = true → ext_scan name = Found (Ext name).
Proof.
  unfold isImage. intros H%bool_decide_eq_true.
  apply Ext_nonempty_scan. intros E. rewrite E in H. simpl in H.
  unfold imageExts in H.
  repeat (apply elem_of_cons in H as [H|H]; [discriminate|]). by apply elem_of_nil in H.
Qed.

Lemma has_sep_app a b : has_sep (a +:+ b) = has_sep a || has_sep b.
Proof.
  induction a as [|c a IH]; [done|]. rewrite append_cons. simpl.
  rewrite IH. by rewrite orb_assoc.
Qed.

Lemma elements_nonempty p : elements p ≠ [].
Proof.
  destruct p as [|c r]; [done|]. simpl. destruct (is_sep c); [done|].
  by destruct (elements r).
Qed.

Lemma elements_plain n : has_sep n = false → elements n = [n].
Proof.
  induction n as [|c r IH]; [done|]. simpl.
  intros [Hc Hr]%orb_false_iff. rewrite Hc, (IH Hr). done.
Qed.

Lemma elements_app_sep a b :
  elements (a +:+ String "/" b) = elements a ++ elements b.
Proof.
  induction a as [|c a IH].
  - done.
  - rewrite append_cons. simpl. rewrite IH.
    destruct (is_sep c); [done|].
    pose proof (elements_nonempty a). by destruct (elements a).
Qed.

Lemma join_sep_snoc es n :
  es ≠ [] → join_sep (es ++ [n]) = join_sep es +:+ String "/" n.
Proof.
  induction es as [|e es IH]; [done|]. intros _.
  destruct es as [|e' es'].
  - done.
  - change (join_sep ((e :: e' :: es') ++ [n]))
      with (e +:+ "/" +:+ join_sep ((e' :: es') ++ [n])).
    rewrite IH by done.
    change (join_sep (e :: e' :: es')) with (e +:+ "/" +:+ join_sep (e' :: es')).
    by rewrite !append_assoc_s.
Qed.

Lemma push_plain rooted st n : plain n → push rooted st n = st ++ [n].
Proof.
  intros (_ & H1 & H2 & H3). unfold push.
  by rewrite !bool_decide_eq_false_2.
Qed.

Lemma Clean_plain n : plain n → Clean n = n.
Proof.
  intros Hn. pose proof Hn as (Hs & H1 & _). destruct n as [|c r]; [done|].
  unfold Clean. rewrite (elements_plain _ Hs). cbn [foldl].
  rewrite push_plain by done. simpl in Hs. apply orb_false_iff in Hs as [-> _]. done.
Qed.

Lemma HasSuffix_snoc x : HasSuffix (x +:+ "/") "/" = true.
Proof.
  induction x as [|a x IH]; [done|].
  rewrite append_cons. cbn [HasSuffix]. rewrite IH. by destruct (decide _).
Qed.

(** Cleaning a path followed by a plain element: the element is appended
    to what the path cleans to. *)
Lemma Clean_snoc body :
  body ≠ "" →
  ∃ p, (p = "" ∨ HasSuffix p "/" = true)
       ∧ ∀ n, plain n → Clean (body +:+ String "/" n) = p +:+ n.
Proof.
  intros Hb. destruct body as [|c r]; [done|].
  set (rooted := is_sep c).
  set (st := foldl (push rooted) [] (elements (String c r))).
  assert (HC : ∀ n, plain n →
            Clean (String c r +:+ String "/" n)
            = if rooted then "/" +:+ join_sep (st ++ [n])
              else join_sep (st ++ [n])).
  { intros n Hn. rewrite append_cons. unfold Clean. fold rooted.
    rewrite <- append_cons, elements_app_sep, foldl_app.
    rewrite (elements_plain n) by apply Hn. cbn [foldl]. fold st.
    rewrite push_plain by done.
    destruct rooted; [done|]. by destruct st. }
  destruct st as [|e es] eqn:Hst.
  - exists (if rooted then "/" else ""). split.
    + destruct rooted; [by right|by left].
    + intros n Hn. rewrite (HC n Hn). by destruct rooted.
  - exists (((if rooted then "/" else "") +:+ join_sep (e :: es)) +:+ "/"). split.
    + right. apply HasSuffix_snoc.
    + intros n Hn. rewrite (HC n Hn), join_sep_snoc by done.
      destruct rooted; by rewrite ?append_assoc_s.
Qed.

Lemma Join_snoc pre :
  ∃ p, (p = "" ∨ HasSuffix p "/" = true)
       ∧ ∀ n, plain n → Join (pre ++ [n]) = p +:+ n.
Proof.
  induction pre as [|e pre IH].
  - exists "". split; [by left|]. intros n Hn. simpl.
    rewrite bool_decide_eq_false_2 by apply Hn. by apply Clean_plain.
  - destruct (decide (e = "")) as [->|He].
    + destruct IH as (p & Hp & IH). exists p. split; [done|].
      intros n Hn. simpl. by apply IH.
    + assert (Hne : join_sep (e :: pre) ≠ "").
      { destruct pre; simpl; [done|]. by destruct e. }
      destruct (Clean_snoc _ Hne) as (p & Hp & HC). exists p. split; [done|].
      intros n Hn. change ((e :: pre) ++ [n]) with (e :: (pre ++ [n])).
      cbn [Join]. rewrite bool_decide_eq_false_2 by done.
      change (e :: (pre ++ [n])) with ((e :: pre) ++ [n]).
      rewrite join_sep_snoc by done. by apply HC.
Qed.

Lemma Join_inj pre n1 n2 :
  plain n1 → plain n2 → Join (pre ++ [n1]) = Join (pre ++ [n2]) → n1 = n2.
Proof.
  intros H1 H2. destruct (Join_snoc pre) as (p & _ & Hp).
  rewrite (Hp _ H1), (Hp _ H2). apply append_inv_head.
Qed.

Lemma last_elem_plain n : has_sep n = false → last_elem n = n.
Proof.
  destruct n as [|c r]; [done|]. simpl.
  intros [Hc Hr]%orb_false_iff. by rewrite Hr, Hc.
Qed.

Lemma HasSuffix_sep p : HasSuffix p "/" = true → has_sep p = true.
Proof.
  induction p as [|c r IH]; [done|]. simpl. case_decide as E.
  - injection E as -> ->. done.
  - intros H. rewrite (IH H). apply orb_true_r.
Qed.

Lemma last_elem_dir p n :
  (p = "" ∨ HasSuffix p "/" = true) → has_sep n = false → last_elem (p +:+ n) = n.
Proof.
  intros Hp Hn. induction p as [|c r IH].
  - by apply last_elem_plain.
  - rewrite append_cons. simpl. rewrite has_sep_app, Hn, orb_false_r.
    destruct Hp as [|Hp]; [done|]. simpl in Hp. case_decide as E.
    + injection E as -> ->. simpl. done.
    + rewrite (HasSuffix_sep _ Hp). apply IH. by right.
Qed.

Lemma strip_seps_plain s : has_sep s = false → strip_seps s = s.
Proof.
  induction s as [|c r IH]; [done|]. simpl.
  intros [Hc Hr]%orb_false_iff. rewrite (IH Hr), Hc. by destruct r.
Qed.

Lemma strip_seps_dir p n :
  has_sep n = false → n ≠ "" → strip_seps (p +:+ n) = p +:+ n.
Proof.
  intros Hn Hne. induction p as [|c r IH].
  - by apply strip_seps_plain.
  - rewrite append_cons. simpl. rewrite IH.
    destruct (r +:+ n) eqn:E; [|done].
    destruct r; [by subst|done].
Qed.

(** [filepath.Base] gives back the last element of a joined path. *)
Lemma Base_Join pre n : plain n → Base (Join (pre ++ [n])) = n.
Proof.
  intros Hn. destruct (Join_snoc pre) as (p & Hp & HJ). rewrite (HJ n Hn).
  destruct Hn as (Hs & Hne & _). unfold Base.
  rewrite strip_seps_dir by done.
  destruct (p +:+ n) eqn:E.
  - destruct p; [by subst|done].
  - rewrite <- E. by apply last_elem_dir.
Qed.

Lemma Ext_Join pre n :
  plain n → ext_scan n = Found (Ext n) → Ext (Join (pre ++ [n])) = Ext n.
Proof.
  intros Hn He. destruct (Join_snoc pre) as (p & _ & HJ). rewrite (HJ n Hn).
  by apply Ext_app.
Qed.

Lemma isImage_not_dots name : isImage name = true → name ≠ "" ∧ name ≠ "." ∧ name ≠ "..".
Proof.
  intros H. repeat split; intros ->; vm_compute in H; discriminate.
Qed.

Lemma isImage_plain name : isImage name = true → has_sep name = false → plain name.
Proof. intros H Hs. pose proof (isImage_not_dots _ H). by split. Qed.

Lemma has_sep_substring s n : has_sep s = false → has_sep (String.substring 0 n s) = false.
Proof.
  revert n. induction s as [|c r IH]; intros [|n]; simpl; try done.
  intros [Hc Hr]%orb_false_iff. by rewrite Hc, IH.
Qed.

Lemma has_sep_TrimSuffix s suf : has_sep s = false → has_sep (TrimSuffix s suf) = false.
Proof.
  intros H. unfold TrimSuffix. destruct (HasSuffix s suf); [|done].
  by apply has_sep_substring.
Qed.

Lemma webpName_plain name : has_sep name = false → plain (webpName name).
Proof.
  intros H. unfold webpName. set (stem := TrimSuffix name (Ext name)).
  assert (Hs : has_sep stem = false) by (by apply has_sep_TrimSuffix).
  split; [by rewrite has_sep_app, Hs|].
  repeat split; destruct stem as [|a [|b [|c r]]]; try done;
    rewrite ?append_cons; try discriminate.
Qed.

Lemma Ext_source cfg name :
  isImage name = true → has_sep name = false → Ext (Source (jobOf cfg name)) = Ext name.
Proof.
  intros H Hs. simpl. apply (Ext_Join [WorkDir cfg]).
  - by apply isImage_plain.
  - by apply isImage_Ext.
Qed.

Lemma Ext_webp x : ext_scan (x +:+ ".webp") = Found ".webp".
Proof. by apply ext_scan_app. Qed.

Lemma Ext_dest cfg name : has_sep name = false → Ext (Dest (jobOf cfg name)) = ".webp".
Proof.
  intros Hs. simpl. unfold destPath.
  assert (Hp := webpName_plain name Hs).
  assert (He : Ext (webpName name) = ".webp") by (by apply Ext_app).
  assert (Hsc : ext_scan (webpName name) = Found (Ext (webpName name))).
  { rewrite He. apply Ext_webp. }
  rewrite <- He. destruct (Replace cfg).
  - by apply (Ext_Join [WorkDir cfg]).
  - by apply (Ext_Join [WorkDir cfg; outputDir]).
Qed.

Lemma source_not_dest cfg n1 n2 :
  isImage n1 = true → has_sep n1 = false → has_sep n2 = false →
  Source (jobOf cfg n1) ≠ Dest (jobOf cfg n2).
Proof.
  intros H1 Hs1 Hs2 E. assert (E' := f_equal Ext E).
  rewrite Ext_source, Ext_dest in E' by done.
  unfold isImage in H1. rewrite E' in H1. vm_compute in H1. discriminate.
Qed.

(** *** Extensions *)


Lemma ext_scan_Clear_inv x : ext_scan x = Clear → has_dot x = false ∧ has_sep x = false.
Proof.
  induction x as [|c r IH]; [done|]. simpl.
  destruct (ext_scan r); try done.
  case_decide as Hc; [done|]. destruct (is_sep c) eqn:Hs; [done|].
  intros _. destruct IH as [-> ->]; [done|].
  by rewrite bool_decide_eq_false_2.
Qed.

Lemma ext_scan_Found s e :
  ext_scan s = Found e →
  ∃ stem x, s = stem +:+ "." +:+ x ∧ e = String "." x
            ∧ has_dot x = false ∧ has_sep x = false.
Proof.
  revert e. induction s as [|c r IH]; simpl; intros e; [done|].
  destruct (ext_scan r) eqn:E.
  - intros [= <-]. destruct (IH _ eq_refl) as (stem & x & -> & -> & Hd & Hs).
    by exists (String c stem), x.
  - done.
  - case_decide as Hc; [|by destruct (is_sep c)].
    intros [= <-]. subst c. destruct (ext_scan_Clear_inv _ E) as [Hd Hs].
    by exists "", r.
Qed.


Lemma extension_Ext name x : Ext name = String "." x → extension_of name x.
Proof.
  intros E. assert (Hs : ext_scan name = Found (Ext name)).
  { apply Ext_nonempty_scan. by rewrite E. }
  destruct (ext_scan_Found _ _ Hs) as (stem & x' & Hn & He & Hd & Hsep).
  rewrite E in He. injection He as <-. by exists stem.
Qed.

(** *** Letters *)












(** *** The stem *)



Lemma length_append_s (a b : string) :
  String.length (a +:+ b) = (String.length a + String.length b)%nat.
Proof. induction a as [|c a IH]; [done|]. rewrite append_cons. simpl. by rewrite IH. Qed.



Lemma buildJobs_filter cfg entries :
  buildJobs cfg entries
  = (λ e, jobOf cfg (Name e)) <$> filter (λ e, eligible e = true) entries.
Proof.
  induction entries as [|e es IH]; [done|].
  simpl. destruct (eligible e) eqn:He.
  - rewrite filter_cons_True by done. rewrite fmap_cons, <- IH.
    unfold eligible in He. apply andb_true_iff in He as [[H1 H2]%andb_true_iff H3].
    apply negb_true_iff in H1, H2. by rewrite H1, H2, H3.
  - rewrite filter_cons_False by (by rewrite He). rewrite <- IH.
    unfold eligible in He.
    destruct (IsDir e); [done|]. destruct (HasPrefix (Name e) "."); [done|].
    simpl in He. by rewrite He.
Qed.


End Paths.

(** ** The worker pool *)

Section PoolFacts.
Import GoStrings FilePath AtomicStats.
Context {U : Unicode}.
Variable cfg : Config.
Variable env : Env.

Lemma sumW_insert {A} (f : A → Z) ws i w w' :
  ws !! i = Some w → sumW f (<[i := w']> ws) = sumW f ws + (f w' - f w).
Proof.
  revert i. induction ws as [|x ws IH]; intros [|i] H; simplify_eq/=.
  - lia.
  - rewrite (IH i H). lia.
Qed.

Lemma sumW_lookup_le {A} (f : A → Z) ws i w :
  (∀ x, 0 ≤ f x) → ws !! i = Some w → f w ≤ sumW f ws.
Proof.
  intros Hf. revert i. induction ws as [|x ws IH]; intros [|i] H; simplify_eq/=.
  - assert (0 ≤ sumW f ws); [|lia]. clear IH. induction ws as [|y ws IH]; simpl; [lia|]. specialize (Hf y). lia.
  - specialize (IH i H). specialize (Hf x). lia.
Qed.

Lemma sumW_replicate {A} (f : A → Z) n w : sumW f (replicate n w) = Z.of_nat n * f w.
Proof. induction n; simpl; lia. Qed.

Lemma exec_app sched1 sched2 s :
  exec cfg env (sched1 ++ sched2) s = exec cfg env sched2 (exec cfg env sched1 s).
Proof. apply foldl_app. Qed.

Lemma exec_ind (P : Pool → Prop) s0 :
  P s0 →
  (∀ s t s', P s → step cfg env t s = Some s' → P s') →
  ∀ sched, P (exec cfg env sched s0).
Proof.
  intros H0 Hstep sched. revert s0 H0.
  induction sched as [|t sched IH]; intros s0 H0; [done|].
  simpl. apply IH. unfold tick.
  destruct (step cfg env t s0) eqn:E; simpl; eauto.
Qed.

Lemma step_W_inv i s s' :
  step cfg env (W i) s = Some s' →
  ∃ w w' e, workers s !! i = Some w ∧ action cfg env s w = Some (w', e)
            ∧ s' = commit s i w' e.
Proof.
  unfold step. intros H.
  destruct (workers s !! i) as [w|] eqn:Hw; simplify_eq/=.
  destruct (action cfg env s w) as [[w' e]|] eqn:Ha; simplify_eq/=.
  eauto 10.
Qed.

Lemma step_Main_inv s s' :
  step cfg env Main s = Some s' →
  (∃ j rest, pending s = j :: rest ∧
     s' = mkPool rest (closed s) (queue s ++ [j]) (mutex s) (stats s) (files s) (trace s) (workers s))
  ∨ (pending s = [] ∧ closed s = false ∧
     s' = mkPool [] true (queue s) (mutex s) (stats s) (files s) (trace s) (workers s)).
Proof.
  unfold step, produce. intros H.
  destruct (pending s) as [|j rest] eqn:Hp.
  - destruct (closed s) eqn:Hc; simplify_eq. right. done.
  - simplify_eq. left. eauto.
Qed.

(** Case analysis of one action. *)
Ltac step_cases H :=
  match type of H with
  | step _ _ ?t _ = Some _ =>
      destruct t as [|?i];
      [ apply step_Main_inv in H as [(?j & ?rest & ?Hp & ->)|(?Hp & ?Hc & ->)]
      | apply step_W_inv in H as (?w & ?w' & ?e & ?Hw & ?Ha & ->);
        unfold action in Ha;
        destruct (pc w) eqn:?Hpc; repeat case_match; simplify_eq ]
  end.

Lemma Zle_0_b2z_holds (x : Worker) : 0 ≤ Z.b2z (holds (pc x)).
Proof. destruct (holds (pc x)); simpl; lia. Qed.

Lemma mutex_inv_init n jobs fs : mutex_inv (init n jobs fs).
Proof. unfold mutex_inv. simpl. rewrite sumW_replicate. simpl. lia. Qed.

Lemma mutex_inv_step s t s' :
  mutex_inv s → step cfg env t s = Some s' → mutex_inv s'.
Proof.
  unfold mutex_inv. intros I H.
  step_cases H; simpl; try done;
    rewrite (sumW_insert _ _ _ _ _ Hw), Hpc; simpl;
    try match goal with H : mutex _ = _ |- _ => rewrite H in * end;
    try (unfold afterConvert; repeat case_match; simpl); simpl in *; try lia.
  all: assert (Hle := sumW_lookup_le (λ w, Z.b2z (holds (pc w))) _ _ _
                        Zle_0_b2z_holds Hw);
    simpl in Hle; rewrite Hpc in Hle; simpl in Hle;
    destruct (mutex s); simpl in *; lia.
Qed.

Lemma mutex_inv_reachable n jobs fs sched :
  mutex_inv (exec cfg env sched (init n jobs fs)).
Proof. apply exec_ind; [apply mutex_inv_init | apply mutex_inv_step]. Qed.

Lemma holds_exclusive s i j wi wj :
  mutex_inv s →
  workers s !! i = Some wi → workers s !! j = Some wj →
  holds (pc wi) = true → holds (pc wj) = true → i = j.
Proof.
  unfold mutex_inv. intros I Hi Hj Hhi Hhj.
  destruct (decide (i = j)) as [|Hne]; [done|exfalso].
  pose (f := λ w : Worker, Z.b2z (holds (pc w))).
  assert (Hs := sumW_insert f (workers s) i wi idle Hi).
  assert (Hj' : <[i := idle]> (workers s) !! j = Some wj)
    by (by rewrite list_lookup_insert_ne).
  assert (Hle := sumW_lookup_le f _ _ _ Zle_0_b2z_holds Hj').
  unfold f in *. simpl in *. rewrite Hhi, Hhj in *. simpl in *.
  destruct (mutex s); simpl in *; lia.
Qed.



Lemma n_ok_snoc os o : n_ok (os ++ [o]) = n_ok os + Z.b2z (Success o).
Proof.
  unfold n_ok. rewrite filter_app, length_app, filter_cons, filter_nil.
  destruct (decide (Success o = true)) as [E|E]; [rewrite E|apply not_true_is_false in E; rewrite E];
    simpl; lia.
Qed.

Lemma n_err_snoc os o : n_err (os ++ [o]) = n_err os + Z.b2z (negb (Success o)).
Proof.
  unfold n_err. rewrite filter_app, length_app, filter_cons, filter_nil.
  destruct (decide (Success o = false)) as [E|E]; [rewrite E|apply not_false_is_true in E; rewrite E];
    simpl; lia.
Qed.

Lemma sum_orig_app os1 os2 : sum_orig (os1 ++ os2) = sum_orig os1 + sum_orig os2.
Proof. induction os1; simpl; lia. Qed.

Lemma sum_new_app os1 os2 : sum_new (os1 ++ os2) = sum_new os1 + sum_new os2.
Proof. induction os1; simpl; lia. Qed.

Lemma stats_inv_init n jobs fs : stats_inv (init n jobs fs).
Proof. unfold stats_inv. simpl. rewrite !sumW_replicate. simpl. rewrite !Z.mul_0_r. rewrite wrap64_0. done. Qed.

Lemma stats_inv_step s t s' :
  stats_inv s → step cfg env t s = Some s' → stats_inv s'.
Proof.
  unfold stats_inv. intros (IT & IC & IF & IB & IA) H.
  step_cases H; simpl; try done;
    rewrite !(sumW_insert _ _ _ _ _ Hw), Hpc; simpl;
    rewrite ?IT, ?IC, ?IF, ?IB, ?IA, ?add64_wrap;
    rewrite ?n_ok_snoc, ?n_err_snoc, ?sum_orig_app, ?sum_new_app, ?length_app;
    unfold afterConvert, Success; simpl;
    repeat case_match; simpl;
    repeat split; f_equal; lia.
Qed.


Lemma bind_insert_perm {A} (f : Worker → list A) ws i w w' l :
  ws !! i = Some w → f w' ≡ₚ l ++ f w →
  (<[i := w']> ws ≫= f) ≡ₚ l ++ (ws ≫= f).
Proof.
  revert i. induction ws as [|x ws IH]; intros [|i] H Hf; simplify_eq/=.
  - rewrite Hf. by rewrite (assoc_L (++)).
  - rewrite (IH i H Hf). rewrite !(assoc_L (++)). f_equiv. apply Permutation_app_comm.
Qed.

Lemma claimed_replicate n : replicate n idle ≫= claimed = [].
Proof. induction n; [done|]. by rewrite replicate_S, bind_cons, IHn. Qed.

Lemma cons_inv_init n jobs fs : cons_inv jobs (init n jobs fs).
Proof.
  unfold cons_inv, init. cbn [pending queue workers].
  by rewrite claimed_replicate, !app_nil_r.
Qed.

Lemma cons_inv_step jobs s t s' :
  cons_inv jobs s → step cfg env t s = Some s' → cons_inv jobs s'.
Proof.
  unfold cons_inv. intros I H.
  step_cases H; simpl;
    [ rewrite <- I, Hp; simpl; rewrite <- !(assoc_L (++)); simpl;
      by rewrite <- !Permutation_middle
    | by rewrite <- I, Hp
    | .. ].
  all: try match goal with Hq : queue _ = [] |- _ => rewrite Hq end.
  all: try (match goal with
            | Hq : queue _ = ?j :: _ |- _ =>
                rewrite (bind_insert_perm claimed _ _ w _ [j]);
                [ rewrite <- I; simpl; by rewrite <- !Permutation_middle
                | done
                | unfold claimed; simpl; by rewrite Hpc ]
            end).
  all: rewrite (bind_insert_perm claimed _ _ w _ []); [done|done|];
    unfold claimed; simpl; rewrite Hpc; simpl;
    unfold afterConvert; repeat case_match; simpl; try done;
    rewrite fmap_app; simpl; by rewrite <- Permutation_middle, app_nil_r.
Qed.

Lemma chan_inv_init n jobs fs : chan_inv n (init n jobs fs).
Proof.
  unfold chan_inv. simpl. split; [by rewrite length_replicate|]. split; [done|].
  intros w Hw%elem_of_replicate. destruct Hw as [-> _]. done.
Qed.

Lemma elem_of_insert_inv {A} (l : list A) i x y :
  y ∈ <[i := x]> l → y = x ∨ y ∈ l.
Proof.
  revert i. induction l as [|z l IH]; intros [|i]; simpl; intros H.
  - by right.
  - by right.
  - apply elem_of_cons in H as [->|H]; [by left|]. right. by apply elem_of_cons; right.
  - apply elem_of_cons in H as [->|H]; [right; by apply elem_of_cons; left|].
    destruct (IH _ H) as [->|?]; [by left|]. right. by apply elem_of_cons; right.
Qed.

Lemma chan_inv_step n s t s' :
  chan_inv n s → step cfg env t s = Some s' → chan_inv n s'.
Proof.
  unfold chan_inv. intros (IL & IC & ID) H.
  step_cases H; simpl; rewrite ?length_insert.
  all: (split; [done|]).
  1: { split; [intros Hc; specialize (IC Hc); congruence|].
       intros x Hx Hd. destruct (ID x Hx Hd) as [Hc _]. specialize (IC Hc). congruence. }
  1: { split; [done|]. intros x Hx Hd. destruct (ID x Hx Hd) as [? _]. congruence. }
  all: split; [by auto|]; intros x Hx Hd;
    apply elem_of_insert_inv in Hx as [->|Hx];
    [ simpl in Hd; unfold afterConvert in Hd; repeat case_match;
      try discriminate; by auto
    | destruct (ID x Hx Hd) as [? ?]; try discriminate; by auto ].
Qed.


Lemma proj_app i tr1 tr2 : proj i (tr1 ++ tr2) = proj i tr1 ++ proj i tr2.
Proof. unfold proj. by rewrite filter_app, fmap_app. Qed.

Lemma proj_tag_same i (evs : list Event) :
  proj i ((λ ev, (i, ev)) <$> evs) = evs.
Proof.
  unfold proj. induction evs as [|ev evs IH]; [done|].
  rewrite fmap_cons, filter_cons_True by done. rewrite fmap_cons. by f_equal.
Qed.

Lemma proj_tag_other i k (evs : list Event) :
  k ≠ i → proj k ((λ ev, (i, ev)) <$> evs) = [].
Proof.
  intros Hne. unfold proj. induction evs as [|ev evs IH]; [done|].
  rewrite fmap_cons, filter_cons_False; [done|]. simpl. congruence.
Qed.

Lemma trace_inv_init n jobs fs : trace_inv cfg (init n jobs fs).
Proof.
  intros k w Hk. simpl in *. apply lookup_replicate in Hk as [-> _]. done.
Qed.

Lemma proj_commit k s i w e :
  proj k (trace (commit s i w e))
  = proj k (trace s) ++ (if decide (k = i) then e_events e else []).
Proof.
  unfold commit. cbn [trace]. rewrite proj_app. f_equal.
  case_decide as Hk; [subst; apply proj_tag_same | by apply proj_tag_other].
Qed.

Lemma trace_inv_step s t s' :
  trace_inv cfg s → step cfg env t s = Some s' → trace_inv cfg s'.
Proof.
  unfold trace_inv. intros I H.
  step_cases H; [done|done|..].
  all: intros k x Hk; rewrite proj_commit; cbn [commit workers] in Hk;
    destruct (decide (k = i)) as [->|Hne];
    [ rewrite list_lookup_insert_eq in Hk by (by eapply lookup_lt_Some);
      simplify_eq; rewrite (I _ _ Hw), Hpc; simpl;
      unfold afterConvert, block, convert_events;
      repeat case_match; simplify_eq/=;
      rewrite ?bind_app, ?app_nil_r, <- ?(assoc_L (++)); simpl;
      rewrite ?app_nil_r;
      try match goal with Hr : Replace _ = _ |- _ => rewrite Hr end; try done
    | rewrite list_lookup_insert_ne in Hk by done;
      rewrite app_nil_r; by apply I ].
Qed.


Lemma sumW_nonneg {A} (f : A → Z) ws : (∀ x, 0 ≤ f x) → 0 ≤ sumW f ws.
Proof. intros Hf. induction ws as [|y ws IH]; simpl; [lia|]. specialize (Hf y). lia. Qed.

Lemma fuel_nonneg s : 0 ≤ fuel s.
Proof.
  unfold fuel.
  assert (0 ≤ sumW (λ w, Z.of_nat (rem (pc w))) (workers s)) by (apply sumW_nonneg; intros; lia).
  destruct (closed s); lia.
Qed.

Lemma fuel_step s t s' : step cfg env t s = Some s' → fuel s' < fuel s.
Proof.
  intros H.
  step_cases H; unfold fuel; simpl;
    rewrite ?Hp, ?Hc, ?length_app; simpl; try lia;
    rewrite (sumW_insert _ _ _ _ _ Hw), Hpc; simpl;
    try match goal with Hq : queue _ = _ |- _ => rewrite ?Hq end;
    destruct (closed s); simplify_eq/=;
    unfold afterConvert; try case_match; simpl; lia.
Qed.

Lemma sumW_zero {A} (f : A → Z) ws : Forall (λ w, f w = 0) ws → sumW f ws = 0.
Proof. induction 1 as [|x ws Hx _ IH]; simpl; lia. Qed.

Lemma elem_of_threads_W i n : (i < n)%nat → W i ∈ threads n.
Proof.
  intros Hi. unfold threads. apply elem_of_cons. right.
  apply list_elem_of_fmap. exists i. split; [done|]. apply elem_of_seq. lia.
Qed.

Lemma progress s :
  mutex_inv s → joined s = false →
  ∃ t, t ∈ threads (length (workers s)) ∧ is_Some (step cfg env t s).
Proof.
  intros I Hj. unfold joined in Hj.
  destruct (closed s) eqn:Hc; simpl in Hj.
  2: { exists Main. split; [apply elem_of_cons; by left|].
       unfold step, produce. rewrite Hc. destruct (pending s); eauto. }
  destruct (decide (Exists (λ w, blocked (pc w) = false) (workers s))) as [He|Hne].
  - apply Exists_exists in He as (w & Hin & Hb).
    apply list_elem_of_lookup in Hin as [i Hi].
    exists (W i). split; [apply elem_of_threads_W; by eapply lookup_lt_Some|].
    unfold step. rewrite Hi. simpl. unfold action.
    destruct (pc w); simpl in Hb; try discriminate; simpl; eauto.
    all: try (destruct (Replace cfg); by eauto).
    rewrite Hc. destruct (queue s); simpl; eauto.
  - apply not_Exists_Forall in Hne; [|apply _].
    assert (Hall : Forall (λ w, blocked (pc w) = true) (workers s)).
    { eapply Forall_impl; [exact Hne|]. simpl. intros x Hx. by destruct (blocked (pc x)). }
    assert (Hm : mutex s = false).
    { unfold mutex_inv in I. rewrite sumW_zero in I.
      - by destruct (mutex s).
      - eapply Forall_impl; [exact Hall|]. simpl. intros x Hx. by destruct (pc x). }
    assert (Hex : Exists (λ w, is_done w = false) (workers s)).
    { destruct (decide (Exists (λ w, is_done w = false) (workers s))) as [|HnE]; [done|exfalso].
      apply not_Exists_Forall in HnE; [|apply _].
      assert (forallb is_done (workers s) = true); [|congruence].
      apply forallb_forall. intros x Hx%list_elem_of_In.
      rewrite Forall_forall in HnE. specialize (HnE x Hx). simpl in HnE.
      by destruct (is_done x). }
    apply Exists_exists in Hex as (w & Hin & Hd).
    rewrite Forall_forall in Hall. specialize (Hall w Hin).
    apply list_elem_of_lookup in Hin as [i Hi].
    exists (W i). split; [apply elem_of_threads_W; by eapply lookup_lt_Some|].
    unfold step. rewrite Hi. simpl. unfold action, is_done in *.
    destruct (pc w); simpl in *; try discriminate. rewrite Hm. simpl. eauto.
Qed.

Lemma pick_Some s t : pick cfg env s = Some t → is_Some (step cfg env t s).
Proof.
  unfold pick. intros H.
  destruct (list_find _ _) as [[k x]|] eqn:E; [|done].
  simpl in H. injection H as ->.
  by apply list_find_Some in E as (_ & ? & _).
Qed.

Lemma pick_None s : mutex_inv s → pick cfg env s = None → joined s = true.
Proof.
  intros I H. destruct (joined s) eqn:Hj; [done|exfalso].
  destruct (progress s I Hj) as (t & Hin & Hs).
  unfold pick in H.
  destruct (list_find _ _) as [[k x]|] eqn:E; [done|].
  apply list_find_None in E. rewrite Forall_forall in E. by apply (E t).
Qed.

Lemma greedy_joined k s :
  mutex_inv s → fuel s ≤ Z.of_nat k →
  joined (exec cfg env (greedy cfg env k s) s) = true.
Proof.
  revert s. induction k as [|k IH]; intros s I Hf; simpl.
  - destruct (joined s) eqn:Hj; [done|exfalso].
    destruct (progress s I Hj) as (t & _ & [s' Hs]).
    pose proof (fuel_step _ _ _ Hs). pose proof (fuel_nonneg s'). lia.
  - destruct (pick cfg env s) as [t|] eqn:Hp; simpl.
    + destruct (pick_Some _ _ Hp) as [s' Hs].
      unfold tick at 2. unfold tick at 1. rewrite Hs. simpl. apply IH.
      * by eapply mutex_inv_step.
      * pose proof (fuel_step _ _ _ Hs). lia.
    + by apply pick_None.
Qed.

(** The pool after the barrier *)
Lemma joined_done s :
  joined s = true → closed s = true ∧ Forall (λ w, pc w = Done) (workers s).
Proof.
  unfold joined. intros [Hc Hd]%andb_true_iff. split; [done|].
  apply Forall_forall. intros w Hw%list_elem_of_In.
  rewrite forallb_forall in Hd. specialize (Hd w Hw). unfold is_done in Hd.
  by destruct (pc w).
Qed.

Lemma done_claimed ws :
  Forall (λ w, pc w = Done) ws → ws ≫= claimed = oJob <$> (ws ≫= outcomes).
Proof.
  induction 1 as [|w ws Hw _ IH]; [done|].
  rewrite !bind_cons, fmap_app, IH. unfold claimed. by rewrite Hw.
Qed.

Lemma joined_jobs n jobs s :
  (0 < n)%nat → chan_inv n s → cons_inv jobs s → joined s = true →
  oJob <$> all_outcomes s ≡ₚ jobs.
Proof.
  intros Hn (HL & HC & HD) I [Hc Hd]%joined_done.
  unfold cons_inv in I. rewrite (HC Hc) in I. simpl in I.
  destruct (workers s) as [|w ws] eqn:Hws; [simpl in HL; lia|].
  assert (Hq : queue s = []).
  { apply (HD w); [by left|]. by inversion Hd. }
  rewrite Hq in I. simpl in I. unfold all_outcomes. rewrite Hws.
  by rewrite <- (done_claimed _ Hd).
Qed.

Lemma done_sums ws :
  Forall (λ w, pc w = Done) ws →
  sumW (λ w, counted (pc w) + Z.of_nat (length (outcomes w))) ws
    = Z.of_nat (length (ws ≫= outcomes))
  ∧ sumW (λ w, n_ok (outcomes w)) ws = n_ok (ws ≫= outcomes)
  ∧ sumW (λ w, n_err (outcomes w)) ws = n_err (ws ≫= outcomes)
  ∧ sumW (λ w, bef (pc w) + sum_orig (outcomes w)) ws = sum_orig (ws ≫= outcomes)
  ∧ sumW (λ w, aft (pc w) + sum_new (outcomes w)) ws = sum_new (ws ≫= outcomes).
Proof.
  induction 1 as [|w ws Hw _ (I1 & I2 & I3 & I4 & I5)]; [done|].
  rewrite !bind_cons. simpl. rewrite I1, I2, I3, I4, I5, Hw. simpl.
  rewrite length_app, sum_orig_app, sum_new_app.
  unfold n_ok, n_err. rewrite !filter_app, !length_app.
  repeat split; lia.
Qed.

Lemma joined_stats s :
  stats_inv s → joined s = true → stats s = stats_of (all_outcomes s).
Proof.
  intros (IT & IC & IF & IB & IA) [_ Hd]%joined_done.
  destruct (done_sums _ Hd) as (E1 & E2 & E3 & E4 & E5).
  rewrite E1 in IT. rewrite E2 in IC. rewrite E3 in IF. rewrite E4 in IB. rewrite E5 in IA.
  unfold stats_of, all_outcomes. destruct (stats s); simpl in *. by subst.
Qed.

Lemma n_ok_err os : n_ok os + n_err os = Z.of_nat (length os).
Proof.
  unfold n_ok, n_err. induction os as [|o os IH]; [done|].
  rewrite !filter_cons. simpl.
  destruct (Success o); repeat case_decide; simpl; try done; lia.
Qed.


Lemma events_commit s i w e :
  events (commit s i w e) = events s ++ e_events e.
Proof.
  unfold events, commit. cbn [trace]. rewrite fmap_app. f_equal.
  rewrite <- list_fmap_compose. simpl. apply list_fmap_id.
Qed.

Lemma removed_commit s i w e p :
  removed (commit s i w e) p = removed s p || existsb (is_remove_of p) (e_events e).
Proof. unfold removed. by rewrite events_commit, existsb_app. Qed.

Lemma removed_spec s p : removed s p = true ↔ EvRemove p true ∈ events s.
Proof.
  unfold removed. rewrite existsb_exists. split.
  - intros (ev & Hin%list_elem_of_In & Hr). destruct ev; simpl in Hr; try discriminate.
    apply andb_true_iff in Hr as [-> Hr]. apply bool_decide_eq_true in Hr. by subst.
  - intros Hin. exists (EvRemove p true). split; [by apply list_elem_of_In|].
    simpl. by apply bool_decide_eq_true.
Qed.

Lemma cur_in_jobs jobs s i w j :
  cons_inv jobs s → workers s !! i = Some w → j ∈ cur_job (pc w) → j ∈ jobs.
Proof.
  unfold cons_inv. intros I Hw Hj. rewrite <- I.
  apply elem_of_app. right. apply elem_of_app. right.
  apply list_elem_of_bind. exists w. split; [|by eapply list_elem_of_lookup_2].
  unfold claimed. apply elem_of_app. by left.
Qed.

Lemma fs_inv_init n jobs fs : fs_inv jobs fs (init n jobs fs).
Proof. by intros p Hp. Qed.

Lemma fs_inv_step jobs fs0 s t s' :
  cons_inv jobs s → fs_inv jobs fs0 s → step cfg env t s = Some s' → fs_inv jobs fs0 s'.
Proof.
  intros IC I H.
  step_cases H; [done|done|..].
  all: intros q Hq; specialize (I q Hq); rewrite removed_commit; simpl;
    rewrite ?orb_false_r; try done.
  - (* Run: ffmpeg writes the destination *)
    assert (Hin : j ∈ jobs) by (eapply cur_in_jobs; [done..|rewrite Hpc; by left]).
    assert (q ≠ Dest j).
    { intros ->. apply Hq. by apply list_elem_of_fmap_2. }
    unfold apply_enc. destruct (written _); [|done]. by rewrite lookup_insert_ne.
  - (* RemoveSource, in-place mode *)
    case_bool_decide as Hsrc.
    + subst. rewrite orb_true_r. apply lookup_delete_eq.
    + rewrite orb_false_r. by rewrite lookup_delete_ne.
Qed.

Lemma tags_inv_init n jobs fs : tags_inv (init n jobs fs).
Proof. intros i ev Hin. simpl in Hin. by apply elem_of_nil in Hin. Qed.

Lemma tags_inv_step s t s' :
  tags_inv s → step cfg env t s = Some s' → tags_inv s'.
Proof.
  intros I H.
  step_cases H; [done|done|..].
  all: intros k ev Hin; unfold commit in *; cbn [trace workers] in *;
    apply lookup_lt_is_Some; rewrite length_insert;
    apply elem_of_app in Hin as [Hin|Hin];
    [ apply lookup_lt_is_Some; by eapply I
    | apply list_elem_of_fmap in Hin as (? & ? & _); simplify_eq;
      by eapply lookup_lt_Some ].
Qed.

Lemma elem_of_proj i ev tr : ev ∈ proj i tr ↔ (i, ev) ∈ tr.
Proof.
  unfold proj. rewrite list_elem_of_fmap. split.
  - intros ([k e] & -> & Hin). apply list_elem_of_filter in Hin as [Hk Hin].
    simpl in *. by subst.
  - intros Hin. exists (i, ev). split; [done|]. by apply list_elem_of_filter.
Qed.

Lemma joined_events s ev :
  tags_inv s → trace_inv cfg s → joined s = true →
  ev ∈ events s ↔ ∃ o, o ∈ all_outcomes s ∧ ev ∈ block cfg o.
Proof.
  intros IT I [_ Hd]%joined_done. rewrite Forall_forall in Hd. split.
  - intros Hin. apply list_elem_of_fmap in Hin as ([i e] & -> & Hin). simpl.
    destruct (IT _ _ Hin) as [w Hw].
    apply elem_of_proj in Hin. rewrite (I _ _ Hw) in Hin.
    rewrite (Hd w) in Hin by (by eapply list_elem_of_lookup_2).
    simpl in Hin. rewrite app_nil_r in Hin.
    apply list_elem_of_bind in Hin as (o & He & Ho).
    exists o. split; [|done]. apply list_elem_of_bind. exists w.
    split; [done|]. by eapply list_elem_of_lookup_2.
  - intros (o & Ho & He). apply list_elem_of_bind in Ho as (w & Ho & Hw).
    apply list_elem_of_lookup in Hw as [i Hw].
    apply list_elem_of_fmap. exists (i, ev). split; [done|].
    apply elem_of_proj. rewrite (I _ _ Hw). apply elem_of_app. left.
    apply list_elem_of_bind. eauto.
Qed.


Lemma follow_app ph evs1 evs2 :
  follow cfg ph (evs1 ++ evs2) = follow cfg ph evs1 ≫= λ ph', follow cfg ph' evs2.
Proof.
  revert ph. induction evs1 as [|ev evs1 IH]; intros ph; simpl; [done|].
  destruct (next cfg ph ev); simpl; [apply IH|done].
Qed.

Ltac follow_steps :=
  repeat progress
    (simpl;
     try match goal with HR : Replace _ = _ |- _ => rewrite HR end;
     rewrite ?bool_decide_eq_true_2 by done).

Lemma follow_block o : follow cfg Idle (block cfg o) = Some Idle.
Proof.
  unfold block, convert_events. destruct o as [j b r a d].
  destruct r; destruct (Replace cfg) eqn:HR; by follow_steps.
Qed.

Lemma follow_blocks os : follow cfg Idle (os ≫= block cfg) = Some Idle.
Proof.
  induction os as [|o os IH]; [done|].
  rewrite bind_cons, follow_app, follow_block. simpl. exact IH.
Qed.

Lemma follow_prefix p : is_Some (follow cfg Idle (prefix cfg p)).
Proof.
  destruct p; unfold prefix, block, convert_events;
    destruct (Replace cfg) eqn:HR; follow_steps; eauto.
Qed.

Lemma replay_app fs evs1 evs2 :
  replay fs (evs1 ++ evs2) = replay (replay fs evs1) evs2.
Proof. apply foldl_app. Qed.

Lemma replay_step s t s' :
  step cfg env t s = Some s' →
  ∀ fs0, files s = replay fs0 (events s) → files s' = replay fs0 (events s').
Proof.
  intros H fs0 I.
  step_cases H; [done|done|..].
  all: by rewrite events_commit, replay_app, <- I.
Qed.

Lemma pool_inv_reachable n jobs fs sched :
  pool_inv cfg n jobs fs (exec cfg env sched (init n jobs fs)).
Proof.
  apply exec_ind.
  - refine (conj _ (conj _ (conj _ (conj _ (conj _ (conj _ (conj _ _))))))).
    + apply mutex_inv_init.
    + apply stats_inv_init.
    + apply cons_inv_init.
    + apply chan_inv_init.
    + apply trace_inv_init.
    + apply tags_inv_init.
    + apply fs_inv_init.
    + done.
  - intros s t s' (I1 & I2 & I3 & I4 & I5 & I6 & I7 & I8) H.
    refine (conj _ (conj _ (conj _ (conj _ (conj _ (conj _ (conj _ _))))))).
    + by eapply mutex_inv_step.
    + by eapply stats_inv_step.
    + by eapply cons_inv_step.
    + by eapply chan_inv_step.
    + by eapply trace_inv_step.
    + by eapply tags_inv_step.
    + by eapply fs_inv_step.
    + by eapply replay_step.
Qed.

(** From every state the pool can run to the barrier: there is no
    deadlock and no endless run. *)
Lemma pool_completes n jobs fs sched :
  ∃ more, joined (exec cfg env (sched ++ more) (init n jobs fs)) = true.
Proof.
  set (s := exec cfg env sched (init n jobs fs)).
  exists (greedy cfg env (Z.to_nat (fuel s)) s).
  rewrite exec_app. apply greedy_joined.
  - apply mutex_inv_reachable.
  - pose proof (fuel_nonneg s). fold s. lia.
Qed.

(** Once [wg.Wait()] can return, nothing moves any more. *)
Lemma joined_stable n s t :
  chan_inv n s → joined s = true → step cfg env t s = None.
Proof.
  intros (_ & HC & _) Hj. destruct (joined_done _ Hj) as [Hc Hd].
  destruct t as [|i]; simpl.
  - unfold produce. by rewrite (HC Hc), Hc.
  - destruct (workers s !! i) as [w|] eqn:Hw; [|done]. simpl.
    rewrite Forall_forall in Hd. unfold action.
    rewrite (Hd w) by (by eapply list_elem_of_lookup_2). done.
Qed.

(** After the barrier every job has exactly one outcome and the counters
    are the sums over the outcomes. *)
Lemma joined_summary n jobs fs sched :
  (0 < n)%nat →
  joined (exec cfg env sched (init n jobs fs)) = true →
  oJob <$> all_outcomes (exec cfg env sched (init n jobs fs)) ≡ₚ jobs
  ∧ stats (exec cfg env sched (init n jobs fs))
    = stats_of (all_outcomes (exec cfg env sched (init n jobs fs))).
Proof.
  intros Hn Hj.
  destruct (pool_inv_reachable n jobs fs sched) as (_ & I2 & I3 & I4 & _).
  split; [by eapply joined_jobs|by apply joined_stats].
Qed.

Lemma n_ok_bounds os : 0 ≤ n_ok os ≤ Z.of_nat (length os).
Proof. pose proof (n_ok_err os). unfold n_ok, n_err in *. lia. Qed.

Lemma n_err_bounds os : 0 ≤ n_err os ≤ Z.of_nat (length os).
Proof. pose proof (n_ok_err os). unfold n_ok, n_err in *. lia. Qed.

Lemma elem_of_block_remove o p ok :
  EvRemove p ok ∈ block cfg o
  ↔ Replace cfg = true ∧ Success o = true ∧ p = Source (oJob o) ∧ ok = Removed o.
Proof.
  unfold block, convert_events, Success. destruct o as [j b r a d]; simpl.
  destruct r as [sz|msg part]; destruct (Replace cfg); simpl; split.
  all: try (intros (? & ? & ? & ?); try discriminate).
  all: try (intros H; repeat (apply elem_of_cons in H as [H|H]; [try discriminate|]);
            try (by apply elem_of_nil in H)).
  - by injection H as -> ->.
  - subst. do 6 (apply elem_of_cons; right). apply elem_of_cons. by left.
Qed.


Lemma elem_of_block_logerror o :
  Success o = false → EvLogError (Base (Source (oJob o))) ∈ block cfg o.
Proof.
  unfold block, convert_events, Success. destruct o as [j b r a d]; simpl.
  destruct r; [done|]. intros _. simpl.
  do 5 (apply elem_of_cons; right). apply elem_of_cons. by left.
Qed.

Lemma NoDup_fmap_eq {A B} (f : A → B) (l : list A) x y :
  NoDup (f <$> l) → x ∈ l → y ∈ l → f x = f y → x = y.
Proof.
  induction l as [|z l IH]; intros Hnd Hx Hy E; [by apply elem_of_nil in Hx|].
  rewrite fmap_cons in Hnd. apply NoDup_cons in Hnd as [Hz Hnd].
  apply elem_of_cons in Hx as [->|Hx]; apply elem_of_cons in Hy as [->|Hy]; try done.
  - exfalso. apply Hz. rewrite E. by apply list_elem_of_fmap_2.
  - exfalso. apply Hz. rewrite <- E. by apply list_elem_of_fmap_2.
  - by apply IH.
Qed.

Lemma eligible_isImage e : eligible e = true → isImage (Name e) = true.
Proof. unfold eligible. by intros [_ ?]%andb_true_iff. Qed.

Lemma Source_inj n1 n2 :
  isImage n1 = true → isImage n2 = true →
  has_sep n1 = false → has_sep n2 = false →
  Source (jobOf cfg n1) = Source (jobOf cfg n2) → n1 = n2.
Proof.
  intros H1 H2 S1 S2 E. simpl in E.
  apply (Join_inj [WorkDir cfg]); [by apply isImage_plain..|done].
Qed.

Lemma NoDup_sources entries :
  base_names entries →
  NoDup (Name <$> entries) → NoDup (Source <$> buildJobs cfg entries).
Proof.
  rewrite buildJobs_filter. unfold base_names.
  induction entries as [|e es IH]; intros Hb Hnd; [constructor|].
  apply Forall_cons in Hb as [Hbe Hb].
  rewrite fmap_cons in Hnd. apply NoDup_cons in Hnd as [He Hnd].
  rewrite filter_cons. case_decide as Hel; [|by apply IH].
  rewrite !fmap_cons. apply NoDup_cons. split; [|by apply IH].
  intros Hin. apply list_elem_of_fmap in Hin as (j & Hj & Hin).
  apply list_elem_of_fmap in Hin as (e' & -> & Hin).
  apply list_elem_of_filter in Hin as [Hel' Hin].
  rewrite Forall_forall in Hb.
  apply Source_inj in Hj; [|by apply eligible_isImage..|done|by apply Hb].
  apply He. rewrite Hj. by apply list_elem_of_fmap_2.
Qed.

Lemma elem_of_buildJobs j entries :
  j ∈ buildJobs cfg entries ↔ ∃ e, e ∈ entries ∧ eligible e = true ∧ j = jobOf cfg (Name e).
Proof.
  rewrite buildJobs_filter, list_elem_of_fmap. split.
  - intros (e & -> & [He Hin]%list_elem_of_filter). eauto.
  - intros (e & Hin & He & ->). exists e. split; [done|]. by apply list_elem_of_filter.
Qed.

Lemma sources_not_dests entries j :
  base_names entries →
  j ∈ buildJobs cfg entries → Source j ∉ (Dest <$> buildJobs cfg entries).
Proof.
  unfold base_names. rewrite Forall_forall.
  intros Hb (e & He1 & He & ->)%elem_of_buildJobs Hin.
  apply list_elem_of_fmap in Hin as (j' & Hj' & (e' & He2 & _ & ->)%elem_of_buildJobs).
  eapply source_not_dest; [by apply eligible_isImage| | |exact Hj']; by apply Hb.
Qed.

(** *** The trace as the sum of the workers' actions *)

Lemma bind_ext_in {A B} (f g : A → list B) l :
  (∀ x, x ∈ l → f x = g x) → l ≫= f = l ≫= g.
Proof.
  induction l as [|x l IH]; intros H; [done|].
  rewrite !bind_cons, (H x), IH; [done| |by left].
  intros y Hy. apply H. by right.
Qed.

Lemma bind_insert_one {B} (f g : nat → list B) (l : list nat) i e :
  NoDup l → i ∈ l → f i = e :: g i → (∀ k, k ≠ i → f k = g k) →
  l ≫= f ≡ₚ e :: (l ≫= g).
Proof.
  intros Hnd Hi Hfi Hne. induction l as [|k l IH]; [by apply elem_of_nil in Hi|].
  apply NoDup_cons in Hnd as [Hk Hnd]. rewrite !bind_cons.
  destruct (decide (k = i)) as [->|Hki].
  - rewrite Hfi. simpl. f_equiv. f_equiv.
    rewrite (bind_ext_in f g); [done|]. intros x Hx. apply Hne. by intros ->.
  - rewrite (Hne k Hki). apply elem_of_cons in Hi as [->|Hi]; [done|].
    rewrite (IH Hnd Hi). by rewrite Permutation_middle.
Qed.

Lemma proj_cons i k ev tr :
  proj k ((i, ev) :: tr) = if decide (k = i) then ev :: proj k tr else proj k tr.
Proof.
  unfold proj. case_decide as Hk.
  - subst. by rewrite filter_cons_True.
  - rewrite filter_cons_False; [done|]. simpl. congruence.
Qed.

Lemma bind_seq_nil {B} n : seq 0 n ≫= (λ _, @nil B) = [].
Proof. induction (seq 0 n) as [|x l IH]; [done|]. by rewrite bind_cons, IH. Qed.

Lemma trace_split (tr : list (nat * Event)) n :
  (∀ i ev, (i, ev) ∈ tr → (i < n)%nat) →
  snd <$> tr ≡ₚ seq 0 n ≫= (λ i, proj i tr).
Proof.
  induction tr as [|[i ev] tr IH]; intros Hin.
  - change (λ i, proj i []) with (λ _ : nat, @nil Event). by rewrite bind_seq_nil.
  - rewrite fmap_cons. simpl.
    rewrite (bind_insert_one _ (λ k, proj k tr) _ i ev).
    + f_equiv. apply IH. intros k e Hk. apply (Hin k e). by right.
    + apply NoDup_seq.
    + apply elem_of_seq. specialize (Hin i ev ltac:(by left)). lia.
    + rewrite proj_cons. by rewrite decide_True.
    + intros k Hk. rewrite proj_cons. by rewrite decide_False.
Qed.

Lemma bind_seq_lookup {A B} (F : nat → list B) (G : A → list B) ws start :
  (∀ i w, ws !! i = Some w → F (start + i)%nat = G w) →
  seq start (length ws) ≫= F = ws ≫= G.
Proof.
  revert start. induction ws as [|w ws IH]; intros start H; [done|].
  simpl length. rewrite <- cons_seq. rewrite !bind_cons. f_equal.
  - rewrite <- (H 0%nat w); [|done]. f_equal. lia.
  - apply IH. intros i x Hx. rewrite <- (H (S i) x); [|done]. f_equal. lia.
Qed.

Lemma events_perm s :
  tags_inv s → trace_inv cfg s →
  events s ≡ₚ workers s ≫= (λ w, (outcomes w ≫= block cfg) ++ prefix cfg (pc w)).
Proof.
  intros IT I. unfold events.
  rewrite (trace_split _ (length (workers s))).
  - rewrite (bind_seq_lookup _ (λ w, (outcomes w ≫= block cfg) ++ prefix cfg (pc w)));
      [done|]. intros i w Hw. simpl. by apply I.
  - intros i ev Hin. apply lookup_lt_is_Some. by eapply IT.
Qed.

Lemma joined_events_perm s :
  tags_inv s → trace_inv cfg s → joined s = true →
  events s ≡ₚ all_outcomes s ≫= block cfg.
Proof.
  intros IT I [_ Hd]%joined_done. rewrite (events_perm s IT I).
  unfold all_outcomes. rewrite Forall_forall in Hd.
  induction (workers s) as [|w ws IH]; [done|].
  rewrite !bind_cons, bind_app, (Hd w) by (by left). simpl. rewrite app_nil_r.
  f_equiv. apply IH. intros x Hx. apply Hd. by right.
Qed.

(** An action in the trace is an action of some worker: of one of its
    finished iterations or of the one in progress. *)
Lemma elem_of_events s ev :
  tags_inv s → trace_inv cfg s → ev ∈ events s →
  ∃ w, w ∈ workers s ∧ ev ∈ (outcomes w ≫= block cfg) ++ prefix cfg (pc w).
Proof.
  intros IT I Hin. rewrite (events_perm s IT I) in Hin.
  apply list_elem_of_bind in Hin as (w & Hev & Hw). eauto.
Qed.

Lemma remove_in_prefix p path ok :
  EvRemove path ok ∈ prefix cfg p →
  Replace cfg = true ∧ ∃ j, j ∈ cur_job p ∧ path = Source j.
Proof.
  destruct p; unfold prefix, block, convert_events; cbn [oJob Result];
    destruct (Replace cfg); simpl; intros H;
    repeat (apply elem_of_cons in H as [H|H]; [try discriminate|]);
    try (by apply elem_of_nil in H).
  all: injection H as -> ->; split; [done|]; eexists; split; [by left|done].
Qed.

(** [os.Remove] is only ever called in in-place mode, on the source of a
    job of the pool. *)
Lemma remove_is_source jobs s path ok :
  cons_inv jobs s → tags_inv s → trace_inv cfg s →
  EvRemove path ok ∈ events s →
  Replace cfg = true ∧ path ∈ Source <$> jobs.
Proof.
  intros IC IT I (w & Hw & Hin)%elem_of_events; [|done..].
  assert (Hcl : ∀ j, j ∈ claimed w → j ∈ jobs).
  { intros j Hj. unfold cons_inv in IC. rewrite <- IC.
    apply elem_of_app. right. apply elem_of_app. right.
    apply list_elem_of_bind. eauto. }
  apply elem_of_app in Hin as [Hin|Hin].
  - apply list_elem_of_bind in Hin as (o & (HR & _ & -> & _)%elem_of_block_remove & Ho).
    split; [done|]. apply list_elem_of_fmap_2, Hcl. unfold claimed.
    apply elem_of_app. right. by apply list_elem_of_fmap_2.
  - apply remove_in_prefix in Hin as (HR & j & Hj & ->). split; [done|].
    apply list_elem_of_fmap_2, Hcl. unfold claimed. apply elem_of_app. by left.
Qed.

Lemma greedy_length k s : (length (greedy cfg env k s) ≤ k)%nat.
Proof.
  revert s. induction k as [|k IH]; intros s; simpl; [done|].
  destruct (pick cfg env s); simpl; [|lia]. specialize (IH (tick cfg env s t)). lia.
Qed.

Lemma exits_block o : exits (block cfg o) = [(oJob o, Result o)].
Proof.
  unfold block, convert_events, exits. destruct o as [[src dst] b r a d]; simpl.
  destruct r; destruct (Replace cfg); done.
Qed.

Lemma logged_block o :
  logged (block cfg o) = if Success o then [] else [Base (Source (oJob o))].
Proof.
  unfold block, convert_events, logged, Success. destruct o as [j b r a d]; simpl.
  destruct r; destruct (Replace cfg); done.
Qed.

Lemma bind_bind_blocks {B} (f : Event → list B) (g : Outcome → list B) os :
  (∀ o, block cfg o ≫= f = g o) → (os ≫= block cfg) ≫= f = os ≫= g.
Proof.
  intros H. induction os as [|o os IH]; [done|].
  by rewrite !bind_cons, bind_app, H, IH.
Qed.

Lemma bind_singleton_fmap {A B} (f : A → B) (l : list A) :
  l ≫= (λ x, [f x]) = f <$> l.
Proof. induction l as [|x l IH]; [done|]. by rewrite bind_cons, fmap_cons, IH. Qed.

(** After the barrier the runs of ffmpeg in the trace are those of the
    outcomes, one for each. *)
Lemma joined_exits s :
  tags_inv s → trace_inv cfg s → joined s = true →
  exits (events s) ≡ₚ (λ o, (oJob o, Result o)) <$> all_outcomes s.
Proof.
  intros IT I Hj. unfold exits at 1.
  rewrite (joined_events_perm s IT I Hj).
  rewrite (bind_bind_blocks _ (λ o, [(oJob o, Result o)])) by apply exits_block.
  by rewrite bind_singleton_fmap.
Qed.

Lemma joined_logged s :
  tags_inv s → trace_inv cfg s → joined s = true →
  logged (events s)
  ≡ₚ (λ o, Base (Source (oJob o))) <$> filter (λ o, Success o = false) (all_outcomes s).
Proof.
  intros IT I Hj. unfold logged at 1.
  rewrite (joined_events_perm s IT I Hj).
  rewrite (bind_bind_blocks _ (λ o, if Success o then [] else [Base (Source (oJob o))]))
    by apply logged_block.
  induction (all_outcomes s) as [|o os IH]; [done|].
  rewrite bind_cons, filter_cons. destruct (Success o) eqn:Hs.
  - rewrite decide_False by done. exact IH.
  - rewrite decide_True by done. rewrite fmap_cons. simpl. by f_equiv.
Qed.

Lemma failures_outcomes (os : list Outcome) :
  filter (λ x : Job * EncResult, enc_ok (snd x) = false)
         ((λ o, (oJob o, Result o)) <$> os)
  = (λ o, (oJob o, Result o)) <$> filter (λ o, Success o = false) os.
Proof.
  induction os as [|o os IH]; [done|].
  rewrite fmap_cons, !filter_cons. simpl. unfold Success at 1.
  destruct (decide (enc_ok (Result o) = false)); by rewrite IH.
Qed.

(** *** The trace records what the outside answered *)

Lemma honest_nil fs0 : honest cfg env fs0 [].
Proof. intros pre ev post H. by destruct pre. Qed.

Lemma honest_snoc fs0 evs ev :
  honest cfg env fs0 evs → answered cfg env fs0 evs ev →
  honest cfg env fs0 (evs ++ [ev]).
Proof.
  intros H Ha pre x post E.
  destruct post as [|y post _] using rev_ind.
  - apply app_inj_tail in E as [-> ->]. done.
  - rewrite app_comm_cons, (assoc_L (++)) in E.
    apply app_inj_tail in E as [-> _]. by eapply H.
Qed.

Lemma honest_step fs0 s t s' :
  files s = replay fs0 (events s) →
  honest cfg env fs0 (events s) → step cfg env t s = Some s' →
  honest cfg env fs0 (events s').
Proof.
  intros IF I H.
  assert (HL : length (trace s) = length (events s)) by (unfold events; by rewrite length_fmap).
  step_cases H; [done|done|..].
  all: rewrite events_commit; simpl; rewrite ?app_nil_r; try done.
  all: apply honest_snoc; [done|]; simpl; by rewrite <- ?IF, <- ?HL.
Qed.

Lemma honest_reachable n jobs fs sched :
  honest cfg env fs (events (exec cfg env sched (init n jobs fs))).
Proof.
  assert (H : files (exec cfg env sched (init n jobs fs))
              = replay fs (events (exec cfg env sched (init n jobs fs)))
              ∧ honest cfg env fs (events (exec cfg env sched (init n jobs fs))));
    [|apply H].
  apply exec_ind.
  - split; [done|apply honest_nil].
  - intros s t s' [IF I] H. split; [by eapply replay_step|by eapply honest_step].
Qed.

End PoolFacts.

(** ** Facts used by the main theorems *)

Section Helpers.
Import GoStrings FilePath AtomicStats.
Context {U : Unicode}.

Lemma run_pool cfg h f s :
  run cfg h = Some f → pool f = Some s →
  ∃ entries,
    dir_entries h = Some entries
    ∧ s = exec cfg (host_env h) (schedule h)
            (init (NumCPU h) (buildJobs cfg entries) (disk h))
    ∧ joined s = true ∧ err f = None.
Proof.
  unfold run. intros Hr Hp.
  destruct (has_ffmpeg h); simpl in Hr; [|by simplify_eq].
  destruct (dir_entries h) as [entries|]; [|by simplify_eq].
  exists entries. split; [done|].
  destruct (buildJobs cfg entries) as [|j js] eqn:Hjobs; [by simplify_eq|].
  destruct (negb (Replace cfg) && negb (mkdir_ok h)); [by simplify_eq|].
  destruct (negb (Skip cfg) && negb (confirmExecution (stdin h))); [by simplify_eq|].
  destruct (joined _) eqn:Hj; [|done].
  simplify_eq. simpl in Hp. by simplify_eq.
Qed.










Lemma same_stem_same_dest cfg n1 n2 :
  TrimSuffix n1 (Ext n1) = TrimSuffix n2 (Ext n2) → destPath cfg n1 = destPath cfg n2.
Proof. intros E. unfold destPath, webpName. by rewrite E. Qed.

(** What a cancelled run has done, in either mode: no job ran, and the
    output directory was created unless the mode is in-place. *)
Lemma cancel_runs_no_job cfg h f :
  Skip cfg = false → confirmExecution (stdin h) = false →
  run cfg h = Some f →
  pool f = None
  ∧ (err f = None →
     cancelled f = true ∧ exit_code f = 0
     ∧ mkdirs f = if Replace cfg then [] else [Join [WorkDir cfg; outputDir]]).
Proof.
  unfold run. intros Hs Hc Hr. rewrite Hs, Hc in Hr. simpl in Hr.
  destruct (has_ffmpeg h); simpl in Hr; [|by simplify_eq].
  destruct (dir_entries h) as [entries|]; [|by simplify_eq].
  destruct (buildJobs cfg entries); [by simplify_eq|].
  destruct (negb (Replace cfg) && negb (mkdir_ok h)); by simplify_eq.
Qed.

(** The answers that let the run go on. *)
Lemma confirm_affirmative input :
  confirmExecution input = true
  ↔ ∃ line, ReadString input = Some line
            ∧ (TrimSpace (ToLower line) = "s" ∨ TrimSpace (ToLower line) = "sim").
Proof.
  unfold confirmExecution. destruct (ReadString input) as [line|].
  - rewrite orb_true_iff, !bool_decide_eq_true. split.
    + intros H. by exists line.
    + by intros (? & [= <-] & H).
  - split; [done|]. by intros (? & ? & _).
Qed.


(** [run] returns under a suitable interleaving: any schedule can be
    continued so that [wg.Wait()] is passed. *)
Lemma run_returns cfg h :
  ∃ more f, run cfg (with_schedule h (schedule h ++ more)) = Some f.
Proof.
  unfold run. simpl.
  destruct (has_ffmpeg h); simpl; [|by exists [], (fail ErrNoFfmpeg)].
  destruct (dir_entries h) as [entries|]; [|by exists [], (fail ErrReadDir)].
  destruct (buildJobs cfg entries) as [|j js] eqn:Hjobs; [by exists [], (fail ErrNoJobs)|].
  destruct (negb (Replace cfg) && negb (mkdir_ok h)); [by exists [], (fail ErrMkdir)|].
  destruct (negb (Skip cfg) && negb (confirmExecution (stdin h))); [by eexists [], _|].
  destruct (pool_completes cfg (host_env h) (NumCPU h) (j :: js) (disk h) (schedule h))
    as [more Hj].
  exists more. unfold host_env in *. simpl in *. rewrite Hj. by eexists.
Qed.

(** After the barrier a run of ffmpeg in the trace is the run of one
    outcome. *)
Lemma elem_of_exits cfg s j r :
  tags_inv s → trace_inv cfg s → joined s = true →
  (j, r) ∈ exits (events s) ↔ ∃ o, o ∈ all_outcomes s ∧ oJob o = j ∧ Result o = r.
Proof.
  intros IT I Hj. rewrite (joined_exits cfg s IT I Hj), list_elem_of_fmap. split.
  - intros (o & [= -> ->] & Ho). eauto.
  - intros (o & Ho & <- & <-). eauto.
Qed.

(** The source of a finished job, in either mode: [os.Remove] was called
    on it exactly when the mode is in-place and the conversion succeeded, and
    the path holds what it held before the pool started unless that call
    succeeded. *)
Lemma source_after_join cfg env n entries fs sched o :
  (0 < n)%nat →
  base_names entries →
  NoDup (Name <$> entries) →
  joined (exec cfg env sched (init n (buildJobs cfg entries) fs)) = true →
  o ∈ all_outcomes (exec cfg env sched (init n (buildJobs cfg entries) fs)) →
  (∀ ok, EvRemove (Source (oJob o)) ok
           ∈ events (exec cfg env sched (init n (buildJobs cfg entries) fs))
         ↔ Replace cfg = true ∧ Success o = true ∧ ok = Removed o)
  ∧ files (exec cfg env sched (init n (buildJobs cfg entries) fs)) !! Source (oJob o)
    = if Replace cfg && Success o && Removed o then None else fs !! Source (oJob o).
Proof.
  intros Hn Hb Hnd Hj Ho.
  destruct (joined_summary _ _ _ _ _ _ Hn Hj) as [Hperm _].
  destruct (pool_inv_reachable cfg env n (buildJobs cfg entries) fs sched)
    as (_ & _ & _ & _ & I5 & I6 & I7 & _).
  set (s := exec _ _ _ _) in *.
  assert (Hsrc : NoDup (Source <$> (oJob <$> all_outcomes s))).
  { rewrite Hperm. by apply NoDup_sources. }
  rewrite <- list_fmap_compose in Hsrc.
  assert (Hiff : ∀ ok, EvRemove (Source (oJob o)) ok ∈ events s
                 ↔ Replace cfg = true ∧ Success o = true ∧ ok = Removed o).
  { intros ok. rewrite (joined_events cfg s _ I6 I5 Hj). split.
    - intros (o' & Ho' & (HR & Hs & E & Hok)%elem_of_block_remove).
      by rewrite (NoDup_fmap_eq (Source ∘ oJob) _ o o' Hsrc Ho Ho' E).
    - intros (HR & Hs & ->). exists o. split; [done|]. by apply elem_of_block_remove. }
  split; [done|].
  assert (Hin : oJob o ∈ buildJobs cfg entries).
  { rewrite <- Hperm. by apply list_elem_of_fmap_2. }
  rewrite (I7 _ (sources_not_dests cfg entries _ Hb Hin)).
  destruct (removed s (Source (oJob o))) eqn:Hrm.
  - apply removed_spec, Hiff in Hrm as (-> & -> & <-). done.
  - destruct (Replace cfg) eqn:HR, (Success o) eqn:Hs, (Removed o) eqn:Hd; simpl; try done.
    assert (removed s (Source (oJob o)) = true); [|congruence].
    apply removed_spec. by apply Hiff.
Qed.

End Helpers.

(** ** The properties of the specification *)

Section Claims.
Import GoStrings FilePath AtomicStats.
Context {U : Unicode}.

(** C1. For a job set of size K, once every worker has returned and
    [wg.Wait()] is passed, [Converted + Failed = K = Total].  The size of a
    job set is a Go [int], so it fits an [int64]. *)
Theorem stats_account cfg env n jobs fs sched :
  (0 < n)%nat →
  Z.of_nat (length jobs) ≤ max_int64 →
  joined (exec cfg env sched (init n jobs fs)) = true →
  Converted (stats (exec cfg env sched (init n jobs fs)))
  + Failed (stats (exec cfg env sched (init n jobs fs))) = Z.of_nat (length jobs)
  ∧ Total (stats (exec cfg env sched (init n jobs fs))) = Z.of_nat (length jobs).
Proof.
  intros Hn HK Hj.
  destruct (joined_summary cfg env n jobs fs sched Hn Hj) as [Hperm ->].
  assert (HL : length (all_outcomes (exec cfg env sched (init n jobs fs))) = length jobs).
  { rewrite <- (length_fmap oJob). by rewrite Hperm. }
  set (os := all_outcomes _) in *. simpl.
  pose proof (n_ok_err os). pose proof (n_ok_bounds os). pose proof (n_err_bounds os).
  unfold max_int64 in HK.
  rewrite !wrap64_small by (unfold min_int64, max_int64; lia). lia.
Qed.

(** C2. In every state the pool can reach, whatever its width, at most
    one ffmpeg process is running; a running process implies the lock is
    held; when [cmd.Run()] returns, with success or with an error, the next
    action of that worker is the deferred unlock, and after it nobody holds
    the lock. *)
Theorem one_ffmpeg_at_a_time cfg env n jobs fs sched :
  (∀ i k wi wk,
      workers (exec cfg env sched (init n jobs fs)) !! i = Some wi →
      workers (exec cfg env sched (init n jobs fs)) !! k = Some wk →
      in_flight (pc wi) = true → in_flight (pc wk) = true → i = k)
  ∧ (∀ i w,
      workers (exec cfg env sched (init n jobs fs)) !! i = Some w →
      in_flight (pc w) = true →
      mutex (exec cfg env sched (init n jobs fs)) = true)
  ∧ (∀ i w j b,
      workers (exec cfg env sched (init n jobs fs)) !! i = Some w →
      pc w = Run j b →
      ∃ r s', step cfg env (W i) (exec cfg env sched (init n jobs fs)) = Some s'
              ∧ workers s' !! i = Some (goto w (Unlock j b r)))
  ∧ (∀ i w j b r,
      workers (exec cfg env sched (init n jobs fs)) !! i = Some w →
      pc w = Unlock j b r →
      ∃ s', step cfg env (W i) (exec cfg env sched (init n jobs fs)) = Some s'
            ∧ mutex s' = false
            ∧ ∀ k wk, workers s' !! k = Some wk → holds (pc wk) = false).
Proof.
  set (s := exec cfg env sched (init n jobs fs)).
  assert (I : mutex_inv s) by apply mutex_inv_reachable.
  refine (conj _ (conj _ (conj _ _))).
  - intros i k wi wk Hi Hk Fi Fk.
    apply (holds_exclusive s i k wi wk I Hi Hk).
    + by destruct (pc wi).
    + by destruct (pc wk).
  - intros i w Hw Fw. unfold mutex_inv in I.
    assert (Hle := sumW_lookup_le (λ w, Z.b2z (holds (pc w))) _ _ _ Zle_0_b2z_holds Hw).
    simpl in Hle. destruct (pc w); try discriminate. simpl in Hle.
    destruct (mutex s); [done|simpl in I; lia].
  - intros i w j b Hw Hpc.
    exists (encoder env (length (trace s)) (files s) (Source j) (Dest j) (Quality cfg)).
    eexists. unfold step. rewrite Hw. simpl. unfold action. rewrite Hpc. simpl.
    split; [done|]. unfold commit. simpl.
    apply list_lookup_insert_eq. by eapply lookup_lt_Some.
  - intros i w j b r Hw Hpc.
    assert (Hs : step cfg env (W i) s
                 = Some (commit s i (goto w (afterConvert j b r))
                           {| e_queue := queue s; e_mutex := false; e_stats := stats s;
                              e_files := files s; e_events := [EvUnlock] |})).
    { unfold step. rewrite Hw. simpl. unfold action. by rewrite Hpc. }
    eexists. split; [exact Hs|]. split; [done|].
    assert (I' := mutex_inv_step cfg env _ _ _ I Hs).
    unfold mutex_inv in I'. cbn [mutex commit] in I'. simpl in I'.
    intros k wk Hk.
    assert (Hle := sumW_lookup_le (λ w, Z.b2z (holds (pc w))) _ _ _ Zle_0_b2z_holds Hk).
    simpl in Hle. destruct (holds (pc wk)); [simpl in Hle; lia|done].
Qed.

(** C3. With the preview on and the answer ["n"], [run] returns nil and
    [main] exits with status 0 without starting the pool, but in the mode
    that writes beside the sources the output directory exists by then:
    [os.MkdirAll] comes before the prompt. *)
Theorem cancel_leaves_output_directory :
  run beside host_pics
  = Some {| err := None; mkdirs := ["/pics/compressed"]; cancelled := true;
            pool := None |}
  ∧ main beside host_pics = Some 0.
Proof. split; vm_compute; reflexivity. Qed.

(** C4. When the target directory holds no eligible file, [run] returns an
    error, [main] exits with status 1, no directory was created and no job
    ran.  With ffmpeg present the error is the one about eligible files. *)
Theorem no_jobs_is_fatal cfg h entries :
  dir_entries h = Some entries →
  buildJobs cfg entries = [] →
  ∃ f, run cfg h = Some f
       ∧ is_Some (err f) ∧ exit_code f = 1 ∧ main cfg h = Some 1
       ∧ mkdirs f = [] ∧ pool f = None
       ∧ (has_ffmpeg h = true → err f = Some ErrNoJobs).
Proof.
  intros He Hj. unfold main, run. rewrite He, Hj.
  destruct (has_ffmpeg h); simpl; eexists; (split; [done|]); simpl; eauto 10.
  repeat split; eauto. done.
Qed.

(** C5. When the pool ran, the process exits with status 0 whatever the
    encoder did.  The trace holds what the encoder returned, and one run of
    ffmpeg for each job: no worker stopped at a failure.  [Failed] is the
    number of runs that returned an error, [Converted] the number of the
    others, and each failed run has its line "Erro ao converter" with the
    file name of its source. *)
Theorem failures_are_absorbed cfg h f s :
  (0 < NumCPU h)%nat →
  Z.of_nat (length (default [] (dir_entries h))) ≤ max_int64 →
  run cfg h = Some f → pool f = Some s →
  exit_code f = 0 ∧ main cfg h = Some 0
  ∧ honest cfg (host_env h) (disk h) (events s)
  ∧ fst <$> exits (events s) ≡ₚ buildJobs cfg (default [] (dir_entries h))
  ∧ Failed (stats s) = Z.of_nat (length (failures (events s)))
  ∧ Converted (stats s)
    = Z.of_nat (length (exits (events s))) - Z.of_nat (length (failures (events s)))
  ∧ logged (events s) ≡ₚ (λ x, Base (Source (fst x))) <$> failures (events s).
Proof.
  intros Hn HK Hr Hp.
  destruct (run_pool _ _ _ _ Hr Hp) as (entries & He & Hs & Hj & Herr).
  rewrite He in *. simpl in HK |- *. subst s.
  destruct (joined_summary _ _ _ _ _ _ Hn Hj) as [Hperm Hst].
  destruct (pool_inv_reachable cfg (host_env h) (NumCPU h) (buildJobs cfg entries)
              (disk h) (schedule h)) as (_ & _ & _ & _ & I5 & I6 & _).
  pose proof (honest_reachable cfg (host_env h) (NumCPU h) (buildJobs cfg entries)
                (disk h) (schedule h)) as Hh.
  set (s := exec _ _ _ _) in *.
  pose proof (joined_exits cfg s I6 I5 Hj) as Hex.
  assert (Hfl : failures (events s)
                ≡ₚ (λ o, (oJob o, Result o)) <$> filter (λ o, Success o = false) (all_outcomes s)).
  { unfold failures. rewrite Hex. by rewrite failures_outcomes. }
  assert (HL : length (all_outcomes s) = length (buildJobs cfg entries)).
  { rewrite <- (length_fmap oJob). by rewrite Hperm. }
  assert (HB : (length (buildJobs cfg entries) ≤ length entries)%nat).
  { rewrite buildJobs_filter, length_fmap. apply length_filter. }
  assert (HE : length (exits (events s)) = length (all_outcomes s)).
  { by rewrite Hex, length_fmap. }
  assert (HF : Z.of_nat (length (failures (events s))) = n_err (all_outcomes s)).
  { unfold n_err. by rewrite Hfl, length_fmap. }
  pose proof (n_ok_err (all_outcomes s)). pose proof (n_ok_bounds (all_outcomes s)).
  pose proof (n_err_bounds (all_outcomes s)).
  refine (conj _ (conj _ (conj Hh (conj _ (conj _ (conj _ _)))))).
  - unfold exit_code. by rewrite Herr.
  - unfold main. rewrite Hr. simpl. unfold exit_code. by rewrite Herr.
  - rewrite Hex, <- list_fmap_compose. exact Hperm.
  - rewrite Hst, HF. simpl. apply wrap64_small.
    unfold min_int64, max_int64 in *. lia.
  - rewrite Hst, HF, HE. simpl. rewrite wrap64_small by (unfold min_int64, max_int64 in *; lia).
    lia.
  - rewrite (joined_logged cfg s I6 I5 Hj), Hfl, <- list_fmap_compose. done.
Qed.

(** C6. In in-place mode the trace holds one run of ffmpeg for each job,
    with what the encoder returned.  [os.Remove] is called on the source of
    a job if and only if the run of ffmpeg for that job succeeded; the
    source of a failed run is on disk as it was; the source of a successful
    run is gone if the call of [os.Remove] succeeded and is on disk as it
    was if that call failed, the worker discarding its error. *)
Theorem in_place_remove_iff_success cfg env n entries fs sched :
  Replace cfg = true →
  (0 < n)%nat →
  base_names entries →
  NoDup (Name <$> entries) →
  joined (exec cfg env sched (init n (buildJobs cfg entries) fs)) = true →
  honest cfg env fs (events (exec cfg env sched (init n (buildJobs cfg entries) fs)))
  ∧ fst <$> exits (events (exec cfg env sched (init n (buildJobs cfg entries) fs)))
    ≡ₚ buildJobs cfg entries
  ∧ ∀ j r,
      (j, r) ∈ exits (events (exec cfg env sched (init n (buildJobs cfg entries) fs))) →
      ((∃ ok, EvRemove (Source j) ok
                ∈ events (exec cfg env sched (init n (buildJobs cfg entries) fs)))
       ↔ enc_ok r = true)
      ∧ (enc_ok r = false →
         files (exec cfg env sched (init n (buildJobs cfg entries) fs)) !! Source j
         = fs !! Source j)
      ∧ (∀ ok, EvRemove (Source j) ok
                 ∈ events (exec cfg env sched (init n (buildJobs cfg entries) fs)) →
         files (exec cfg env sched (init n (buildJobs cfg entries) fs)) !! Source j
         = if ok then None else fs !! Source j).
Proof.
  intros HR Hn Hb Hnd Hj.
  destruct (joined_summary _ _ _ _ _ _ Hn Hj) as [Hperm _].
  destruct (pool_inv_reachable cfg env n (buildJobs cfg entries) fs sched)
    as (_ & _ & _ & _ & I5 & I6 & _).
  pose proof (honest_reachable cfg env n (buildJobs cfg entries) fs sched) as Hh.
  pose proof (λ o, source_after_join cfg env n entries fs sched o Hn Hb Hnd Hj) as Hsrc.
  set (s := exec _ _ _ _) in *.
  split; [done|]. split.
  { rewrite (joined_exits cfg s I6 I5 Hj), <- list_fmap_compose. exact Hperm. }
  intros j r (o & Ho & <- & <-)%(elem_of_exits cfg s _ _ I6 I5 Hj).
  destruct (Hsrc o Ho) as [Hiff Hf]. rewrite HR in Hiff, Hf. simpl in Hf.
  fold (Success o). refine (conj _ (conj _ _)).
  - split.
    + intros [ok (_ & Hs & _)%Hiff]. done.
    + intros Hs. exists (Removed o). by apply Hiff.
  - intros Hs. by rewrite Hs in Hf.
  - intros ok (_ & Hs & ->)%Hiff. by rewrite Hs in Hf.
Qed.

(** C7. In every state the pool can reach, the actions of a worker are its
    finished iterations followed by the one in progress, each in the order
    stat source, lock, start, exit, unlock, stat destination, optional
    remove, report; the destination is stat'ed only after ffmpeg returned
    success.  A worker that has returned has left no iteration open. *)
Theorem job_steps_in_order cfg env n jobs fs sched i w :
  workers (exec cfg env sched (init n jobs fs)) !! i = Some w →
  proj i (trace (exec cfg env sched (init n jobs fs)))
    = (outcomes w ≫= block cfg) ++ prefix cfg (pc w)
  ∧ is_Some (follow cfg Idle (proj i (trace (exec cfg env sched (init n jobs fs)))))
  ∧ (pc w = Done →
     follow cfg Idle (proj i (trace (exec cfg env sched (init n jobs fs)))) = Some Idle).
Proof.
  intros Hw.
  destruct (pool_inv_reachable cfg env n jobs fs sched) as (_ & _ & _ & _ & I5 & _).
  rewrite (I5 _ _ Hw). split; [done|].
  rewrite follow_app, follow_blocks. simpl. split; [apply follow_prefix|].
  by intros ->.
Qed.




End Claims.

(** ** Further properties of the program with the shared [Stats] *)

Section Further.
Import GoStrings FilePath AtomicStats.
Context {U : Unicode}.

(** X1. The pool cannot get stuck and cannot run for ever: in a state
    where [wg.Wait()] has not returned some goroutine can act, every action
    lowers a bound on the actions left, and from every state a schedule no
    longer than that bound leads to the return of [wg.Wait()].  At the start
    the bound is [18 * K + n + 1] for [K] jobs and [n] workers. *)
Theorem pool_runs_to_completion cfg env n jobs fs sched :
  (joined (exec cfg env sched (init n jobs fs)) = false →
     ∃ t, is_Some (step cfg env t (exec cfg env sched (init n jobs fs))))
  ∧ (∀ t s', step cfg env t (exec cfg env sched (init n jobs fs)) = Some s' →
       fuel s' < fuel (exec cfg env sched (init n jobs fs)))
  ∧ (∃ more,
       Z.of_nat (length more) ≤ fuel (exec cfg env sched (init n jobs fs))
       ∧ joined (exec cfg env (sched ++ more) (init n jobs fs)) = true)
  ∧ fuel (init n jobs fs) = 18 * Z.of_nat (length jobs) + Z.of_nat n + 1.
Proof.
  set (s := exec cfg env sched (init n jobs fs)).
  assert (I : mutex_inv s) by apply mutex_inv_reachable.
  refine (conj _ (conj _ (conj _ _))).
  - intros Hj. destruct (progress cfg env s I Hj) as (t & _ & Ht). eauto.
  - intros t s' H. by eapply fuel_step.
  - exists (greedy cfg env (Z.to_nat (fuel s)) s). split.
    + pose proof (greedy_length cfg env (Z.to_nat (fuel s)) s).
      pose proof (fuel_nonneg s). lia.
    + rewrite exec_app. apply greedy_joined; [done|].
      pose proof (fuel_nonneg s). fold s. lia.
  - unfold fuel, init. cbn [pending closed queue workers].
    rewrite sumW_replicate. simpl. lia.
Qed.

(** X2. No job is lost or handed out twice on its way from [run] to the
    workers, and the channel, made with room for [len(jobs)], never holds
    more than it has room for: a send of [run] never blocks. *)
Theorem job_channel_keeps_every_job cfg env n jobs fs sched :
  pending (exec cfg env sched (init n jobs fs))
    ++ queue (exec cfg env sched (init n jobs fs))
    ++ (workers (exec cfg env sched (init n jobs fs)) ≫= claimed)
  ≡ₚ jobs
  ∧ (length (pending (exec cfg env sched (init n jobs fs)))
     + length (queue (exec cfg env sched (init n jobs fs))) ≤ length jobs)%nat.
Proof.
  destruct (pool_inv_reachable cfg env n jobs fs sched) as (_ & _ & I3 & _).
  split; [exact I3|]. unfold cons_inv in I3.
  apply Permutation_length in I3. rewrite !length_app in I3. lia.
Qed.

(** X3. When the output goes beside the sources, [os.Remove] is never
    called, every path that is not a destination holds what it held at the
    start, and so does the source of every job. *)
Theorem beside_mode_keeps_sources cfg env n entries fs sched :
  Replace cfg = false →
  base_names entries →
  (∀ p ok, EvRemove p ok ∉ events (exec cfg env sched (init n (buildJobs cfg entries) fs)))
  ∧ (∀ p, p ∉ Dest <$> buildJobs cfg entries →
          files (exec cfg env sched (init n (buildJobs cfg entries) fs)) !! p = fs !! p)
  ∧ (∀ j, j ∈ buildJobs cfg entries →
          files (exec cfg env sched (init n (buildJobs cfg entries) fs)) !! Source j
          = fs !! Source j).
Proof.
  intros HR Hb.
  destruct (pool_inv_reachable cfg env n (buildJobs cfg entries) fs sched)
    as (_ & _ & I3 & _ & I5 & I6 & I7 & _).
  set (s := exec _ _ _ _) in *.
  assert (Hno : ∀ p ok, EvRemove p ok ∉ events s).
  { intros p ok Hin.
    apply (remove_is_source cfg (buildJobs cfg entries) s) in Hin as [HR' _];
      [congruence|done..]. }
  assert (Hfr : ∀ p, p ∉ Dest <$> buildJobs cfg entries → files s !! p = fs !! p).
  { intros p Hp. rewrite (I7 p Hp).
    destruct (removed s p) eqn:Hrm; [|done].
    apply removed_spec in Hrm. by destruct (Hno p true). }
  refine (conj Hno (conj Hfr _)).
  intros j Hj. apply Hfr. by apply sources_not_dests.
Qed.

(** X4. In either mode the pool touches nothing but the sources and the
    destinations of its jobs: every other path holds, in every state, what
    it held at the start. *)
Theorem other_files_are_left_alone cfg env n jobs fs sched p :
  p ∉ Dest <$> jobs → p ∉ Source <$> jobs →
  files (exec cfg env sched (init n jobs fs)) !! p = fs !! p.
Proof.
  intros Hd Hs.
  destruct (pool_inv_reachable cfg env n jobs fs sched)
    as (_ & _ & I3 & _ & I5 & I6 & I7 & _).
  set (s := exec _ _ _ _) in *. rewrite (I7 p Hd).
  destruct (removed s p) eqn:Hrm; [|done].
  apply removed_spec in Hrm.
  by apply (remove_is_source cfg jobs s) in Hrm as [_ ?].
Qed.

(** X5. The names printed for a job are those of the directory entry and
    of its output: [filepath.Base] undoes [filepath.Join]. *)
Theorem printed_names cfg name :
  isImage name = true → has_sep name = false →
  Base (Source (jobOf cfg name)) = name
  ∧ Base (Dest (jobOf cfg name)) = webpName name.
Proof.
  intros Hi Hs. split.
  - apply (Base_Join [WorkDir cfg]). by apply isImage_plain.
  - simpl. unfold destPath. pose proof (webpName_plain name Hs).
    destruct (Replace cfg).
    + by apply (Base_Join [WorkDir cfg]).
    + by apply (Base_Join [WorkDir cfg; outputDir]).
Qed.

(** X6. An output is never taken for an input: whatever the name of the
    source, the name of its output is no image for [isImage], so a run over
    a directory that holds earlier outputs makes no job of them. *)
Theorem outputs_are_not_inputs cfg name rest d :
  isImage (webpName name) = false
  ∧ eligible (mkEntry (webpName name) d) = false
  ∧ buildJobs cfg (mkEntry (webpName name) d :: rest) = buildJobs cfg rest.
Proof.
  assert (H : isImage (webpName name) = false).
  { unfold isImage, webpName.
    rewrite (Ext_app _ ".webp" ".webp") by done. by vm_compute. }
  split; [done|]. split.
  - unfold eligible. simpl. rewrite H. by rewrite andb_false_r.
  - simpl. rewrite H. simpl. by destruct d, (HasPrefix (webpName name) ".").
Qed.

(** X7. The answer to the prompt is the first line of standard input:
    what follows its line feed is not read, and an input that ends before a
    line feed is a refusal, whatever it says. *)
Theorem answer_is_the_first_line :
  (∀ line rest,
      has_newline line = false →
      confirmExecution (line +:+ String newline rest)
      = confirmExecution (line +:+ String newline EmptyString))
  ∧ (∀ input, has_newline input = false → confirmExecution input = false).
Proof.
  assert (H1 : ∀ line rest, has_newline line = false →
               ReadString (line +:+ String newline rest)
               = Some (line +:+ String newline EmptyString)).
  { intros line rest. induction line as [|c r IH]; intros Hn.
    - change (ReadString (String newline rest) = Some (String newline EmptyString)).
      cbn [ReadString]. by destruct (decide _).
    - cbn [has_newline] in Hn. apply orb_false_iff in Hn as [Hc Hn].
      apply bool_decide_eq_false in Hc. rewrite !append_cons. cbn [ReadString].
      destruct (decide (c = newline)); [done|]. by rewrite (IH Hn). }
  assert (H2 : ∀ input, has_newline input = false → ReadString input = None).
  { intros input. induction input as [|c r IH]; intros Hn; [done|].
    cbn [has_newline] in Hn. apply orb_false_iff in Hn as [Hc Hn].
    apply bool_decide_eq_false in Hc. cbn [ReadString].
    destruct (decide (c = newline)); [done|]. by rewrite (IH Hn). }
  split.
  - intros line rest Hn. unfold confirmExecution.
    by rewrite (H1 line rest Hn), (H1 line EmptyString Hn).
  - intros input Hn. unfold confirmExecution. by rewrite (H2 input Hn).
Qed.

End Further.

(** ** The theorems on the sample inputs *)

Section Witnesses.
Import GoStrings FilePath AtomicStats.
#[local] Existing Instance no_tables.

Lemma stats_account_witness :
  Converted (stats pool_pics) + Failed (stats pool_pics) = 2
  ∧ Total (stats pool_pics) = 2.
Proof.
  apply (stats_account in_place calm 2 (buildJobs in_place pics) pics_disk (turns 30)).
  - lia.
  - vm_compute. discriminate.
  - vm_compute. reflexivity.
Defined.

Lemma no_jobs_is_fatal_witness :
  ∃ f, run beside host_notes = Some f
       ∧ is_Some (err f) ∧ exit_code f = 1 ∧ main beside host_notes = Some 1
       ∧ mkdirs f = [] ∧ pool f = None
       ∧ (has_ffmpeg host_notes = true → err f = Some ErrNoJobs).
Proof.
  apply (no_jobs_is_fatal beside host_notes
           [mkEntry "notes.txt" false; mkEntry "old.gif" true]).
  - reflexivity.
  - vm_compute. reflexivity.
Defined.

Lemma failures_are_absorbed_witness :
  exit_code {| err := None; mkdirs := []; cancelled := false; pool := Some pool_pics |} = 0
  ∧ main in_place host_pics = Some 0
  ∧ honest in_place (host_env host_pics) (disk host_pics) (events pool_pics)
  ∧ fst <$> exits (events pool_pics)
      ≡ₚ buildJobs in_place (default [] (dir_entries host_pics))
  ∧ Failed (stats pool_pics) = Z.of_nat (length (failures (events pool_pics)))
  ∧ Converted (stats pool_pics)
    = Z.of_nat (length (exits (events pool_pics)))
      - Z.of_nat (length (failures (events pool_pics)))
  ∧ logged (events pool_pics)
      ≡ₚ (λ x, Base (Source (fst x))) <$> failures (events pool_pics).
Proof.
  apply (failures_are_absorbed in_place host_pics
           {| err := None; mkdirs := []; cancelled := false; pool := Some pool_pics |}
           pool_pics).
  - simpl. lia.
  - vm_compute. discriminate.
  - vm_compute. reflexivity.
  - reflexivity.
Defined.

Lemma in_place_remove_iff_success_witness :
  honest in_place calm pics_disk (events pool_pics)
  ∧ fst <$> exits (events pool_pics) ≡ₚ buildJobs in_place pics
  ∧ ∀ j r,
      (j, r) ∈ exits (events pool_pics) →
      ((∃ ok, EvRemove (Source j) ok ∈ events pool_pics) ↔ enc_ok r = true)
      ∧ (enc_ok r = false → files pool_pics !! Source j = pics_disk !! Source j)
      ∧ (∀ ok, EvRemove (Source j) ok ∈ events pool_pics →
         files pool_pics !! Source j = if ok then None else pics_disk !! Source j).
Proof.
  apply (in_place_remove_iff_success in_place calm 2 pics pics_disk (turns 30)).
  - reflexivity.
  - lia.
  - unfold base_names, pics. repeat constructor.
  - apply (bool_decide_unpack _). vm_compute. exact I.
  - vm_compute. reflexivity.
Defined.

(** With an [os.Remove] that is refused, the source of a successful
    conversion stays where it was, and the job still counts as converted. *)
Lemma in_place_source_survives :
  joined pool_sticky = true
  ∧ ({| Source := "/pics/a.png"; Dest := "/pics/a.webp" |}, EncOk 1000000)
      ∈ exits (events pool_sticky)
  ∧ EvRemove "/pics/a.png" false ∈ events pool_sticky
  ∧ files pool_sticky !! "/pics/a.png" = Some 2000000
  ∧ files pool_sticky !! "/pics/a.webp" = Some 1000000
  ∧ Converted (stats pool_sticky) = 1.
Proof.
  refine (conj _ (conj _ (conj _ (conj _ (conj _ _))))).
  - vm_compute. reflexivity.
  - apply (bool_decide_unpack _). vm_compute. exact I.
  - apply (bool_decide_unpack _). vm_compute. exact I.
  - vm_compute. reflexivity.
  - vm_compute. reflexivity.
  - vm_compute. reflexivity.
Qed.


Lemma job_steps_in_order_witness :
  proj 0 (trace pool_pics)
    = (outcomes (default idle (workers pool_pics !! 0%nat)) ≫= block in_place)
      ++ prefix in_place (pc (default idle (workers pool_pics !! 0%nat)))
  ∧ is_Some (follow in_place Idle (proj 0 (trace pool_pics)))
  ∧ (pc (default idle (workers pool_pics !! 0%nat)) = Done →
     follow in_place Idle (proj 0 (trace pool_pics)) = Some Idle).
Proof.
  apply (job_steps_in_order in_place calm 2 (buildJobs in_place pics) pics_disk
           (turns 30) 0 (default idle (workers pool_pics !! 0%nat))).
  vm_compute. reflexivity.
Defined.



Lemma beside_mode_keeps_sources_witness :
  (∀ p ok, EvRemove p ok ∉ events pool_beside)
  ∧ (∀ p, p ∉ Dest <$> buildJobs beside pics →
          files pool_beside !! p = pics_disk !! p)
  ∧ (∀ j, j ∈ buildJobs beside pics →
          files pool_beside !! Source j = pics_disk !! Source j).
Proof.
  apply (beside_mode_keeps_sources beside calm 2 pics pics_disk (turns 30)).
  - reflexivity.
  - unfold base_names, pics. repeat constructor.
Defined.

Lemma other_files_are_left_alone_witness :
  files pool_pics !! "/pics/notes.txt" = pics_disk !! "/pics/notes.txt".
Proof.
  apply (other_files_are_left_alone in_place calm 2 (buildJobs in_place pics) pics_disk
           (turns 30) "/pics/notes.txt").
  - apply (bool_decide_unpack _). vm_compute. exact I.
  - apply (bool_decide_unpack _). vm_compute. exact I.
Defined.

Lemma printed_names_witness :
  Base (Source (jobOf beside "b.JPG")) = "b.JPG"
  ∧ Base (Dest (jobOf beside "b.JPG")) = webpName "b.JPG".
Proof.
  apply (printed_names beside "b.JPG").
  - vm_compute. reflexivity.
  - reflexivity.
Defined.

End Witnesses.

(** ** The program with a results channel *)

Section ChanResultsFacts.
Import GoStrings FilePath.
Context {U : Unicode}.
Variable q : Z.
Variable enc : Encoder.
Variable outputPath : string.

Lemma chan_exec_ind (P : CR.Pool → Prop) :
  (∀ s now t s', P s → CR.step q enc outputPath now t s = Some s' → P s') →
  ∀ sched now s, P s → P (CR.exec q enc outputPath now sched s).
Proof.
  intros Hstep sched. induction sched as [|t sched IH]; intros now s Hs; [done|].
  simpl. apply IH. destruct (CR.step q enc outputPath now t s) eqn:E; simpl; eauto.
Qed.

Lemma chan_step_W_inv now i s s' :
  CR.step q enc outputPath now (CR.W i) s = Some s' →
  ∃ p p' e, CR.workers s !! i = Some p ∧ CR.action q enc now s p = Some (p', e)
            ∧ s' = CR.commit s i p' e.
Proof.
  unfold CR.step. intros H.
  destruct (CR.workers s !! i) as [p|] eqn:Hp; simplify_eq/=.
  destruct (CR.action q enc now s p) as [[p' e]|] eqn:Ha; simplify_eq/=.
  eauto 10.
Qed.

Ltac chan_cases H :=
  match type of H with
  | CR.step _ _ _ _ ?t _ = Some _ =>
      destruct t as [| |?i];
      [ unfold CR.step, CR.main_step in H; repeat case_match; simplify_eq
      | unfold CR.step, CR.closer_step in H; repeat case_match; simplify_eq
      | apply chan_step_W_inv in H as (?p & ?p' & ?e & ?Hw & ?Ha & ->);
        unfold CR.action in Ha; repeat case_match; simplify_eq ]
  end.

Lemma chan_holds_nonneg (p : CR.PC) : 0 ≤ Z.b2z (chan_holds p).
Proof. destruct (chan_holds p); simpl; lia. Qed.

Lemma chan_mutex_inv_step now s t s' :
  chan_mutex_inv s → CR.step q enc outputPath now t s = Some s' → chan_mutex_inv s'.
Proof.
  intros I H.
  chan_cases H; unfold chan_mutex_inv in *; simpl; try done;
    rewrite (sumW_insert _ _ _ _ _ Hw); simpl;
    try match goal with Hm : CR.mutex _ = _ |- _ => rewrite Hm in * end;
    simpl in *; try lia.
  all: assert (Hle := sumW_lookup_le (λ p, Z.b2z (chan_holds p)) _ _ _ chan_holds_nonneg Hw);
    simpl in Hle; destruct (CR.mutex s); simpl in *; lia.
Qed.

Lemma chan_mutex_inv_init n images fs : chan_mutex_inv (CR.init n images fs).
Proof. unfold chan_mutex_inv. simpl. rewrite sumW_replicate. simpl. lia. Qed.


Lemma jobOfResult_resultOf job ret : jobOfResult (CR.resultOf job ret) = job.
Proof. by destruct job. Qed.

Lemma chan_bind_insert_perm {A} (f : CR.PC → list A) ws i w w' l :
  ws !! i = Some w → f w' ≡ₚ l ++ f w →
  (<[i := w']> ws ≫= f) ≡ₚ l ++ (ws ≫= f).
Proof.
  revert i. induction ws as [|x ws IH]; intros [|i] H Hf; simplify_eq/=.
  - rewrite Hf. by rewrite (assoc_L (++)).
  - rewrite (IH i H Hf). rewrite !(assoc_L (++)). f_equiv. apply Permutation_app_comm.
Qed.

Lemma chan_bind_insert_same {A} (f : CR.PC → list A) ws i w w' :
  ws !! i = Some w → f w' = f w → (<[i := w']> ws ≫= f) ≡ₚ (ws ≫= f).
Proof.
  intros Hw Hf. rewrite (chan_bind_insert_perm f ws i w w' []); [done|done|].
  by rewrite Hf.
Qed.

Lemma chan_cur_replicate n : replicate n CR.Recv ≫= chan_cur = [].
Proof. induction n; [done|]. by rewrite replicate_S, bind_cons, IHn. Qed.

Lemma chan_flow_inv_init n images fs : chan_flow_inv (CR.init n images fs).
Proof. unfold chan_flow_inv, CR.init. cbn [CR.sent CR.queue CR.workers CR.results CR.collected]. by rewrite chan_cur_replicate. Qed.

Ltac perm_front :=
  rewrite ?fmap_app, ?fmap_cons; simpl;
  rewrite <- ?(assoc_L (++)); simpl;
  rewrite <- ?Permutation_middle; rewrite ?app_nil_r; try done.

Lemma chan_flow_inv_step now s t s' :
  chan_flow_inv s → CR.step q enc outputPath now t s = Some s' → chan_flow_inv s'.
Proof.
  intros I H. unfold chan_flow_inv in *.
  chan_cases H; cbn [CR.sent CR.queue CR.workers CR.results CR.collected CR.commit
                     CR.e_queue CR.e_results CR.same]; try done.
  all: try (rewrite (chan_bind_insert_same chan_cur _ _ _ _ Hw)
              by (simpl; by rewrite ?jobOfResult_resultOf)).
  all: try match goal with
           | |- context [<[_ := CR.Lock ?job]> _] =>
               rewrite (chan_bind_insert_perm chan_cur _ _ _ _ [job] Hw) by done
           end.
  all: try match goal with
           | Hw : CR.workers _ !! ?i = Some (CR.Send ?result) |- _ =>
               assert (CR.workers s ≫= chan_cur
                       ≡ₚ jobOfResult result :: (<[i := CR.Recv]> (CR.workers s) ≫= chan_cur))
                 as Hsend;
               [ symmetry;
                 rewrite <- (list_insert_id (CR.workers s) i (CR.Send result) Hw) at 2;
                 rewrite <- (list_insert_insert_eq (CR.workers s) i (CR.Send result) CR.Recv);
                 rewrite (chan_bind_insert_perm chan_cur (<[i := CR.Recv]> (CR.workers s))
                            i CR.Recv (CR.Send result) [jobOfResult result]);
                 [ done
                 | apply list_lookup_insert_eq; by eapply lookup_lt_Some
                 | done ]
               | rewrite Hsend in I ]
           end.
  all: rewrite I; perm_front.
  by match goal with Hq : CR.queue _ = [] |- _ => rewrite Hq end.
Qed.

Lemma chan_stats_inv_init n images fs : chan_stats_inv images (CR.init n images fs).
Proof. split; [done|]. simpl. lia. Qed.

Lemma chan_stats_inv_step images now s t s' :
  chan_stats_inv images s → CR.step q enc outputPath now t s = Some s' →
  chan_stats_inv images s'.
Proof.
  intros [IS IN] H. unfold chan_stats_inv in *.
  chan_cases H; cbn [CR.stats CR.sent CR.pending CR.collected CR.commit]; try done.
  all: split; rewrite ?length_app; simpl in *; try lia; try done.
  rewrite IS. unfold CR.summary. by rewrite foldl_app.
Qed.

Lemma chan_forall_done ws : forallb CR.is_done ws = true → Forall (λ p, p = CR.Done) ws.
Proof.
  intros H. apply Forall_forall. intros p Hp%list_elem_of_In.
  rewrite forallb_forall in H. specialize (H p Hp). by destruct p.
Qed.

Lemma chan_ctrl_inv_init n images fs : chan_ctrl_inv n (CR.init n images fs).
Proof.
  unfold chan_ctrl_inv. simpl.
  refine (conj _ (conj _ (conj _ (conj _ _)))); try done.
  - by rewrite length_replicate.
  - by intros p Hp%elem_of_replicate_inv ->.
Qed.

Lemma chan_ctrl_inv_step n now s t s' :
  chan_ctrl_inv n s → CR.step q enc outputPath now t s = Some s' → chan_ctrl_inv n s'.
Proof.
  intros (IL & IC & ID & IR & IF) H. unfold chan_ctrl_inv.
  chan_cases H; cbn [CR.workers CR.closed CR.mainpc CR.queue CR.rclosed CR.results
                     CR.commit CR.e_queue CR.e_results CR.same] in *;
    rewrite ?length_insert.
  all: (split; [done|]).
  all: (split; [|split; [|split]]).
  all: try done.
  (* a worker that has returned saw the channel closed and empty *)
  all: try (intros x Hx ->;
            first [ apply elem_of_insert_inv in Hx as [Hx|Hx];
                    [ try discriminate; by auto
                    | destruct (ID _ Hx eq_refl) as [? ?]; try discriminate; by auto ]
                  | by destruct (ID _ Hx eq_refl) ]).
  (* results is closed only when every worker has returned *)
  all: try (intros Hrc;
            match goal with
            | Hw : CR.workers _ !! _ = Some _ |- _ =>
                specialize (IR Hrc); rewrite Forall_forall in IR;
                by specialize (IR _ (list_elem_of_lookup_2 _ _ _ Hw))
            end).
  all: try (intros Hm; destruct (IF Hm) as [Hrc _];
            match goal with
            | Hw : CR.workers _ !! _ = Some _ |- _ =>
                specialize (IR Hrc); rewrite Forall_forall in IR;
                by specialize (IR _ (list_elem_of_lookup_2 _ _ _ Hw))
            end).
  - intros x Hx ->. destruct (ID _ Hx eq_refl) as [Hc _].
    apply IC in Hc. by destruct Hc.
  - split; [done|]. intros _. by apply IC.
  - intros _. apply chan_forall_done.
    match goal with Hf : _ && _ = true |- _ => by apply andb_true_iff in Hf as [? _] end.
  - intros _. apply chan_forall_done.
    match goal with Hf : _ && _ = true |- _ => by apply andb_true_iff in Hf as [? _] end.
  - intros _. by destruct (IF eq_refl).
  - by rewrite H1.
Qed.

Lemma chan_invs_reachable n images fs sched :
  chan_mutex_inv (CR.exec q enc outputPath 0 sched (CR.init n images fs))
  ∧ chan_flow_inv (CR.exec q enc outputPath 0 sched (CR.init n images fs))
  ∧ chan_stats_inv images (CR.exec q enc outputPath 0 sched (CR.init n images fs))
  ∧ chan_ctrl_inv n (CR.exec q enc outputPath 0 sched (CR.init n images fs)).
Proof.
  apply (chan_exec_ind
           (λ s, chan_mutex_inv s ∧ chan_flow_inv s ∧ chan_stats_inv images s
                 ∧ chan_ctrl_inv n s)).
  - intros s now t s' (I1 & I2 & I3 & I4) H.
    refine (conj _ (conj _ (conj _ _))).
    + by eapply chan_mutex_inv_step.
    + by eapply chan_flow_inv_step.
    + by eapply chan_stats_inv_step.
    + by eapply chan_ctrl_inv_step.
  - refine (conj _ (conj _ (conj _ _))).
    + apply chan_mutex_inv_init.
    + apply chan_flow_inv_init.
    + apply chan_stats_inv_init.
    + apply chan_ctrl_inv_init.
Qed.

(** In every reachable state of that pool at most one ffmpeg runs, and a
    running ffmpeg implies the lock is held. *)
Lemma chan_one_ffmpeg_at_a_time n images fs sched i k pi pk :
  CR.workers (CR.exec q enc outputPath 0 sched (CR.init n images fs)) !! i = Some pi →
  CR.workers (CR.exec q enc outputPath 0 sched (CR.init n images fs)) !! k = Some pk →
  chan_in_flight pi = true → chan_in_flight pk = true →
  i = k ∧ CR.mutex (CR.exec q enc outputPath 0 sched (CR.init n images fs)) = true.
Proof.
  destruct (chan_invs_reachable n images fs sched) as (I & _).
  set (s := CR.exec _ _ _ _ _ _) in *. unfold chan_mutex_inv in I.
  intros Hi Hk Fi Fk.
  assert (Hle := sumW_lookup_le (λ p, Z.b2z (chan_holds p)) _ _ _ chan_holds_nonneg Hi).
  assert (Hpi : Z.b2z (chan_holds pi) = 1) by (by destruct pi).
  assert (Hpk : Z.b2z (chan_holds pk) = 1) by (by destruct pk).
  simpl in Hle. split; [|destruct (CR.mutex s); [done|simpl in I; lia]].
  destruct (decide (i = k)) as [|Hne]; [done|exfalso].
  assert (Hs := sumW_insert (λ p, Z.b2z (chan_holds p)) (CR.workers s) i pi CR.Recv Hi).
  assert (Hk' : <[i := CR.Recv]> (CR.workers s) !! k = Some pk)
    by (by rewrite list_lookup_insert_ne).
  assert (Hle' := sumW_lookup_le (λ p, Z.b2z (chan_holds p)) _ _ _ chan_holds_nonneg Hk').
  simpl in Hs, Hle'.
  destruct (CR.mutex s); simpl in I; lia.
Qed.

(** When [main] has printed the summary, every job sent has its result
    counted; [TotalFiles] is the number of images, sent or not. *)
Lemma chan_summary n images fs sched :
  (0 < n)%nat →
  CR.mainpc (CR.exec q enc outputPath 0 sched (CR.init n images fs)) = CR.Summarized →
  jobOfResult <$> CR.collected (CR.exec q enc outputPath 0 sched (CR.init n images fs))
    ≡ₚ CR.sent (CR.exec q enc outputPath 0 sched (CR.init n images fs))
  ∧ CR.stats (CR.exec q enc outputPath 0 sched (CR.init n images fs))
    = CR.summary images
        (CR.collected (CR.exec q enc outputPath 0 sched (CR.init n images fs)))
  ∧ (length (CR.sent (CR.exec q enc outputPath 0 sched (CR.init n images fs)))
     ≤ length images)%nat
  ∧ CR.TotalFiles (CR.stats (CR.exec q enc outputPath 0 sched (CR.init n images fs)))
    = Z.of_nat (length images).
Proof.
  intros Hn Hm.
  destruct (chan_invs_reachable n images fs sched) as (_ & IP & [IS IN] & IL & _ & ID & IR & IF).
  set (s := CR.exec _ _ _ _ _ _) in *.
  destruct (IF Hm) as [Hrc Hres]. specialize (IR Hrc).
  assert (Hq : CR.queue s = []).
  { destruct (CR.workers s) as [|p ps] eqn:Hws; [simpl in IL; lia|].
    apply (ID p); [apply elem_of_cons; by left|]. by inversion IR. }
  assert (Hcur : CR.workers s ≫= chan_cur = []).
  { clear -IR. induction IR as [|p ps -> _ IH]; [done|]. by rewrite bind_cons, IH. }
  unfold chan_flow_inv in IP. rewrite Hq, Hcur, Hres in IP. simpl in IP.
  refine (conj _ (conj IS (conj _ _))).
  - by rewrite IP.
  - lia.
  - rewrite IS. unfold CR.summary.
    generalize (CR.collected s). intros rs.
    set (st0 := CR.mkStats _ _ _ _ _).
    change (Z.of_nat (length images)) with (CR.TotalFiles st0).
    generalize st0. induction rs as [|r rs IHrs]; intros st; [done|].
    simpl. rewrite IHrs. unfold CR.collect. by destruct (CR.Success r).
Qed.

(** An empty answer counts as yes there: the prompt reads "(S/n)". *)
Lemma chan_confirm_default_yes :
  ChanResults.confirmExecution (String ChanResults.newline EmptyString) = true.
Proof. reflexivity. Qed.

(** There a directory without images ends the program with status 0. *)
Lemma chan_no_images_exit_zero h dir rest entries :
  (ChanResults.quality h <? 1) || (100 <? ChanResults.quality h) = false →
  ChanResults.args h = dir :: rest → dir ≠ "." →
  ChanResults.dir_missing h = false →
  ChanResults.dir_entries h = Some entries →
  ChanResults.scanImages dir entries = [] →
  ChanResults.prelude h = ChanResults.Exit 0.
Proof.
  intros Hq Ha Hd Hm He Hs. unfold ChanResults.prelude.
  rewrite Hq, Ha, bool_decide_eq_false_2, Hm, He, Hs by done. done.
Qed.

(** There dotfiles are taken and avif files are not. *)
Lemma chan_scan_hidden_and_avif :
  ChanResults.scanImages "/pics"
    [mkEntry ".hidden.png" false; mkEntry "x.avif" false; mkEntry "b.JPG" false]
  = ["/pics/.hidden.png"; "/pics/b.JPG"].
Proof. vm_compute. reflexivity. Qed.

Lemma collect_counts stats result :
  ChanResults.TotalFiles (ChanResults.collect stats result) = ChanResults.TotalFiles stats.
Proof. unfold ChanResults.collect. by destruct (ChanResults.Success result). Qed.

Lemma foldl_collect_total results stats :
  ChanResults.TotalFiles (foldl ChanResults.collect stats results)
  = ChanResults.TotalFiles stats.
Proof.
  revert stats. induction results as [|r rs IH]; intros stats; [done|].
  simpl. rewrite IH. apply collect_counts.
Qed.

(** There [TotalFiles] is the number of images found, whatever was sent to
    the workers. *)
Lemma chan_total_is_images images results :
  ChanResults.TotalFiles (ChanResults.summary images results) = Z.of_nat (length images).
Proof. unfold ChanResults.summary. by rewrite foldl_collect_total. Qed.

(** There an image whose [os.Stat] fails between the scan and the dispatch
    gets no job, and stays counted in [TotalFiles]. *)
Lemma chan_dispatch_skips :
  length (ChanResults.dispatch twins_disk "/pics/compressed"
            ["/pics/a.png"; "/pics/gone.png"]) = 1%nat
  ∧ ∀ results,
      ChanResults.TotalFiles
        (ChanResults.summary ["/pics/a.png"; "/pics/gone.png"] results) = 2.
Proof. split; [vm_compute; reflexivity|]. intros results. apply chan_total_is_images. Qed.

(** There, too, two images with the same stem share their destination. *)
Lemma chan_same_stem_same_dest :
  ChanResults.destPath "/pics/compressed" "/pics/a.png"
  = ChanResults.destPath "/pics/compressed" "/pics/a.jpg".
Proof. vm_compute. reflexivity. Qed.

Lemma collect_fold rs st a b :
  CR.ProcessedFiles st = wrap64 a → CR.FailedFiles st = wrap64 b →
  CR.ProcessedFiles (foldl CR.collect st rs)
  = wrap64 (a + Z.of_nat (length (filter (λ r, CR.Success r = true) rs)))
  ∧ CR.FailedFiles (foldl CR.collect st rs)
    = wrap64 (b + Z.of_nat (length (filter (λ r, CR.Success r = false) rs))).
Proof.
  revert st a b. induction rs as [|r rs IH]; intros st a b Ha Hb.
  - simpl. by rewrite !Z.add_0_r.
  - cbn [foldl]. rewrite !filter_cons.
    destruct (CR.Success r) eqn:Hs.
    + assert (Ha' : CR.ProcessedFiles (CR.collect st r) = wrap64 (a + 1)).
      { unfold CR.collect. rewrite Hs. simpl. by rewrite Ha, add64_wrap. }
      assert (Hb' : CR.FailedFiles (CR.collect st r) = wrap64 b).
      { unfold CR.collect. by rewrite Hs. }
      destruct (IH _ _ _ Ha' Hb') as [-> ->].
      rewrite decide_True, decide_False by done.
      simpl length. split; f_equal; lia.
    + assert (Ha' : CR.ProcessedFiles (CR.collect st r) = wrap64 a).
      { unfold CR.collect. by rewrite Hs. }
      assert (Hb' : CR.FailedFiles (CR.collect st r) = wrap64 (b + 1)).
      { unfold CR.collect. rewrite Hs. simpl. by rewrite Hb, add64_wrap. }
      destruct (IH _ _ _ Ha' Hb') as [-> ->].
      rewrite decide_False, decide_True by done.
      simpl length. split; f_equal; lia.
Qed.

Lemma filter_partition_length {A} (f : A → bool) (l : list A) :
  (length (filter (λ x, f x = true) l) + length (filter (λ x, f x = false) l)
   = length l)%nat.
Proof.
  induction l as [|x l IH]; [done|]. rewrite !filter_cons.
  destruct (f x); repeat case_decide; simpl; try done; lia.
Qed.

(** X8. In the older program, too, at most one ffmpeg runs at a time, and
    a worker inside [convertToWebP], from the start of ffmpeg to the
    [os.Stat] of the destination, holds the lock. *)
Theorem chan_encoder_is_exclusive n images fs sched :
  (∀ i k pi pk,
      CR.workers (CR.exec q enc outputPath 0 sched (CR.init n images fs)) !! i = Some pi →
      CR.workers (CR.exec q enc outputPath 0 sched (CR.init n images fs)) !! k = Some pk →
      chan_in_flight pi = true → chan_in_flight pk = true → i = k)
  ∧ (∀ i p,
      CR.workers (CR.exec q enc outputPath 0 sched (CR.init n images fs)) !! i = Some p →
      chan_holds p = true →
      CR.mutex (CR.exec q enc outputPath 0 sched (CR.init n images fs)) = true).
Proof.
  split.
  - intros i k pi pk Hi Hk Fi Fk.
    by destruct (chan_one_ffmpeg_at_a_time n images fs sched i k pi pk Hi Hk Fi Fk).
  - intros i p Hp Hh.
    destruct (chan_invs_reachable n images fs sched) as (I & _).
    set (s := CR.exec _ _ _ _ _ _) in *. unfold chan_mutex_inv in I.
    assert (Hle := sumW_lookup_le (λ p, Z.b2z (chan_holds p)) _ _ _ chan_holds_nonneg Hp).
    simpl in Hle. rewrite Hh in Hle. destruct (CR.mutex s); [done|simpl in I, Hle; lia].
Qed.

(** X9. When the older [main] reaches its summary, every job it sent has
    come back as one result, the successes and the failures counted add up
    to the jobs sent, and [TotalFiles] is the number of images found, which
    can be larger: an image whose [os.Stat] failed was never sent. *)
Theorem chan_counts n images fs sched :
  (0 < n)%nat →
  Z.of_nat (length images) ≤ max_int64 →
  CR.mainpc (CR.exec q enc outputPath 0 sched (CR.init n images fs)) = CR.Summarized →
  jobOfResult <$> CR.collected (CR.exec q enc outputPath 0 sched (CR.init n images fs))
    ≡ₚ CR.sent (CR.exec q enc outputPath 0 sched (CR.init n images fs))
  ∧ CR.ProcessedFiles (CR.stats (CR.exec q enc outputPath 0 sched (CR.init n images fs)))
    + CR.FailedFiles (CR.stats (CR.exec q enc outputPath 0 sched (CR.init n images fs)))
    = Z.of_nat (length (CR.sent (CR.exec q enc outputPath 0 sched (CR.init n images fs))))
  ∧ Z.of_nat (length (CR.sent (CR.exec q enc outputPath 0 sched (CR.init n images fs))))
    ≤ CR.TotalFiles (CR.stats (CR.exec q enc outputPath 0 sched (CR.init n images fs)))
  ∧ CR.TotalFiles (CR.stats (CR.exec q enc outputPath 0 sched (CR.init n images fs)))
    = Z.of_nat (length images).
Proof.
  intros Hn HK Hm.
  destruct (chan_summary n images fs sched Hn Hm) as (Hperm & Hst & Hle & Htot).
  set (s := CR.exec _ _ _ _ _ _) in *.
  assert (HL : length (CR.collected s) = length (CR.sent s)).
  { rewrite <- (length_fmap jobOfResult). by rewrite Hperm. }
  refine (conj Hperm (conj _ (conj _ Htot))); [|rewrite Htot; lia].
  rewrite Hst. unfold CR.summary.
  destruct (collect_fold (CR.collected s)
              {| CR.TotalFiles := Z.of_nat (length images); CR.ProcessedFiles := 0;
                 CR.OriginalSize := 0; CR.ConvertedSize := 0; CR.FailedFiles := 0 |}
              0 0 eq_refl eq_refl) as [-> ->].
  pose proof (filter_partition_length CR.Success (CR.collected s)).
  unfold max_int64 in HK.
  rewrite !wrap64_small by (unfold min_int64, max_int64; lia). lia.
Qed.

End ChanResultsFacts.

(** ** The command line and the messages *)

Section CommandLine.
Import GoStrings FilePath Strconv AtomicStats.

(** *** Decimal numbers *)

Lemma is_digit_digit d :
  0 ≤ d < 10 → is_digit (digit d) = true ∧ Z.of_nat (nat_of_ascii (digit d) - 48) = d.
Proof.
  intros H.
  assert (E : d = 0 ∨ d = 1 ∨ d = 2 ∨ d = 3 ∨ d = 4 ∨ d = 5 ∨ d = 6 ∨ d = 7 ∨ d = 8 ∨ d = 9)
    by lia.
  destruct E as [->|[->|[->|[->|[->|[->|[->|[->|[->| ->]]]]]]]]]; by vm_compute.
Qed.

Lemma digits_app n s1 s2 :
  digits n (s1 +:+ s2) = digits n s1 ≫= λ m, digits m s2.
Proof.
  revert n. induction s1 as [|c s1 IH]; intros n; [done|].
  rewrite append_cons. cbn [digits]. destruct (is_digit c); [apply IH|done].
Qed.

Lemma pow10_succ k : 10 ^ Z.of_nat (S k) = 10 * 10 ^ Z.of_nat k.
Proof. rewrite Nat2Z.inj_succ, Z.pow_succ_r by lia. done. Qed.

(** What [formatBits] writes: the decimal digits of [u], the most
    significant first. *)
Lemma formatBits_digits fuel u acc :
  0 ≤ u < 10 ^ Z.of_nat (S fuel) →
  ∃ ds, formatBits (S fuel) u acc = ds +:+ acc
        ∧ (∃ c r, ds = String c r ∧ is_digit c = true)
        ∧ ∀ n, digits n ds = Some (n * 10 ^ Z.of_nat (String.length ds) + u).
Proof.
  revert u acc. induction fuel as [|f IH]; intros u acc Hu.
  - rewrite pow10_succ in Hu. change (10 ^ Z.of_nat 0) with 1 in Hu.
    cbn [formatBits]. destruct (Z.ltb_spec u 10) as [Hlt|Hge]; [|lia].
    destruct (is_digit_digit u ltac:(lia)) as [Hd Hv].
    exists (String (digit u) EmptyString). split; [done|]. split; [eauto|].
    intros n. cbn [digits String.length]. rewrite Hd, Hv.
    change (10 ^ Z.of_nat 1) with 10. done.
  - rewrite pow10_succ in Hu.
    change (formatBits (S (S f)) u acc)
      with (if u <? 10 then String (digit u) acc
            else formatBits (S f) (u / 10) (String (digit (u mod 10)) acc)).
    destruct (Z.ltb_spec u 10) as [Hlt|Hge].
    + destruct (is_digit_digit u ltac:(lia)) as [Hd Hv].
      exists (String (digit u) EmptyString). split; [done|]. split; [eauto|].
      intros n. cbn [digits String.length]. rewrite Hd, Hv.
      change (10 ^ Z.of_nat 1) with 10. done.
    + destruct (IH (u / 10) (String (digit (u mod 10)) acc))
        as (ds & E & (c & r & -> & Hc) & Hval).
      { split; [apply Z.div_pos; lia|]. apply Z.div_lt_upper_bound; lia. }
      destruct (is_digit_digit (u mod 10)) as [Hd Hv].
      { apply Z.mod_pos_bound. lia. }
      exists (String c r +:+ String (digit (u mod 10)) EmptyString).
      split; [|split].
      * rewrite E. rewrite append_assoc_s. by rewrite append_cons.
      * rewrite append_cons. eauto.
      * intros n. rewrite digits_app, Hval. cbn [mbind option_bind digits].
        rewrite Hd, Hv. f_equal. rewrite length_append_s.
        cbn [String.length]. rewrite Nat.add_1_r, pow10_succ.
        pose proof (Z.div_mod u 10 ltac:(lia)) as Hdm.
        set (X := 10 ^ Z.of_nat (String.length (String c r))).
        set (q := u / 10) in *. set (m := u mod 10) in *.
        rewrite Hdm, !pow10_succ. ring.
Qed.

Lemma append_nil_r_s (s : string) : s +:+ EmptyString = s.
Proof. induction s as [|c r IH]; [done|]. by rewrite append_cons, IH. Qed.

Lemma Atoi_unsigned c r u :
  is_digit c = true → digits 0 (String c r) = Some u →
  Atoi (String c r) = (if (min_int64 <=? u) && (u <=? max_int64) then Some u else None).
Proof.
  intros Hc Hd. unfold Atoi.
  assert (E : match String c r with
              | String "-" r0 => (true, r0)
              | String "+" r0 => (false, r0)
              | _ => (false, String c r)
              end = (false, String c r)).
  { destruct (decide (c = "-"%char)) as [->|?]; [done|].
    destruct (decide (c = "+"%char)) as [->|?]; [done|].
    destruct c as [[] [] [] [] [] [] [] []]; done. }
  rewrite E. cbv beta iota. rewrite Hd. done.
Qed.

Lemma Atoi_negative c r u :
  digits 0 (String c r) = Some u →
  Atoi (String "-" (String c r))
  = (if (min_int64 <=? - u) && (- u <=? max_int64) then Some (- u) else None).
Proof. intros Hd. unfold Atoi. cbv beta iota. rewrite Hd. done. Qed.

(** [strconv.Atoi] reads back what [strconv.Itoa] wrote. *)
Lemma Atoi_Itoa i : min_int64 ≤ i ≤ max_int64 → Atoi (Itoa i) = Some i.
Proof.
  intros Hi. unfold Itoa. destruct (Z.ltb_spec i 0) as [Hneg|Hpos].
  - destruct (formatBits_digits 19 (- i) EmptyString) as (ds & E & (c & r & -> & Hc) & Hval).
    { unfold min_int64 in Hi. change (10 ^ Z.of_nat 20) with 100000000000000000000. lia. }
    rewrite E, append_nil_r_s. specialize (Hval 0). rewrite Z.mul_0_l, Z.add_0_l in Hval.
    rewrite (Atoi_negative c r (- i) Hval), Z.opp_involutive.
    destruct (Z.leb_spec min_int64 i), (Z.leb_spec i max_int64); simpl; try done; lia.
  - destruct (formatBits_digits 19 i EmptyString) as (ds & E & (c & r & -> & Hc) & Hval).
    { unfold max_int64 in Hi. change (10 ^ Z.of_nat 20) with 100000000000000000000. lia. }
    rewrite E, append_nil_r_s. specialize (Hval 0). rewrite Z.mul_0_l, Z.add_0_l in Hval.
    rewrite (Atoi_unsigned c r i Hc Hval).
    destruct (Z.leb_spec min_int64 i), (Z.leb_spec i max_int64); simpl; try done; lia.
Qed.

(** *** The flags *)

(** No flag of the command line reads as a number. *)
Lemma Atoi_flag v n :
  Atoi v = Some n → is_quality v = false ∧ is_skip v = false ∧ is_replace v = false.
Proof.
  intros H. unfold is_quality, is_skip, is_replace.
  repeat split; apply orb_false_intro; apply bool_decide_eq_false;
    intros ->; vm_compute in H; discriminate.
Qed.

Lemma scanArgs_flags args : ∀ cfg rest cfg' rest',
  scanArgs args cfg rest = inr (cfg', rest') →
  Skip cfg' = Skip cfg || existsb is_skip args
  ∧ Replace cfg' = Replace cfg || existsb is_replace args
  ∧ (existsb is_quality args = false → Quality cfg' = Quality cfg)
  ∧ (1 ≤ Quality cfg ≤ 100 → 1 ≤ Quality cfg' ≤ 100)
  ∧ WorkDir cfg' = WorkDir cfg.
Proof.
  induction args as [args IH] using (induction_ltof1 _ (@length string)).
  unfold ltof in IH. intros cfg rest cfg' rest' H.
  destruct args as [|a tl].
  { simpl in H. injection H as <- <-. simpl. rewrite !orb_false_r. done. }
  cbn [scanArgs] in H. cbn [existsb].
  destruct (is_quality a) eqn:Eq.
  - destruct tl as [|v tl']; [done|].
    destruct (Atoi v) as [n|] eqn:Ev; [|done].
    destruct (Z.ltb_spec n 1) as [?|Hlo]; [done|].
    destruct (Z.ltb_spec 100 n) as [?|Hhi]; [done|].
    simpl in H. apply IH in H; [|simpl; lia].
    destruct H as (H1 & H2 & H3 & H4 & H5). simpl in *.
    destruct (Atoi_flag v n Ev) as (F1 & F2 & F3).
    assert (Es : is_skip a = false).
    { unfold is_quality, is_skip in *. apply orb_true_iff in Eq.
      destruct Eq as [->%bool_decide_eq_true| ->%bool_decide_eq_true]; done. }
    assert (Er : is_replace a = false).
    { unfold is_quality, is_replace in *. apply orb_true_iff in Eq.
      destruct Eq as [->%bool_decide_eq_true| ->%bool_decide_eq_true]; done. }
    rewrite Es, Er, F2, F3. simpl. repeat split; try done; try (apply H4; lia).
  - destruct (is_skip a) eqn:Es.
    + apply IH in H; [|simpl; lia]. destruct H as (H1 & H2 & H3 & H4 & H5).
      simpl in *.
      assert (Er : is_replace a = false).
      { unfold is_skip, is_replace in *. apply orb_true_iff in Es.
        destruct Es as [->%bool_decide_eq_true| ->%bool_decide_eq_true]; done. }
      rewrite Er. simpl. rewrite H1, orb_true_r. done.
    + destruct (is_replace a) eqn:Er.
      * apply IH in H; [|simpl; lia]. destruct H as (H1 & H2 & H3 & H4 & H5).
        simpl in *. rewrite H2, orb_true_r. done.
      * apply IH in H; [|simpl; lia]. simpl. done.
Qed.

Lemma scanArgs_app a1 : ∀ a2 cfg rest cfg' rest',
  scanArgs a1 cfg rest = inr (cfg', rest') →
  scanArgs (a1 ++ a2) cfg rest = scanArgs a2 cfg' rest'.
Proof.
  induction a1 as [a1 IH] using (induction_ltof1 _ (@length string)).
  unfold ltof in IH. intros a2 cfg rest cfg' rest' H.
  destruct a1 as [|a tl].
  { simpl in H. by injection H as <- <-. }
  cbn [scanArgs] in H. rewrite <- app_comm_cons. cbn [scanArgs].
  destruct (is_quality a).
  - destruct tl as [|v tl']; [done|]. rewrite <- app_comm_cons.
    destruct (Atoi v) as [n|]; [|done].
    destruct ((n <? 1) || (100 <? n)); [done|].
    apply IH; [simpl; lia|done].
  - destruct (is_skip a); [apply IH; [simpl; lia|done]|].
    destruct (is_replace a); apply IH; (simpl; lia) || done.
Qed.

Lemma scanArgs_error args : ∀ cfg rest e,
  scanArgs args cfg rest = inl e → e = ErrNoQuality ∨ e = ErrQualityRange.
Proof.
  induction args as [args IH] using (induction_ltof1 _ (@length string)).
  unfold ltof in IH. intros cfg rest e H.
  destruct args as [|a tl]; [done|].
  cbn [scanArgs] in H.
  destruct (is_quality a).
  - destruct tl as [|v tl']; [injection H as <-; eauto|].
    destruct (Atoi v) as [n|]; [|injection H as <-; eauto].
    destruct ((n <? 1) || (100 <? n)); [injection H as <-; eauto|].
    eapply IH; [|done]. simpl; lia.
  - destruct (is_skip a); [eapply IH; [|done]; simpl; lia|].
    destruct (is_replace a); (eapply IH; [|done]; simpl; lia).
Qed.

Lemma scanArgs_rest args : ∀ cfg rest cfg' rest',
  scanArgs args cfg rest = inr (cfg', rest') →
  ∃ more, rest' = rest ++ more ∧ more ⊆ args
    ∧ Forall (λ a, is_quality a = false ∧ is_skip a = false ∧ is_replace a = false) more.
Proof.
  induction args as [args IH] using (induction_ltof1 _ (@length string)).
  unfold ltof in IH. intros cfg rest cfg' rest' H.
  destruct args as [|a tl].
  { simpl in H. injection H as <- <-. exists []. by rewrite app_nil_r. }
  cbn [scanArgs] in H.
  destruct (is_quality a) eqn:Eq.
  - destruct tl as [|v tl']; [done|].
    destruct (Atoi v) as [n|]; [|done].
    destruct ((n <? 1) || (100 <? n)); [done|].
    apply IH in H; [|simpl; lia]. destruct H as (more & -> & Hs & Hf).
    exists more. split; [done|]. split; [|done].
    intros x Hx. apply elem_of_cons; right. apply elem_of_cons; right. by apply Hs.
  - destruct (is_skip a) eqn:Es.
    { apply IH in H; [|simpl; lia]. destruct H as (more & -> & Hs & Hf).
      exists more. split; [done|]. split; [|done].
      intros x Hx. apply elem_of_cons; right. by apply Hs. }
    destruct (is_replace a) eqn:Er.
    { apply IH in H; [|simpl; lia]. destruct H as (more & -> & Hs & Hf).
      exists more. split; [done|]. split; [|done].
      intros x Hx. apply elem_of_cons; right. by apply Hs. }
    apply IH in H; [|simpl; lia]. destruct H as (more & -> & Hs & Hf).
    exists (a :: more). rewrite <- app_assoc. split; [done|]. split.
    + intros x [->|Hx]%elem_of_cons; apply elem_of_cons; [by left|right; by apply Hs].
    + by constructor.
Qed.

(** A quality flag at the end of the command line is never accepted,
    whatever stands before it. *)
Lemma scanArgs_dangling q args : ∀ cfg rest,
  is_quality q = true → Atoi q = None →
  ∃ e, scanArgs (args ++ [q]) cfg rest = inl e.
Proof.
  induction args as [args IH] using (induction_ltof1 _ (@length string)).
  unfold ltof in IH. intros cfg rest Hq Ha.
  destruct args as [|a tl].
  { cbn [app scanArgs]. rewrite Hq. by eexists. }
  rewrite <- app_comm_cons. cbn [scanArgs].
  destruct (is_quality a).
  - destruct tl as [|v tl'].
    { cbn [app]. rewrite Ha. by eexists. }
    rewrite <- app_comm_cons.
    destruct (Atoi v) as [n|]; [|by eexists].
    destruct ((n <? 1) || (100 <? n)); [by eexists|].
    apply IH; [simpl; lia|done..].
  - destruct (is_skip a); [apply IH; [simpl; lia|done..]|].
    destruct (is_replace a); (apply IH; [simpl; lia|done..]).
Qed.

Lemma pow1024_succ k : 1024 ^ Z.of_nat (S k) = 1024 * 1024 ^ Z.of_nat k.
Proof. rewrite Nat2Z.inj_succ, Z.pow_succ_r by lia. done. Qed.

Lemma pow1024_pos k : 0 < 1024 ^ Z.of_nat k.
Proof. apply Z.pow_pos_nonneg; lia. Qed.

(** The loop of [formatSize]: [div] stays the power of 1024 that belongs
    to [exp], never overflows, and the loop ends with the largest power
    that is at most [bytes]. *)
Lemma scale_spec fuel : ∀ n exp bytes,
  1 ≤ n < 1024 ^ Z.of_nat fuel →
  n * 1024 ^ Z.of_nat (S exp) ≤ bytes < (n + 1) * 1024 ^ Z.of_nat (S exp) →
  bytes ≤ max_int64 →
  ∃ e, CR.scale fuel n (1024 ^ Z.of_nat (S exp)) exp = Some (1024 ^ Z.of_nat (S e), e)
       ∧ (exp ≤ e)%nat
       ∧ 1024 ^ Z.of_nat (S e) ≤ bytes < 1024 * 1024 ^ Z.of_nat (S e).
Proof.
  induction fuel as [|f IH]; intros n exp bytes Hn Hb Hmax.
  { change (1024 ^ Z.of_nat 0) with 1 in Hn. lia. }
  cbn [CR.scale]. pose proof (pow1024_pos (S exp)) as Hp.
  set (D := 1024 ^ Z.of_nat (S exp)) in *.
  destruct (Z.leb_spec 1024 n) as [Hge|Hlt].
  - assert (Hw : wrap64 (D * 1024) = 1024 ^ Z.of_nat (S (S exp))).
    { rewrite wrap64_small; [rewrite (pow1024_succ (S exp)); fold D; lia|].
      unfold min_int64. nia. }
    rewrite Hw. rewrite Z.quot_div_nonneg by lia.
    pose proof (Z.div_mod n 1024 ltac:(lia)) as Hdm.
    pose proof (Z.mod_pos_bound n 1024 ltac:(lia)) as Hm.
    destruct (IH (n / 1024) (S exp) bytes) as (e & E & He & Hbe).
    + rewrite pow1024_succ in Hn. lia.
    + rewrite (pow1024_succ (S exp)). fold D. nia.
    + done.
    + exists e. split; [done|]. split; [lia|done].
  - exists exp. split; [done|]. split; [lia|]. fold D. nia.
Qed.

Lemma get_letter e : (e ≤ 5)%nat → ∃ c, String.get e "KMGTPE" = Some c.
Proof.
  intros H. do 6 (destruct e as [|e]; [by eexists|]). lia.
Qed.


(** X10. A command line that [parseArgs] accepts gives a quality between 1
    and 100, which is 80 when no quality flag was given; [Skip] and
    [Replace] are on exactly when one of their flags occurs among the
    arguments (an accepted command line holds no flag in the place of the
    quality's value); the work directory is the current directory, or what
    [filepath.Abs] made of an argument that is no flag, and then it is a
    directory. *)
Theorem parsed_configuration d args cfg :
  parseArgs d args = inr cfg →
  1 ≤ Quality cfg ≤ 100
  ∧ (existsb is_quality args = false → Quality cfg = 80)
  ∧ Skip cfg = existsb is_skip args
  ∧ Replace cfg = existsb is_replace args
  ∧ (Getwd d = Some (WorkDir cfg)
     ∨ ∃ a, a ∈ args ∧ is_quality a = false ∧ is_skip a = false ∧ is_replace a = false
            ∧ Abs d a = Some (WorkDir cfg) ∧ isDir d (WorkDir cfg) = true).
Proof.
  unfold parseArgs. intros H.
  destruct (scanArgs args defaults []) as [e|[c rest]] eqn:E; [done|].
  pose proof (scanArgs_flags _ _ _ _ _ E) as (H1 & H2 & H3 & H4 & H5).
  pose proof (scanArgs_rest _ _ _ _ _ E) as (more & Hr & Hs & Hf).
  simpl in *. subst rest.
  assert (G : ∀ w, 1 ≤ Quality (setWorkDir c w) ≤ 100
    ∧ (existsb is_quality args = false → Quality (setWorkDir c w) = 80)
    ∧ Skip (setWorkDir c w) = existsb is_skip args
    ∧ Replace (setWorkDir c w) = existsb is_replace args).
  { intros w. simpl. repeat split; try done; apply H4; lia. }
  destruct more as [|first more].
  - destruct (Getwd d) as [dir|]; [|done]. injection H as <-.
    destruct (G dir) as (? & ? & ? & ?). do 4 (split; [done|]). by left.
  - destruct (Abs d first) as [abs|] eqn:Ea; [|done].
    destruct (isDir d abs) eqn:Ed; [|done]. injection H as <-.
    destruct (G abs) as (? & ? & ? & ?). do 4 (split; [done|]).
    right. exists first. apply Forall_cons in Hf as [(? & ? & ?) _].
    split; [apply Hs, elem_of_cons; by left|]. done.
Qed.


(** X11. A quality flag as the last argument is refused, under either of
    its names and whatever stands before it, with one of the two messages
    about the quality; the directory is not the reason. *)
Theorem dangling_quality_is_refused d args :
  (∃ e, parseArgs d (args ++ ["-q"%string]) = inl e
        ∧ (e = ErrNoQuality ∨ e = ErrQualityRange))
  ∧ (∃ e, parseArgs d (args ++ ["-quality"%string]) = inl e
          ∧ (e = ErrNoQuality ∨ e = ErrQualityRange)).
Proof.
  unfold parseArgs. split.
  - destruct (scanArgs_dangling "-q" args defaults []) as [e E]; [done..|].
    rewrite E. exists e. split; [done|]. by eapply scanArgs_error.
  - destruct (scanArgs_dangling "-quality" args defaults []) as [e E]; [done..|].
    rewrite E. exists e. split; [done|]. by eapply scanArgs_error.
Qed.

(** X12. The quality reaches ffmpeg unchanged: the fifth argument of the
    command that [convert] builds is a decimal numeral that reads back, by
    [strconv.Atoi], as the quality of the configuration; the source and the
    destination are the third and the last argument. *)
Theorem quality_reaches_ffmpeg src dst quality :
  min_int64 ≤ quality ≤ max_int64 →
  ∃ q, ffmpegArgs src dst quality = ["-y"; "-i"; src; "-qscale"; q; dst]%string
       ∧ Atoi q = Some quality.
Proof.
  intros H. exists (Itoa quality). split; [done|]. by apply Atoi_Itoa.
Qed.

(** X13. [formatSize] returns for every [int64]: a size below 1024, a
    negative one too, is shown in bytes; any other size is divided by the
    largest power of 1024 that is at most the size, a power that fits in an
    [int64], and the index into ["KMGTPE"] is at most 5, so that the letter
    exists. *)
Theorem formatSize_shows_every_size bytes :
  min_int64 ≤ bytes ≤ max_int64 →
  (bytes < 1024 ∧ CR.formatSize bytes = Some (CR.InBytes bytes))
  ∨ (∃ e c, (e ≤ 5)%nat
       ∧ String.get e "KMGTPE" = Some c
       ∧ CR.formatSize bytes = Some (CR.Scaled bytes (1024 ^ Z.of_nat (S e)) (Some c))
       ∧ 1024 ^ Z.of_nat (S e) ≤ bytes < 1024 * 1024 ^ Z.of_nat (S e)).
Proof.
  intros H. unfold CR.formatSize. destruct (Z.ltb_spec bytes 1024) as [Hlt|Hge].
  { by left. }
  right. rewrite Z.quot_div_nonneg by lia.
  pose proof (Z.div_mod bytes 1024 ltac:(lia)) as Hdm.
  pose proof (Z.mod_pos_bound bytes 1024 ltac:(lia)) as Hm.
  destruct (scale_spec 64 (bytes / 1024) 0 bytes) as (e & E & _ & Hb).
  { split; [lia|]. apply Z.div_lt_upper_bound; [lia|].
    unfold max_int64 in H. change (1024 ^ Z.of_nat 64) with (2 ^ 640).
    assert (2 ^ 63 < 2 ^ 640) by (apply Z.pow_lt_mono_r; lia). lia. }
  { change (1024 ^ Z.of_nat 1) with 1024. lia. }
  { lia. }
  change (1024 ^ Z.of_nat 1) with 1024 in E.
  assert (He : (e ≤ 5)%nat).
  { destruct (decide (e ≤ 5)%nat) as [|Hn]; [done|]. exfalso.
    assert (1024 ^ 7 ≤ 1024 ^ Z.of_nat (S e)) by (apply Z.pow_le_mono_r; lia).
    unfold max_int64 in H. change (1024 ^ 7) with (2 ^ 70) in *.
    assert (2 ^ 63 < 2 ^ 70) by (apply Z.pow_lt_mono_r; lia). lia. }
  destruct (get_letter e He) as [c Hc].
  exists e, c. rewrite E. cbn [mbind option_bind]. rewrite Hc. done.
Qed.

(** *** The theorems on sample inputs *)

Lemma parsed_configuration_witness :
  1 ≤ 60 ≤ 100
  ∧ (existsb is_quality ["-q"; "60"; "/pics/"; "-r"; "/tmp"]%string = false → 60 = 80)
  ∧ false = existsb is_skip ["-q"; "60"; "/pics/"; "-r"; "/tmp"]%string
  ∧ true = existsb is_replace ["-q"; "60"; "/pics/"; "-r"; "/tmp"]%string
  ∧ (Getwd dirs_pics = Some "/pics"%string
     ∨ ∃ a, a ∈ ["-q"; "60"; "/pics/"; "-r"; "/tmp"]%string
            ∧ is_quality a = false ∧ is_skip a = false ∧ is_replace a = false
            ∧ Abs dirs_pics a = Some "/pics"%string ∧ isDir dirs_pics "/pics" = true).
Proof.
  apply (parsed_configuration dirs_pics ["-q"; "60"; "/pics/"; "-r"; "/tmp"]%string
           {| WorkDir := "/pics"; Quality := 60; Skip := false; Replace := true |}).
  vm_compute. reflexivity.
Defined.

Lemma quality_reaches_ffmpeg_witness :
  ∃ q, ffmpegArgs "/pics/a.png" "/pics/a.webp" 80
       = ["-y"; "-i"; "/pics/a.png"; "-qscale"; q; "/pics/a.webp"]%string
       ∧ Atoi q = Some 80.
Proof.
  apply (quality_reaches_ffmpeg "/pics/a.png" "/pics/a.webp" 80).
  unfold min_int64, max_int64. lia.
Defined.

Lemma formatSize_shows_every_size_witness :
  (2000000 < 1024 ∧ CR.formatSize 2000000 = Some (CR.InBytes 2000000))
  ∨ (∃ e c, (e ≤ 5)%nat
       ∧ String.get e "KMGTPE" = Some c
       ∧ CR.formatSize 2000000
         = Some (CR.Scaled 2000000 (1024 ^ Z.of_nat (S e)) (Some c))
       ∧ 1024 ^ Z.of_nat (S e) ≤ 2000000 < 1024 * 1024 ^ Z.of_nat (S e)).
Proof.
  apply (formatSize_shows_every_size 2000000). unfold min_int64, max_int64. lia.
Defined.

Lemma chan_counts_witness :
  jobOfResult <$> CR.collected chan_pool ≡ₚ CR.sent chan_pool
  ∧ CR.ProcessedFiles (CR.stats chan_pool) + CR.FailedFiles (CR.stats chan_pool)
    = Z.of_nat (length (CR.sent chan_pool))
  ∧ Z.of_nat (length (CR.sent chan_pool)) ≤ CR.TotalFiles (CR.stats chan_pool)
  ∧ CR.TotalFiles (CR.stats chan_pool)
    = Z.of_nat (length ["/pics/a.png"; "/pics/gone.png"]%string).
Proof.
  apply (chan_counts 80 halving "/pics/compressed" 2
           ["/pics/a.png"; "/pics/gone.png"]%string twins_disk (chan_turns 12)).
  - lia.
  - unfold max_int64. simpl. lia.
  - vm_compute. reflexivity.
Defined.

End CommandLine.

(** ** Checks of the string functions *)

Section Checks.
#[local] Existing Instance no_tables.

Example Ext_upper : FilePath.Ext "/a.b/c.d.PNG" = ".PNG".
Proof. reflexivity. Qed.

Example Ext_no_dot : FilePath.Ext "/a.b/cd" = "".
Proof. reflexivity. Qed.

Example TrimSuffix_ext :
  GoStrings.TrimSuffix "c.d.PNG" (FilePath.Ext "c.d.PNG") = "c.d".
Proof. reflexivity. Qed.

Example Base_file : FilePath.Base "/home/u/pics/a.png" = "a.png".
Proof. reflexivity. Qed.

Example Join_dir : FilePath.Join ["/home/u"; "a.png"] = "/home/u/a.png".
Proof. reflexivity. Qed.

Example Join_root : FilePath.Join ["/"; "a.png"] = "/a.png".
Proof. reflexivity. Qed.

Example Join_relative : FilePath.Join ["./pics"; "a.png"] = "pics/a.png".
Proof. reflexivity. Qed.

Example Join_empty : FilePath.Join [""; "a.png"] = "a.png".
Proof. reflexivity. Qed.

Example Clean_dots :
  FilePath.Clean "a//b/./c/../d/" = "a/b/d"
  ∧ FilePath.Clean "../../a/.." = "../.."
  ∧ FilePath.Clean "/../a" = "/a"
  ∧ FilePath.Clean "a/.." = "."
  ∧ FilePath.Clean "//" = "/".
Proof. repeat split; reflexivity. Qed.

(** The older program joins the directory as it was typed. *)
Example scan_relative :
  ChanResults.scanImages "./pics" [mkEntry "a.png" false] = ["pics/a.png"].
Proof. vm_compute. reflexivity. Qed.

Example TrimSpace_answer :
  GoStrings.TrimSpace
    (GoStrings.ToLower (String "009" " Sim " +:+ String AtomicStats.newline ""))
  = "sim".
Proof. reflexivity. Qed.

Example confirm_sim :
  AtomicStats.confirmExecution ("SIM " +:+ String AtomicStats.newline "ignored") = true
  ∧ AtomicStats.confirmExecution (String AtomicStats.newline "") = false
  ∧ AtomicStats.confirmExecution "s" = false
  ∧ AtomicStats.confirmExecution answer_no = false.
Proof. repeat split; vm_compute; reflexivity. Qed.

Example jobs_of_pics :
  AtomicStats.buildJobs in_place pics
  = [AtomicStats.mkJob "/pics/a.png" "/pics/a.webp";
     AtomicStats.mkJob "/pics/b.JPG" "/pics/b.webp"].
Proof. vm_compute. reflexivity. Qed.

Example jobs_beside :
  AtomicStats.buildJobs beside pics
  = [AtomicStats.mkJob "/pics/a.png" "/pics/compressed/a.webp";
     AtomicStats.mkJob "/pics/b.JPG" "/pics/compressed/b.webp"].
Proof. vm_compute. reflexivity. Qed.

Example stats_of_pics :
  AtomicStats.stats pool_pics = AtomicStats.mkStats 2 1 1 2000000 1000000.
Proof. vm_compute. reflexivity. Qed.

(** Without fixed sizes the width matters: when two jobs share their
    destination, a worker may read what the other one wrote. *)
Example shared_destination_changes_sizes :
  AtomicStats.SizeAfter
    (AtomicStats.stats
       (AtomicStats.exec in_place calm late_stat
          (AtomicStats.init 2 (AtomicStats.buildJobs in_place twins) twins_disk)))
  = 1000000
  ∧ AtomicStats.SizeAfter (AtomicStats.stats (pool_twins 1)) = 1500000.
Proof. split; vm_compute; reflexivity. Qed.

(** The program with a results channel on a directory where one image
    vanished after the scan: the summary counts two files for one result. *)
Example chan_pool_summary :
  CR.mainpc chan_pool = CR.Summarized
  ∧ CR.stats chan_pool = CR.mkStats 2 1 2000000 1000000 0.
Proof. split; vm_compute; reflexivity. Qed.

End Checks.
